(** * ScreenTranslator: the OCR wrapper (src/ocr/tesseract.cpp)

    A shallow embedding of [getScale], [prepareImage] and the [Tesseract]
    session class, and the properties of the image-preparation and
    adaptive-scaling heuristic stated in the specification; then the
    free-memory probe of Linux, the list of the available languages and
    the translator list of the settings editor (src/settingseditor.cpp),
    with properties read off the code.

    Conventions of the embedding.
    - [double] values are the rationals that binary64 represents, the two
      infinities and NaN; every arithmetic operation rounds its exact
      result to the nearest double, ties to even.
    - [l_uint32] fields are [N], [l_int32] and [qint64] values are [Z]; the
      wrap-around of 32-bit arithmetic is written out where the code
      multiplies.
    - A [Pix *] is an optional reference; the set of buffers that were
      created and not yet destroyed is part of the [World] the functions
      run in, together with the reading of the free-memory probe and the
      trace of library calls.
    - Leptonica, Qt and the Tesseract engine are external: their outcomes
      are the fields of a [Library] record that the functions are
      parameterised by. *)

From Stdlib Require Import ZArith NArith QArith Qround Qpower Lia Lqa.
From Stdlib Require Import String Ascii.
From Stdlib Require PrimFloat FloatOps SpecFloat.
From Stdlib Require DecimalString DecimalN DecimalPos.
From stdpp Require Import base option list gmap sets sorting.

Local Open Scope Z_scope.

(** ** The [double] type *)

(** IEEE 754 binary64 with rounding to nearest, ties to even, as C++
    [double] arithmetic has it: a finite value is the rational it stands
    for, and every operation returns the exact result rounded once. The
    two zeros are not told apart. *)
Module Double.

Inductive double : Type :=
| Fin (q : Q)
| PInf
| NInf
| NaN.

Definition Qltb (x y : Q) : bool := negb (Qle_bool y x).

(** The integer [k] with [2 ^ k <= q < 2 ^ (k + 1)], for [q] positive. *)
Definition Qlog2 (q : Q) : Z :=
  let k := Z.log2 (Qnum q) - Z.log2 (Zpos (Qden q)) in
  if Qle_bool (2 ^ k) q then k else k - 1.

(** The nearest integer, the even one of two that are as near. *)
Definition rne (x : Q) : Z :=
  let f := Qfloor x in
  match (x - inject_Z f ?= 1 # 2)%Q with
  | Lt => f
  | Gt => f + 1
  | Eq => if Z.even f then f else f + 1
  end.

(** The exponent of the unit in the last place of the doubles around
    [q]: 53 bits of precision, and -1074 for the subnormal numbers. *)
Definition ulp_exponent (q : Q) : Z := Z.max (Qlog2 q - 52) (-1074).

(** The multiple of the unit in the last place nearest to [q], for [q]
    positive. *)
Definition round_pos (q : Q) : Q :=
  let e := ulp_exponent q in
  (inject_Z (rne (q / 2 ^ e)) * 2 ^ e)%Q.

(** The double nearest to [q]; an infinity from [2 ^ 1024] on. *)
Definition round (q : Q) : double :=
  match (q ?= 0)%Q with
  | Eq => Fin 0
  | Gt =>
      let r := round_pos q in
      if Qle_bool (2 ^ 1024) r then PInf else Fin (Qred r)
  | Lt =>
      let r := round_pos (- q) in
      if Qle_bool (2 ^ 1024) r then NInf else Fin (Qred (- r))
  end.

(** The conversion of an integer, and a decimal literal of the source. *)
Definition of_Z (z : Z) : double := round (inject_Z z).
Definition of_N (n : N) : double := of_Z (Z.of_N n).
Definition literal (q : Q) : double := round q.

(** [a < b]; false as soon as one side is NaN. *)
Definition ltb (a b : double) : bool :=
  match a, b with
  | NaN, _ | _, NaN => false
  | Fin x, Fin y => Qltb x y
  | NInf, NInf => false
  | NInf, _ => true
  | _, NInf => false
  | PInf, _ => false
  | Fin _, PInf => true
  end.

(** [a <= b]; false as soon as one side is NaN. *)
Definition leb (a b : double) : bool :=
  match a, b with
  | NaN, _ | _, NaN => false
  | Fin x, Fin y => Qle_bool x y
  | NInf, _ => true
  | _, PInf => true
  | PInf, _ => false
  | Fin _, NInf => false
  end.

Definition Qsign_inf (x : Q) : double :=
  match (x ?= 0)%Q with
  | Gt => PInf
  | Lt => NInf
  | Eq => NaN
  end.

Definition opp (a : double) : double :=
  match a with
  | Fin x => Fin (Qred (- x))
  | PInf => NInf
  | NInf => PInf
  | NaN => NaN
  end.

(** [a * b]. *)
Definition mul (a b : double) : double :=
  match a, b with
  | NaN, _ | _, NaN => NaN
  | Fin x, Fin y => round (x * y)
  | Fin x, PInf | PInf, Fin x => Qsign_inf x
  | Fin x, NInf | NInf, Fin x => opp (Qsign_inf x)
  | PInf, PInf | NInf, NInf => PInf
  | PInf, NInf | NInf, PInf => NInf
  end.

(** [a / b]; a finite non-zero value divided by zero is an infinity of
    the sign of the dividend (the zero divisors of the code are
    conversions of unsigned integers, hence positive zeros). *)
Definition div (a b : double) : double :=
  match a, b with
  | NaN, _ | _, NaN => NaN
  | Fin x, Fin y => if Qeq_bool y 0 then Qsign_inf x else round (x / y)
  | Fin _, (PInf | NInf) => Fin 0
  | PInf, Fin y => if Qltb y 0 then NInf else PInf
  | NInf, Fin y => if Qltb y 0 then PInf else NInf
  | (PInf | NInf), (PInf | NInf) => NaN
  end.

Definition is_nan (a : double) : bool :=
  match a with NaN => true | _ => false end.

(** [std::min(a, b)] is [(b < a) ? b : a]. *)
Definition std_min (a b : double) : double := if ltb b a then b else a.

(** [std::max(a, b)] is [(a < b) ? b : a]. *)
Definition std_max (a b : double) : double := if ltb a b then b else a.

End Double.

Import Double.

(** *** The binary64 numbers of the kernel, for comparison *)

Definition Q_of_spec_float (f : SpecFloat.spec_float) : option Q :=
  match f with
  | SpecFloat.S754_zero _ => Some 0%Q
  | SpecFloat.S754_finite s m e =>
      Some (Qred ((if s then -1 else 1) * inject_Z (Zpos m) * 2 ^ e))%Q
  | _ => None
  end.

Definition Q_of_float (f : PrimFloat.float) : option Q :=
  Q_of_spec_float (FloatOps.Prim2SF f).

Definition Q_of_double (d : double) : option Q :=
  match d with
  | Fin q => Some (Qred q)
  | _ => None
  end.

(** ** 32-bit integers *)

(** The value of an [int] expression whose exact value is [z]: overflow
    of signed arithmetic, which C++ leaves undefined, wraps around as it
    does on the machines the program runs on. *)
Definition wrap_int32 (z : Z) : Z := (z + 2 ^ 31) mod 2 ^ 32 - 2 ^ 31.

(** The value of an [l_uint32] expression whose exact value is [n]. *)
Definition wrap_uint32 (n : N) : N := (n mod 2 ^ 32)%N.

(** [std::numeric_limits<int>::max()] *)
Definition INT_MAX : Z := 2 ^ 31 - 1.

(** ** Leptonica's [Pix] header (the fields the wrapper reads) *)

Record Pix : Type := mkPix {
  pix_w : N;       (* l_uint32 w *)
  pix_h : N;       (* l_uint32 h *)
  pix_d : N;       (* l_uint32 d *)
  pix_xres : Z;    (* l_int32 xres *)
  pix_yres : Z     (* l_int32 yres *)
}.

(** A non-null [Pix *]: the address of the buffer and the header found
    there (no function of the wrapper writes to a buffer it has created). *)
Record PixRef : Type := mkRef {
  addr : nat;
  obj : Pix
}.

Definition PixPtr : Type := option PixRef.

Definition nullptr : PixPtr := None.

Definition ptr_addr (p : PixPtr) : option nat := addr <$> p.

(** [p != q] on pointers. *)
Definition ptr_neq (p q : PixPtr) : bool :=
  negb (bool_decide (ptr_addr p = ptr_addr q)).

Definition non_null (p : PixPtr) : bool :=
  match p with Some _ => true | None => false end.

(** ** [QString] *)

Definition QString : Type := list N.

Definition qstr (s : string) : QString :=
  (λ c, N_of_ascii c) <$> list_ascii_of_string s.

Definition isEmpty (s : QString) : bool :=
  match s with [] => true | _ => false end.

(** [QChar::isSpace]: U+0020, U+0009..U+000D, U+0085, U+00A0 and the
    Unicode separators (categories Zs, Zl, Zp). *)
Definition isSpace (c : N) : bool :=
  ((c =? 0x20) || ((0x09 <=? c) && (c <=? 0x0d))
   || ((127 <? c)
       && ((c =? 0x85) || (c =? 0xa0) || (c =? 0x1680)
           || ((0x2000 <=? c) && (c <=? 0x200a))
           || (c =? 0x2028) || (c =? 0x2029) || (c =? 0x202f)
           || (c =? 0x205f) || (c =? 0x3000))))%N.

Fixpoint drop_space (s : QString) : QString :=
  match s with
  | c :: s' => if isSpace c then drop_space s' else s
  | [] => []
  end.

(** [QString::trimmed]: whitespace removed from the start and the end. *)
Definition trimmed (s : QString) : QString :=
  reverse (drop_space (reverse (drop_space s))).

(** ** The world the wrapper runs in *)

Inductive Event : Type :=
| SoftAssertFailed (expr : string)          (* a failed SOFT_ASSERT, logged *)
| CallPixReadMemBmp
| CallPixConvertRGBToGray (src : nat)
| CallPixScale (src : nat) (sx sy : double)
| CallPixDestroy (a : nat)
| CallInit (datapath language : QString)
| CallSetImage (a : nat)
| CallGetUTF8Text
| CallClear.

Record World : Type := mkWorld {
  live : gset nat;       (* buffers created and not yet destroyed *)
  freeMemory : Z;        (* what the probe [getFreeMemory] reports, a qint64 *)
  trace : list Event     (* calls made so far, oldest first *)
}.

(** State passing: a computation maps the world before to a result and
    the world after. *)
Definition M (A : Type) : Type := World → A * World.

#[export] Instance M_ret : MRet M := λ A (x : A) (w : World), (x, w).
#[export] Instance M_bind : MBind M :=
  λ A B (f : A → M B) (m : M A) (w : World), let '(a, w') := m w in f a w'.

Definition emit (e : Event) : M unit :=
  λ w, (tt, mkWorld (live w) (freeMemory w) (trace w ++ [e])).

Definition getFreeMemory : M Z := λ w, (freeMemory w, w).

(** A library call that creates a buffer: [None] is a NULL result, a
    header is stored at an address not in use. *)
Definition new_pix (r : option Pix) : M PixPtr :=
  λ w, match r with
       | None => (nullptr, w)
       | Some p =>
           let a := fresh (live w) in
           (Some (mkRef a p),
            mkWorld ({[a]} ∪ live w) (freeMemory w) (trace w))
       end.

(** The buffer at [a] is freed. *)
Definition release (a : nat) : M unit :=
  λ w, (tt, mkWorld (live w ∖ {[a]}) (freeMemory w) (trace w)).

(** [pixDestroy(&p)]: nothing on NULL; the buffers of the wrapper are
    never cloned, so the one reference is the last and the buffer is
    freed. *)
Definition pixDestroy (p : PixPtr) : M unit :=
  match p with
  | None => mret tt
  | Some r => _ ← emit (CallPixDestroy (addr r)); release (addr r)
  end.

(** Modelled from the spec: the macro SOFT_ASSERT of debug.h, which is
    not among the sources. In the soft mode of production builds a failed
    assertion is logged and the action (a return) is executed. *)
Definition SOFT_ASSERT {A : Type} (cond : bool) (expr : string)
    (action : M A) (continue : M A) : M A :=
  if cond then continue
  else (_ ← emit (SoftAssertFailed expr); action).

(** ** The external libraries *)

Record Library (QImage : Type) : Type := mkLibrary {
  (* image.save(&buffer, "BMP") followed by pixReadMemBmp *)
  lib_readBmp : QImage → option Pix;
  (* pixConvertRGBToGray(pix, 0.0, 0.0, 0.0) *)
  lib_rgbToGray : Pix → option Pix;
  (* pixScale(pix, sx, sy) *)
  lib_scale : Pix → double → double → option Pix;
  (* TessBaseAPI::Init(datapath, language, OEM_DEFAULT) *)
  lib_init : QString → QString → Z;
  (* TessBaseAPI::GetUTF8Text() for the image set, read as a QString *)
  lib_text : Pix → QString;
  (* LanguageCodes::tesseract *)
  lib_tesseractName : QString → QString;
  (* QObject::tr *)
  lib_tr : string → QString
}.

Arguments lib_readBmp {QImage} _ _.
Arguments lib_rgbToGray {QImage} _ _.
Arguments lib_scale {QImage} _ _ _ _.
Arguments lib_init {QImage} _ _ _.
Arguments lib_text {QImage} _ _.
Arguments lib_tesseractName {QImage} _ _.
Arguments lib_tr {QImage} _ _.

(** ** The data of the session class *)

(** The engine object behind [std::unique_ptr<tesseract::TessBaseAPI>]. *)
Inductive TessBaseAPI : Type := TessApi.

Record Tesseract : Type := mkTesseract {
  engine_ : option TessBaseAPI;
  error_ : QString
}.

Record QPixmap (QImage : Type) : Type := mkPixmap {
  isNull : bool;
  toImage : QImage
}.

Arguments mkPixmap {QImage} _ _.
Arguments isNull {QImage} _.
Arguments toImage {QImage} _.

Section Ocr.

Context {QImage : Type} (lib : Library QImage).

(** [static Pix *convertImage(const QImage &image)] *)
Definition convertImage (image : QImage) : M PixPtr :=
  _ ← emit CallPixReadMemBmp;
  new_pix (lib_readBmp lib image).

Definition pixConvertRGBToGray (pix : PixPtr) : M PixPtr :=
  match pix with
  | None => mret nullptr
  | Some r =>
      _ ← emit (CallPixConvertRGBToGray (addr r));
      new_pix (lib_rgbToGray lib (obj r))
  end.

Definition pixScale (pix : PixPtr) (sx sy : double) : M PixPtr :=
  match pix with
  | None => mret nullptr
  | Some r =>
      _ ← emit (CallPixScale (addr r) sx sy);
      new_pix (lib_scale lib (obj r) sx sy)
  end.

(** [static double getScale(Pix *source)] *)
Definition getScale (source : PixPtr) : M double :=
  SOFT_ASSERT (non_null source) "source" (mret (Fin (-1))) (
  match source with
  | None => mret (Fin (-1))
  | Some src =>
      let xRes := pix_xres (obj src) in
      let yRes := pix_yres (obj src) in
      if wrap_int32 (xRes * yRes) =? 0 then mret (Fin (-1)) else
      let preferredScale :=
        std_max (div (Fin 500) (of_Z (Z.min xRes yRes))) (Fin 1) in
      if leb preferredScale (Fin 1) then mret (Fin (-1)) else
      let maxScaleX := div (of_Z INT_MAX) (of_N (pix_w (obj src))) in
      let scaleX := std_min preferredScale maxScaleX in
      let maxScaleY := div (of_Z INT_MAX) (of_N (pix_h (obj src))) in
      let scaleY := std_min preferredScale maxScaleY in
      let scale := std_min scaleX scaleY in
      free ← getFreeMemory;
      let availableMemory := mul (of_Z free) (literal 0.95) in
      if ltb availableMemory (Fin 1) then mret (Fin (-1)) else
      let actualSize :=
        (wrap_uint32 (wrap_uint32 (pix_w (obj src) * pix_h (obj src))
                      * pix_d (obj src)) / 8)%N in
      let maxScaleMemory := div availableMemory (of_N actualSize) in
      let scale := std_min scale maxScaleMemory in
      mret scale
  end).

(** [static Pix *prepareImage(const QImage &image)] *)
Definition prepareImage (image : QImage) : M PixPtr :=
  pix ← convertImage image;
  SOFT_ASSERT (non_null pix) "pix" (mret nullptr) (
  gray ← pixConvertRGBToGray pix;
  SOFT_ASSERT (non_null gray) "gray" (mret nullptr) (
  _ ← pixDestroy pix;
  let scaleSource := gray in
  let scaled := scaleSource in
  scale ← getScale scaleSource;
  scaled ← (if ltb (Fin 1) scale then
              scaled ← pixScale scaleSource scale scale;
              mret (if non_null scaled then scaled else scaleSource)
            else mret scaled);
  _ ← (if ptr_neq scaled scaleSource then pixDestroy scaleSource
       else mret tt);
  mret scaled)).

(** [static void cleanupImage(Pix **image)] *)
Definition cleanupImage (image : PixPtr) : M unit := pixDestroy image.

(** *** The session class [Tesseract] *)

(** [bool Tesseract::isValid() const] *)
Definition isValid (self : Tesseract) : bool :=
  match engine_ self with Some _ => true | None => false end.

(** [const QString &Tesseract::error() const] *)
Definition error (self : Tesseract) : QString := error_ self.

(** [void Tesseract::init(const LanguageId &, const QString &)] *)
Definition init (self : Tesseract) (language tessdataPath : QString)
    : M Tesseract :=
  SOFT_ASSERT (negb (isValid self)) "!engine_" (mret self) (
  let self := mkTesseract (Some TessApi) (error_ self) in
  let tesseractName := lib_tesseractName lib language in
  _ ← emit (CallInit tessdataPath tesseractName);
  let result := lib_init lib tessdataPath tesseractName in
  if result =? 0 then mret self else
  let self := mkTesseract (engine_ self) (lib_tr lib "init failed") in
  let self := mkTesseract None (error_ self) in
  mret self).

(** [Tesseract::Tesseract(const LanguageId &, const QString &)]: the
    members start as a null engine and an empty error. *)
Definition Tesseract_new (language tessdataPath : QString) : M Tesseract :=
  let self := mkTesseract None [] in
  SOFT_ASSERT (negb (isEmpty tessdataPath)) "!tessdataPath.isEmpty()"
    (mret self) (
  SOFT_ASSERT (negb (isEmpty language)) "!language.isEmpty()"
    (mret self) (
  init self language tessdataPath)).

(** [QString Tesseract::recognize(const QPixmap &source)]: the result is
    the returned text and the object after the call. *)
Definition recognize (self : Tesseract) (source : QPixmap QImage)
    : M (QString * Tesseract) :=
  SOFT_ASSERT (isValid self) "engine_" (mret ([], self)) (
  SOFT_ASSERT (negb (isNull source)) "!source.isNull()" (mret ([], self)) (
  let self := mkTesseract (engine_ self) [] in
  image ← prepareImage (toImage source);
  SOFT_ASSERT (non_null image) "image" (mret ([], self)) (
  match image with
  | None => mret ([], self)
  | Some img =>
      _ ← emit (CallSetImage (addr img));
      _ ← emit CallGetUTF8Text;
      let outText := lib_text lib (obj img) in
      _ ← emit CallClear;
      _ ← cleanupImage image;
      let result := trimmed outText in
      let self :=
        if isEmpty result
        then mkTesseract (engine_ self)
               (lib_tr lib "Failed to recognize text or no text selected")
        else self in
      mret (result, self)
  end))).

End Ocr.

(** ** The footprint of a buffer *)

(** [source->w * source->h * source->d / 8] of [getScale], in the 32-bit
    unsigned arithmetic of [l_uint32]. *)
Definition footprint (p : Pix) : N :=
  (wrap_uint32 (wrap_uint32 (pix_w p * pix_h p) * pix_d p) / 8)%N.

(** ** Two calls in a row *)

(** The width, height and depth of a result. *)
Definition final_header (r : PixPtr) : option (N * N * N) :=
  (λ r, (pix_w (obj r), pix_h (obj r), pix_d (obj r))) <$> r.

(** The free memory of the host changes: the probe reads [free] from
    now on. *)
Definition probe_reads (free : Z) : M unit :=
  λ w, (tt, mkWorld (live w) free (trace w)).

(** [prepareImage] called twice on one image; the probe reads [free]
    during the second call. *)
Definition prepare_twice {QImage : Type} (lib : Library QImage)
    (image : QImage) (free : Z) : M (PixPtr * PixPtr) :=
  first ← prepareImage lib image;
  _ ← probe_reads free;
  second ← prepareImage lib image;
  mret (first, second).

(** [recognize] called on [first], then on [second], by one session. *)
Definition recognize_twice {QImage : Type} (lib : Library QImage)
    (self : Tesseract) (first second : QPixmap QImage)
    : M (QString * Tesseract) :=
  r ← recognize lib self first;
  recognize lib r.2 second.

(** [recognize] called on each pixmap of a list in turn, by one session:
    the texts returned and the session after the last call. *)
Fixpoint recognize_all {QImage : Type} (lib : Library QImage)
    (self : Tesseract) (sources : list (QPixmap QImage))
    : M (list QString * Tesseract) :=
  match sources with
  | [] => mret ([], self)
  | source :: rest =>
      r ← recognize lib self source;
      rs ← recognize_all lib r.2 rest;
      mret (r.1 :: rs.1, rs.2)
  end.

(** ** What Leptonica promises about headers *)

(** A dimension [n] scaled by [s]: Leptonica rounds to the nearest pixel,
    [(l_int32)(s * n + 0.5)]. *)
Definition scaled_dimension (n : Z) (s : Q) : Z :=
  Qfloor (s * inject_Z n + (1 # 2))%Q.

(** Modelled from the spec: the headers of the buffers Leptonica returns,
    which the repository does not contain (4.3: the grayscale buffer is a
    single 8-bit channel of the image; the scaled buffer is the grayscale
    buffer at the scale of each axis). *)
Record Leptonica {QImage : Type} (lib : Library QImage) : Prop := {
  gray_header : ∀ p g : Pix,
    lib_rgbToGray lib p = Some g →
    g = mkPix (pix_w p) (pix_h p) 8 (pix_xres p) (pix_yres p);
  scale_header : ∀ (p r : Pix) (sx sy : Q),
    pix_d p = 8%N →
    lib_scale lib p (Fin sx) (Fin sy) = Some r →
    pix_w r = Z.to_N (scaled_dimension (Z.of_N (pix_w p)) sx) ∧
    pix_h r = Z.to_N (scaled_dimension (Z.of_N (pix_h p)) sy) ∧
    pix_d r = 8%N
}.

(** ** A reference environment *)

(** Modelled from the spec: the outcomes of the external libraries, which
    are not part of the repository, as the specification describes them
    (4.1 to 4.4): a captured image is given by the header its BMP encoding
    decodes to, and decoding fails on an empty image; the grayscale
    conversion takes a 32-bit buffer to one 8-bit channel of the same
    dimensions and density; scaling multiplies each dimension by the
    factor of its axis and rounds to the nearest pixel; the engine
    initialises for the language [eng] only and extracts a fixed text. *)
Module Reference.

Definition readBmp (image : Pix) : option Pix :=
  if ((pix_w image =? 0) || (pix_h image =? 0))%N then None else Some image.

Definition rgbToGray (p : Pix) : option Pix :=
  if (pix_d p =? 32)%N
  then Some (mkPix (pix_w p) (pix_h p) 8 (pix_xres p) (pix_yres p))
  else None.

Definition scale (p : Pix) (sx sy : double) : option Pix :=
  match sx, sy with
  | Fin x, Fin y =>
      if Qltb 0 x && Qltb 0 y
      then Some (mkPix (Z.to_N (scaled_dimension (Z.of_N (pix_w p)) x))
                       (Z.to_N (scaled_dimension (Z.of_N (pix_h p)) y))
                       (pix_d p)
                       (scaled_dimension (pix_xres p) x)
                       (scaled_dimension (pix_yres p) y))
      else None
  | _, _ => None
  end.

Definition engine_init (datapath language : QString) : Z :=
  if bool_decide (language = qstr "eng") then 0 else -1.

Definition library (text : QString) : Library Pix :=
  mkLibrary Pix readBmp rgbToGray scale engine_init (λ _, text)
            (λ language, language) qstr.

(** The world before the first call: no buffer, nothing logged. *)
Definition world (free : Z) : World := mkWorld ∅ free [].

(** Scenario A: 1000 x 800, 32 bits per pixel, density 100 on both axes. *)
Definition imageA : Pix := mkPix 1000 800 32 100 100.

(** An 8-bit indexed bitmap: Leptonica decodes it to an 8-bit buffer. *)
Definition imageIndexed : Pix := mkPix 1000 800 8 100 100.

(** Scenario B: density unknown on the horizontal axis. *)
Definition imageB : Pix := mkPix 1000 800 32 0 100.

Definition GiB : Z := 2 ^ 30.

End Reference.

(** ** The probe on Linux: /proc/meminfo *)

(** [getFreeMemory] as it is compiled on Linux (an LP64 system:
    [unsigned long] and [qint64] have 64 bits). The stream extractions
    are those of the C++ library in the classic locale. *)
Module Linux.

(** A [std::ifstream]: the characters not yet extracted and the fail
    bit. The end-of-file bit has no field of its own: it is set when an
    extraction has reached the end, and then no character is left, so the
    next extraction fails as it does below on an empty stream. *)
Record ifstream : Type := mkStream {
  chars : list ascii;
  failbit : bool
}.

(** [std::ifstream file(path)]: [None] is a file that cannot be opened,
    which leaves the fail bit set. *)
Definition open (contents : option (list ascii)) : ifstream :=
  match contents with
  | Some s => mkStream s false
  | None => mkStream [] true
  end.

(** [isspace] in the classic locale: the blank and \t \n \v \f \r. *)
Definition isspace (c : ascii) : bool :=
  let n := N_of_ascii c in ((n =? 32) || ((9 <=? n) && (n <=? 13)))%N.

Definition isdigit (c : ascii) : bool :=
  let n := N_of_ascii c in ((48 <=? n) && (n <=? 57))%N.

(** The whitespace an extraction skips first. *)
Fixpoint skipws (s : list ascii) : list ascii :=
  match s with
  | c :: s' => if isspace c then skipws s' else s
  | [] => []
  end.

(** The longest prefix whose characters satisfy [p], and what follows. *)
Fixpoint span (p : ascii → bool) (s : list ascii) : list ascii * list ascii :=
  match s with
  | c :: s' =>
      if p c then let '(t, r) := span p s' in (c :: t, r) else ([], s)
  | [] => ([], [])
  end.

(** [file >> token] for a [std::string]: fails on a stream that has
    failed; skips whitespace; stores the characters up to the next
    whitespace or the end; fails when there is none. *)
Definition extract_string (file : ifstream)
    : option (list ascii) * ifstream :=
  if failbit file then (None, file) else
  match span (λ c, negb (isspace c)) (skipws (chars file)) with
  | ([], r) => (None, mkStream r true)
  | (token, r) => (Some token, mkStream r false)
  end.

Definition ULONG_MAX : N := 2 ^ 64 - 1.

(** The value of a sequence of decimal digits. *)
Definition decimal (ds : list ascii) : N :=
  fold_left (λ acc c, 10 * acc + (N_of_ascii c - 48))%N ds 0%N.

(** [file >> mem] for an [unsigned long]: fails on a stream that has
    failed; skips whitespace; reads an optional sign and the decimal
    digits that follow; fails when there is no digit and when the digits
    denote more than [ULONG_MAX]; a value with a minus sign is negated
    modulo 2^64. The result is the value stored when the extraction
    succeeds. *)
Definition extract_ulong (file : ifstream) : option N * ifstream :=
  if failbit file then (None, file) else
  let s := skipws (chars file) in
  let '(negative, s) :=
    match s with
    | c :: s' =>
        if Ascii.eqb c "-" then (true, s')
        else if Ascii.eqb c "+" then (false, s')
        else (false, s)
    | [] => (false, s)
    end in
  match span isdigit s with
  | ([], r) => (None, mkStream r true)
  | (ds, r) =>
      let v := decimal ds in
      if (ULONG_MAX <? v)%N then (None, mkStream r true)
      else (Some (if negative then (2 ^ 64 - v) mod 2 ^ 64 else v)%N,
            mkStream r false)
  end.

(** The value of a [qint64] expression whose exact value is [z]. *)
Definition wrap_int64 (z : Z) : Z := (z + 2 ^ 63) mod 2 ^ 64 - 2 ^ 63.

(** [token == "MemFree:" || token == "Buffers:" || token == "Cached:"] *)
Definition is_key (token : list ascii) : bool :=
  bool_decide (token = list_ascii_of_string "MemFree:")
  || bool_decide (token = list_ascii_of_string "Buffers:")
  || bool_decide (token = list_ascii_of_string "Cached:").

(** The [while] loop, at most [fuel] rounds of it: [None] when the
    rounds do not suffice. [freeMem += (file >> mem) ? mem : 0] adds an
    [unsigned long] to a [qint64] in 64-bit arithmetic. *)
Fixpoint read (fuel : nat) (file : ifstream) (freeMem : Z) : option Z :=
  match fuel with
  | O => None
  | S fuel =>
      match extract_string file with
      | (None, _) => Some freeMem
      | (Some token, file) =>
          if is_key token then
            let '(mem, file) := extract_ulong file in
            read fuel file (wrap_int64 (freeMem + from_option Z.of_N 0 mem))
          else read fuel file freeMem
      end
  end.

(** [getFreeMemory()]: one round more than the file has characters is
    enough for every file ([read_total] below). *)
Definition getFreeMemory (contents : option (list ascii)) : option Z :=
  let file := open contents in
  freeMem ← read (S (length (chars file))) file 0;
  Some (wrap_int64 (freeMem * 1024)).

(** *** The files the kernel writes *)

(** The words of a text: its longest runs of characters that are not
    whitespace, in order. *)
Fixpoint words (s : list ascii) : list (list ascii) :=
  match s with
  | [] => []
  | c :: s' =>
      if isspace c then words s'
      else match s' with
           | [] => [[c]]
           | c' :: _ =>
               if isspace c' then [c] :: words s'
               else match words s' with
                    | w :: ws => (c :: w) :: ws
                    | [] => [[c]]
                    end
           end
  end.

(** The characters of a decimal numeral, and the numeral of a number
    (no leading zero, "0" for zero). *)
Definition numeral (d : Decimal.uint) : list ascii :=
  list_ascii_of_string (DecimalString.NilEmpty.string_of_uint d).

Definition decimal_string (v : N) : list ascii :=
  numeral (N.to_uint v).

(** A line of /proc/meminfo: the name, a colon, one blank or more, the
    value in decimal, the unit and a newline. *)
Definition meminfo_line (e : string * nat * N) : list ascii :=
  let '(name, pad, v) := e in
  list_ascii_of_string name ++ ":"%char :: replicate (S pad) " "%char
    ++ decimal_string v ++ list_ascii_of_string " kB" ++ ["010"%char].

Definition meminfo (entries : list (string * nat * N)) : list ascii :=
  concat (meminfo_line <$> entries).

(** What a line counts for: its value when it is one of the three
    lines the probe looks for. *)
Definition counted (e : string * nat * N) : Z :=
  let '(name, _, v) := e in
  if bool_decide (name ∈ ["MemFree"; "Buffers"; "Cached"]%string)
  then Z.of_N v else 0.

Definition total (entries : list (string * nat * N)) : Z :=
  foldr (λ e acc, counted e + acc) 0 entries.

End Linux.

(** ** Qt strings and directories *)

Module Qt.

(** [QString::indexOf] for a pattern of one character: the position of
    its first occurrence, -1 when there is none. *)
Fixpoint indexOf (s : QString) (c : N) : Z :=
  match s with
  | [] => -1
  | x :: s' =>
      if (x =? c)%N then 0
      else let i := indexOf s' c in if i <? 0 then -1 else i + 1
  end.

(** [QString::left(n)]: the [n] leftmost characters, and the entire
    string when [n] is negative or not less than the size. *)
Definition left (s : QString) (n : Z) : QString :=
  if (n <? 0) || (Z.of_nat (length s) <=? n) then s
  else take (Z.to_nat n) s.

End Qt.

(** [operator<] on [QString]: the order of the dictionary on the
    sequences of code units. *)
Fixpoint QString_lt (a b : QString) : bool :=
  match a, b with
  | _, [] => false
  | [], _ :: _ => true
  | x :: a', y :: b' => (x <? y)%N || ((x =? y)%N && QString_lt a' b')
  end.

(** [!(b < a)] *)
Definition QString_le (a b : QString) : Prop := QString_lt b a = false.

#[export] Instance QString_le_dec : RelDecision QString_le :=
  λ a b, decide (QString_lt b a = false).

(** [std::sort] on a [QStringList]: the sorted list is unique, since two
    strings of which neither is less than the other are equal; a merge
    sort computes it. *)
Definition std_sort (l : list QString) : list QString :=
  merge_sort QString_le l.

(** What the program asks of the file system and of the table of
    languages (languagecodes.h, which is not among the sources). *)
Record Host : Type := mkHost {
  (* QDir(path).exists() *)
  dir_exists : QString → bool;
  (* QDir(path).entryList({filter}, QDir::Files) *)
  dir_entryList : QString → QString → list QString;
  (* LanguageCodes::idForTesseract *)
  idForTesseract : QString → QString;
  (* LanguageCodes::name *)
  languageName : QString → QString;
  (* LanguageCodes::findByTesseract: the name of the bundle found *)
  findByTesseract : QString → option QString;
  (* LanguageCodes::all: the fields iso639_1 and name of the bundles, in
     the order of the iteration *)
  all_languages : list (QString * QString)
}.

(** ** [Tesseract::availableLanguageNames] *)

Definition availableLanguageNames (host : Host) (path : QString)
    : list QString :=
  if isEmpty path then [] else
  if negb (dir_exists host path) then [] else
  let files := dir_entryList host path (qstr "*.traineddata") in
  let names :=
    fold_left
      (λ names file,
         let lang := Qt.left file (Qt.indexOf file 46%N) in
         let name := languageName host (idForTesseract host lang) in
         names ++ [name])
      files [] in
  match names with
  | [] => []
  | _ => names
  end.

(** ** The lists of the settings editor (src/settingseditor.cpp) *)

(** An item of the list widget [translatorList]: its text and whether
    its check state is [Qt::Checked]. *)
Record Item : Type := mkItem {
  item_text : QString;
  item_checked : bool
}.

(** The widgets of the form that the functions below touch: the text of
    the line edit, the items of the combo boxes and of the list widget.
    A combo box and a list widget keep their items in the order in which
    they were added. *)
Record Ui : Type := mkUi {
  tessdataEdit : QString;
  tesseractLangCombo : list QString;
  correctLangCombo : list QString;
  translateLangCombo : list QString;
  translatorList : list Item
}.

(** [SettingsEditor::updateTesseractLanguages] *)
Definition updateTesseractLanguages (host : Host) (ui : Ui) : Ui :=
  let ui := mkUi (tessdataEdit ui) [] [] (translateLangCombo ui)
              (translatorList ui) in
  if negb (dir_exists host (tessdataEdit ui)) then ui else
  let files :=
    dir_entryList host (tessdataEdit ui) (qstr "*.traineddata") in
  let names :=
    fold_left
      (λ names file,
         let lang := Qt.left file (Qt.indexOf file 46%N) in
         match findByTesseract host lang with
         | Some name => names ++ [name]
         | None => names
         end)
      files [] in
  match names with
  | [] => ui
  | _ =>
      let names := std_sort names in
      mkUi (tessdataEdit ui) (tesseractLangCombo ui ++ names)
        (correctLangCombo ui ++ names) (translateLangCombo ui)
        (translatorList ui)
  end.

(** [SettingsEditor::updateTranslators] *)
Definition updateTranslators (host : Host) (path : QString)
    (enabled : list QString) (ui : Ui) : Ui :=
  let ui := mkUi (tessdataEdit ui) (tesseractLangCombo ui)
              (correctLangCombo ui) (translateLangCombo ui) [] in
  if negb (dir_exists host path) then ui else
  let files := std_sort (dir_entryList host path (qstr "*.js")) in
  let items := translatorList ui ++ ((λ f, mkItem f false) <$> files) in
  mkUi (tessdataEdit ui) (tesseractLangCombo ui) (correctLangCombo ui)
    (translateLangCombo ui)
    ((λ item, mkItem (item_text item)
                (bool_decide (item_text item ∈ enabled))) <$> items).

(** [SettingsEditor::updateTranslationLanguages] *)
Definition updateTranslationLanguages (host : Host) (ui : Ui) : Ui :=
  let names :=
    fold_left
      (λ names bundle,
         if negb (isEmpty bundle.1) then names ++ [bundle.2] else names)
      (all_languages host) [] in
  let ui := mkUi (tessdataEdit ui) (tesseractLangCombo ui)
              (correctLangCombo ui) [] (translatorList ui) in
  let names := std_sort names in
  mkUi (tessdataEdit ui) (tesseractLangCombo ui) (correctLangCombo ui)
    (translateLangCombo ui ++ names) (translatorList ui).

(** The field [translators] of what [SettingsEditor::settings] returns. *)
Definition settings_translators (ui : Ui) : list QString :=
  fold_left
    (λ translators item,
       if item_checked item then translators ++ [item_text item]
       else translators)
    (translatorList ui) [].

(** Two hosts for the examples: one directory, with the data of two
    languages and three translators; the second host lists the files and
    the languages in the opposite order. *)
Module ReferenceHost.

Definition files (filter : QString) : list QString :=
  if bool_decide (filter = qstr "*.traineddata")
  then [qstr "chi_sim.traineddata"; qstr "eng.traineddata"]
  else [qstr "yandex.js"; qstr "bing.js"; qstr "google.js"].

Definition lookup (lang : QString) : option QString :=
  if bool_decide (lang = qstr "eng") then Some (qstr "English")
  else if bool_decide (lang = qstr "chi_sim") then Some (qstr "Chinese")
  else None.

Definition bundles : list (QString * QString) :=
  [(qstr "ru", qstr "Russian"); ([], qstr "Ancient Greek");
   (qstr "en", qstr "English")].

Definition host : Host :=
  mkHost
    (λ path, bool_decide (path = qstr "/data"))
    (λ path filter, files filter)
    (λ lang, lang)
    (λ id, qstr "language " ++ id)
    lookup
    bundles.

Definition host_reversed : Host :=
  mkHost
    (λ path, bool_decide (path = qstr "/data"))
    (λ path filter, reverse (files filter))
    (λ lang, lang)
    (λ id, qstr "language " ++ id)
    lookup
    (reverse bundles).

End ReferenceHost.

(** * Properties *)

(** ** Rounding to the nearest double *)

Module RoundFacts.

Local Open Scope Q_scope.

Lemma pow2_pos (e : Z) : 0 < 2 ^ e.
Proof. apply Qpower_0_lt. reflexivity. Qed.

Lemma pow2_plus (a b : Z) : 2 ^ (a + b) == 2 ^ a * 2 ^ b.
Proof. apply Qpower_plus. discriminate. Qed.

Lemma pow2_le (a b : Z) : (a <= b)%Z -> 2 ^ a <= 2 ^ b.
Proof. intros H. apply Qpower_le_compat_l; [exact H | discriminate]. Qed.

Lemma pow2_Z (n : Z) : (0 <= n)%Z -> inject_Z (2 ^ n) == 2 ^ n.
Proof. intros H. apply (Zpower_Qpower 2 n H). Qed.

Lemma Zlog2_Q (n : Z) :
  (0 < n)%Z -> 2 ^ Z.log2 n <= inject_Z n /\ inject_Z n < 2 ^ (Z.log2 n + 1).
Proof.
  intros Hn. destruct (Z.log2_spec n Hn) as [Hlo Hhi].
  pose proof (Z.log2_nonneg n) as Hnn.
  rewrite <- !pow2_Z by lia. rewrite <- Zle_Qle, <- Zlt_Qlt.
  replace (Z.log2 n + 1)%Z with (Z.succ (Z.log2 n)) by lia. auto.
Qed.

Lemma Qlog2_spec (q : Q) :
  0 < q -> 2 ^ Qlog2 q <= q /\ q < 2 ^ (Qlog2 q + 1).
Proof.
  intros Hq. unfold Qlog2.
  set (a := Z.log2 (Qnum q)). set (b := Z.log2 (Z.pos (Qden q))).
  assert (Hn : (0 < Qnum q)%Z).
  { destruct q as [n d]. unfold Qlt in Hq. simpl in *. lia. }
  destruct (Zlog2_Q (Qnum q) Hn) as [Ha1 Ha2]. fold a in Ha1, Ha2.
  destruct (Zlog2_Q (Z.pos (Qden q)) eq_refl) as [Hb1 Hb2]. fold b in Hb1, Hb2.
  assert (Hqd : q == inject_Z (Qnum q) / inject_Z (Z.pos (Qden q))).
  { rewrite <- (Qmake_Qdiv (Qnum q) (Qden q)). destruct q; reflexivity. }
  pose proof (pow2_pos a) as Hpa. pose proof (pow2_pos b) as Hpb.
  assert (Hd : 0 < inject_Z (Z.pos (Qden q))) by reflexivity.
  assert (Hlow : 2 ^ (a - b - 1) <= q).
  { rewrite Hqd. apply Qle_shift_div_l; [exact Hd|].
    replace (a - b - 1)%Z with (a + - (b + 1))%Z by lia.
    rewrite pow2_plus, Qpower_opp.
    apply Qle_trans with (2 ^ a * / 2 ^ (b + 1) * 2 ^ (b + 1)).
    - apply Qmult_le_l; [|apply Qlt_le_weak, Hb2].
      apply Qmult_lt_0_compat; [exact Hpa|]. apply Qinv_lt_0_compat, pow2_pos.
    - rewrite <- Qmult_assoc, (Qmult_comm (/ _)), Qmult_inv_r, Qmult_1_r.
      + exact Ha1.
      + pose proof (pow2_pos (b + 1)). lra. }
  assert (Hhigh : q < 2 ^ (a - b + 1)).
  { rewrite Hqd. apply Qlt_shift_div_r; [exact Hd|].
    replace (a - b + 1)%Z with (a + 1 + - b)%Z by lia.
    rewrite pow2_plus, Qpower_opp.
    apply Qlt_le_trans with (2 ^ (a + 1)); [exact Ha2|].
    apply Qle_trans with (2 ^ (a + 1) * / 2 ^ b * 2 ^ b).
    - rewrite <- Qmult_assoc, (Qmult_comm (/ _)), Qmult_inv_r, Qmult_1_r.
      + apply Qle_refl.
      + lra.
    - apply Qmult_le_l; [|exact Hb1].
      apply Qmult_lt_0_compat; [apply pow2_pos|]. apply Qinv_lt_0_compat, Hpb. }
  destruct (Qle_bool (2 ^ (a - b)) q) eqn:E.
  - apply Qle_bool_iff in E. split; [exact E | exact Hhigh].
  - split; [exact Hlow|]. replace (a - b - 1 + 1)%Z with (a - b)%Z by lia.
    apply Qnot_le_lt. intros H. apply Qle_bool_iff in H. congruence.
Qed.

Lemma Qlog2_mono (x y : Q) : 0 < x -> x <= y -> (Qlog2 x <= Qlog2 y)%Z.
Proof.
  intros Hx Hxy.
  destruct (Qlog2_spec x Hx) as [Hx1 _].
  destruct (Qlog2_spec y) as [_ Hy2]; [lra|].
  destruct (Z_le_gt_dec (Qlog2 x) (Qlog2 y)) as [H|H]; [exact H|].
  assert (Hp : 2 ^ (Qlog2 y + 1) <= 2 ^ Qlog2 x) by (apply pow2_le; lia).
  lra.
Qed.

Lemma Qlog2_unique (q : Q) (k : Z) :
  2 ^ k <= q -> q < 2 ^ (k + 1) -> Qlog2 q = k.
Proof.
  intros H1 H2. pose proof (pow2_pos k) as Hk.
  destruct (Qlog2_spec q) as [Hq1 Hq2]; [lra|].
  destruct (Z.lt_trichotomy (Qlog2 q) k) as [H|[H|H]]; [|exact H|].
  - assert (2 ^ (Qlog2 q + 1) <= 2 ^ k) by (apply pow2_le; lia). lra.
  - assert (2 ^ (k + 1) <= 2 ^ Qlog2 q) by (apply pow2_le; lia). lra.
Qed.

Lemma rne_cases (x : Q) :
  rne x = Qfloor x \/ rne x = (Qfloor x + 1)%Z.
Proof.
  unfold rne. destruct (Qcompare _ _); [destruct (Z.even _)|..]; auto.
Qed.

Lemma rne_lower (x : Q) : x - (1 # 2) <= inject_Z (rne x).
Proof.
  unfold rne. pose proof (Qfloor_le x) as Hf. pose proof (Qlt_floor x) as Hl.
  rewrite inject_Z_plus in Hl. change (inject_Z 1) with 1 in Hl.
  destruct (Qcompare_spec (x - inject_Z (Qfloor x)) (1 # 2)) as [H|H|H].
  - destruct (Z.even _); [lra|].
    rewrite inject_Z_plus. change (inject_Z 1) with 1. lra.
  - lra.
  - rewrite inject_Z_plus. change (inject_Z 1) with 1. lra.
Qed.

Lemma rne_upper (x : Q) : inject_Z (rne x) <= x + (1 # 2).
Proof.
  unfold rne. pose proof (Qfloor_le x) as Hf. pose proof (Qlt_floor x) as Hl.
  rewrite inject_Z_plus in Hl. change (inject_Z 1) with 1 in Hl.
  destruct (Qcompare_spec (x - inject_Z (Qfloor x)) (1 # 2)) as [H|H|H].
  - destruct (Z.even _); [lra|].
    rewrite inject_Z_plus. change (inject_Z 1) with 1. lra.
  - lra.
  - rewrite inject_Z_plus. change (inject_Z 1) with 1. lra.
Qed.

Lemma rne_mono (x y : Q) : x <= y -> (rne x <= rne y)%Z.
Proof.
  intros Hxy. pose proof (Qfloor_resp_le x y Hxy) as Hf.
  destruct (Z.eq_dec (Qfloor x) (Qfloor y)) as [E|E].
  - unfold rne. rewrite E.
    destruct (Qcompare_spec (x - inject_Z (Qfloor y)) (1 # 2)) as [H|H|H];
      destruct (Qcompare_spec (y - inject_Z (Qfloor y)) (1 # 2)) as [H'|H'|H'];
      try destruct (Z.even _); try lia; exfalso; lra.
  - destruct (rne_cases x) as [-> | ->].
    + destruct (rne_cases y) as [-> | ->]; lia.
    + destruct (rne_cases y) as [-> | ->]; lia.
Qed.

Lemma rne_Z (z : Z) : rne (inject_Z z) = z.
Proof.
  unfold rne. rewrite Qfloor_Z.
  destruct (Qcompare_spec (inject_Z z - inject_Z z) (1 # 2)) as [H|H|H];
    [lra | reflexivity | lra].
Qed.

Lemma rne_comp (x y : Q) : x == y -> rne x = rne y.
Proof.
  intros H. apply Z.le_antisymm; apply rne_mono; lra.
Qed.

Lemma ulp_exponent_mono (x y : Q) :
  0 < x -> x <= y -> (ulp_exponent x <= ulp_exponent y)%Z.
Proof.
  intros Hx Hxy. unfold ulp_exponent.
  pose proof (Qlog2_mono x y Hx Hxy). lia.
Qed.

Lemma scaled_upper (x : Q) : 0 < x -> x / 2 ^ ulp_exponent x < 2 ^ 53.
Proof.
  intros Hx. destruct (Qlog2_spec x Hx) as [_ H2].
  apply Qlt_shift_div_r; [apply pow2_pos|].
  rewrite <- pow2_plus.
  apply Qlt_le_trans with (2 ^ (Qlog2 x + 1)); [exact H2|].
  apply pow2_le. unfold ulp_exponent. lia.
Qed.

Lemma scaled_lower (x : Q) :
  0 < x -> (-1074 < ulp_exponent x)%Z -> 2 ^ 52 <= x / 2 ^ ulp_exponent x.
Proof.
  intros Hx He. destruct (Qlog2_spec x Hx) as [H1 _].
  apply Qle_shift_div_l; [apply pow2_pos|].
  rewrite <- pow2_plus.
  apply Qle_trans with (2 ^ Qlog2 x); [|exact H1].
  apply pow2_le. unfold ulp_exponent in *. lia.
Qed.

Lemma round_pos_nonneg (x : Q) : 0 <= x -> 0 <= round_pos x.
Proof.
  intros Hx. unfold round_pos.
  apply Qmult_le_0_compat; [|apply Qlt_le_weak, pow2_pos].
  change 0 with (inject_Z 0). rewrite <- Zle_Qle.
  rewrite <- (rne_Z 0). apply rne_mono.
  apply Qle_shift_div_l; [apply pow2_pos|].
  change (inject_Z 0) with 0. lra.
Qed.

Lemma round_pos_mono (x y : Q) :
  0 < x -> x <= y -> round_pos x <= round_pos y.
Proof.
  intros Hx Hxy. assert (Hy : 0 < y) by lra.
  pose proof (ulp_exponent_mono x y Hx Hxy) as He.
  unfold round_pos.
  set (ex := ulp_exponent x) in *. set (ey := ulp_exponent y) in *.
  pose proof (pow2_pos ex) as Hpx. pose proof (pow2_pos ey) as Hpy.
  destruct (Z.eq_dec ex ey) as [E|E].
  - rewrite E. apply Qmult_le_compat_r; [|lra].
    rewrite <- Zle_Qle. apply rne_mono.
    apply Qmult_le_compat_r; [exact Hxy|].
    apply Qlt_le_weak, Qinv_lt_0_compat, Hpy.
  - assert (Hlt : (ex < ey)%Z) by lia.
    apply Qle_trans with (2 ^ 53 * 2 ^ ex).
    + apply Qmult_le_compat_r; [|lra].
      rewrite <- (pow2_Z 53) by lia. rewrite <- Zle_Qle.
      rewrite <- (rne_Z (2 ^ 53)). apply rne_mono.
      rewrite pow2_Z by lia. apply Qlt_le_weak. apply scaled_upper, Hx.
    + apply Qle_trans with (2 ^ 52 * 2 ^ ey).
      * rewrite <- !pow2_plus. apply pow2_le. lia.
      * apply Qmult_le_compat_r; [|lra].
        rewrite <- (pow2_Z 52) by lia. rewrite <- Zle_Qle.
        rewrite <- (rne_Z (2 ^ 52)). apply rne_mono.
        rewrite pow2_Z by lia. apply scaled_lower; [exact Hy|].
        subst ex ey. unfold ulp_exponent in *. lia.
Qed.

Lemma Qlog2_Z (z : Z) : (0 < z)%Z -> Qlog2 (inject_Z z) = Z.log2 z.
Proof.
  intros Hz. destruct (Zlog2_Q z Hz) as [H1 H2].
  apply Qlog2_unique; assumption.
Qed.

(** Integers below 2^53 are representable. *)
Lemma round_pos_Z (z : Z) :
  (0 < z < 2 ^ 53)%Z -> round_pos (inject_Z z) == inject_Z z.
Proof.
  intros Hz. unfold round_pos, ulp_exponent. rewrite Qlog2_Z by lia.
  assert (Hl : (0 <= Z.log2 z < 53)%Z).
  { split; [apply Z.log2_nonneg|]. apply Z.log2_lt_pow2; lia. }
  rewrite Z.max_l by lia.
  set (e := (Z.log2 z - 52)%Z).
  assert (He : inject_Z z / 2 ^ e == inject_Z (z * 2 ^ (- e))).
  { rewrite inject_Z_mult, pow2_Z by lia. rewrite Qpower_opp.
    unfold Qdiv. reflexivity. }
  rewrite (rne_comp _ _ He), rne_Z.
  rewrite inject_Z_mult, pow2_Z, Qpower_opp by lia.
  rewrite <- Qmult_assoc, (Qmult_comm (/ _)), Qmult_inv_r, Qmult_1_r;
    [reflexivity|].
  pose proof (pow2_pos e). lra.
Qed.

(** In the normal range the rounded value is within half a unit in the
    last place, hence within the factor 1 + 2^-53. *)
Lemma round_pos_error (x : Q) :
  0 < x -> (-1074 < ulp_exponent x)%Z ->
  round_pos x <= x * (1 + 2 ^ (-53)).
Proof.
  intros Hx He. pose proof (scaled_lower x Hx He) as Hlow.
  unfold round_pos. set (e := ulp_exponent x) in *.
  pose proof (pow2_pos e) as Hpe.
  pose proof (rne_upper (x / 2 ^ e)) as Hup.
  apply Qle_trans with ((x / 2 ^ e + (1 # 2)) * 2 ^ e).
  { apply Qmult_le_compat_r; [exact Hup | lra]. }
  assert (Hx' : x / 2 ^ e * 2 ^ e == x).
  { unfold Qdiv. rewrite <- Qmult_assoc, (Qmult_comm (/ _)), Qmult_inv_r;
      [ring | lra]. }
  assert (H2e : 2 ^ e <= x * 2 ^ (-52)).
  { apply Qle_trans with (x / 2 ^ e * 2 ^ (-52) * 2 ^ e).
    - apply Qle_trans with (2 ^ 52 * 2 ^ (-52) * 2 ^ e).
      + rewrite <- pow2_plus. change (2 ^ (52 + -52)) with 1. lra.
      + apply Qmult_le_compat_r; [|lra].
        apply Qmult_le_compat_r; [exact Hlow|]. apply Qlt_le_weak, pow2_pos.
    - rewrite <- Qmult_assoc, (Qmult_comm (2 ^ (-52))), Qmult_assoc, Hx'.
      apply Qle_refl. }
  assert (H53 : 2 ^ (-53) == (1 # 2) * 2 ^ (-52)) by reflexivity.
  rewrite H53. rewrite Qmult_plus_distr_l, Hx'.
  pose proof (pow2_pos (-52)). 
  rewrite Qmult_plus_distr_r. lra.
Qed.

End RoundFacts.

(** ** Agreement with the binary64 arithmetic of the machine *)

(** The operations of [Double] and the primitive floating-point
    operations of the kernel give the same numbers on the values that
    the scenarios below go through. *)
Module Binary64.

Import PrimFloat.

Example binary64_literal :
  Q_of_float 0x1.e666666666666p-1%float = Q_of_double (Double.literal 0.95).
Proof. vm_compute. reflexivity. Qed.

Example binary64_preferred_scale :
  Q_of_float (500 / 7)%float
  = Q_of_double (Double.div (Fin 500) (Double.of_Z 7)).
Proof. vm_compute. reflexivity. Qed.

Example binary64_axis_clamp :
  Q_of_float (2147483647 / 4295053)%float
  = Q_of_double (Double.div (Double.of_Z INT_MAX) (Double.of_N 4295053)).
Proof. vm_compute. reflexivity. Qed.

Example binary64_memory_bound :
  Q_of_float (2000000 * 0x1.e666666666666p-1 / 800000)%float
  = Q_of_double
      (Double.div (Double.mul (Double.of_Z 2000000) (Double.literal 0.95))
         (Double.of_N 800000)).
Proof. vm_compute. reflexivity. Qed.

End Binary64.

(** ** Order on [double] *)

Module DoubleFacts.

Import RoundFacts.

Local Open Scope Q_scope.

Lemma Qltb_lt x y : Qltb x y = true ↔ x < y.
Proof.
  unfold Qltb. rewrite negb_true_iff, <- not_true_iff_false, Qle_bool_iff.
  split; [apply Qnot_le_lt | apply Qlt_not_le].
Qed.

Lemma Qltb_ge x y : Qltb x y = false ↔ y <= x.
Proof. unfold Qltb. rewrite negb_false_iff. apply Qle_bool_iff. Qed.

Lemma Qle_bool_false x y : Qle_bool x y = false ↔ y < x.
Proof.
  rewrite <- not_true_iff_false, Qle_bool_iff.
  split; [apply Qnot_le_lt | apply Qlt_not_le].
Qed.

Lemma leb_Fin x y : leb (Fin x) (Fin y) = true ↔ x <= y.
Proof. apply Qle_bool_iff. Qed.

Lemma ltb_Fin x y : ltb (Fin x) (Fin y) = true ↔ x < y.
Proof. apply Qltb_lt. Qed.

Lemma leb_refl a : is_nan a = false → leb a a = true.
Proof. destruct a; try done. intros _. apply leb_Fin, Qle_refl. Qed.

Lemma leb_trans a b c : leb a b = true → leb b c = true → leb a c = true.
Proof.
  destruct a, b, c; try done. rewrite !leb_Fin. apply Qle_trans.
Qed.

Lemma leb_nan a b : leb a b = true → is_nan a = false ∧ is_nan b = false.
Proof. by destruct a, b. Qed.

Lemma ltb_leb a b : ltb a b = true → leb a b = true.
Proof.
  destruct a, b; try done. rewrite ltb_Fin, leb_Fin. apply Qlt_le_weak.
Qed.

Lemma not_ltb_leb a b :
  is_nan a = false → is_nan b = false → ltb b a = false → leb a b = true.
Proof.
  destruct a, b; try done. intros _ _. unfold ltb. rewrite Qltb_ge, leb_Fin.
  done.
Qed.

Lemma leb_not_ltb a b : leb a b = true → ltb b a = false.
Proof.
  destruct a, b; try done. rewrite leb_Fin. unfold ltb. by rewrite Qltb_ge.
Qed.

Lemma std_min_leb_l a b : is_nan a = false → leb (std_min a b) a = true.
Proof.
  intros Ha. unfold std_min. destruct (ltb b a) eqn:E.
  - by apply ltb_leb.
  - by apply leb_refl.
Qed.

Lemma std_min_leb_r a b :
  is_nan a = false → is_nan b = false → leb (std_min a b) b = true.
Proof.
  intros Ha Hb. unfold std_min. destruct (ltb b a) eqn:E.
  - by apply leb_refl.
  - by apply not_ltb_leb.
Qed.

Lemma std_min_nan a b :
  is_nan a = false → is_nan b = false → is_nan (std_min a b) = false.
Proof. intros Ha Hb. unfold std_min. by destruct (ltb b a). Qed.

(** The shape of a rounded value. *)

Lemma round_pos_eq q :
  0 < q →
  round q = if Qle_bool (2 ^ 1024) (round_pos q) then PInf
            else Fin (Qred (round_pos q)).
Proof. intros Hq. unfold round. by rewrite (proj1 (Qgt_alt q 0) Hq). Qed.

Lemma round_neg_eq q :
  q < 0 →
  round q = if Qle_bool (2 ^ 1024) (round_pos (- q)) then NInf
            else Fin (Qred (- round_pos (- q))).
Proof. intros Hq. unfold round. by rewrite (proj1 (Qlt_alt q 0) Hq). Qed.

Lemma round_zero q : q == 0 → round q = Fin 0.
Proof. intros Hq. unfold round. by rewrite (proj1 (Qeq_alt q 0) Hq). Qed.

Lemma is_nan_round q : is_nan (round q) = false.
Proof.
  unfold round. destruct (q ?= 0); [done|..]; by destruct (Qle_bool _ _).
Qed.

Lemma round_nonneg q : 0 <= q → leb (Fin 0) (round q) = true.
Proof.
  intros Hq. destruct (Qlt_le_dec 0 q) as [Hpos|Hzero].
  - rewrite round_pos_eq by done. destruct (Qle_bool _ _); [done|].
    apply leb_Fin. rewrite Qred_correct. apply round_pos_nonneg. lra.
  - rewrite round_zero by lra. by apply leb_Fin.
Qed.

Lemma round_nonpos q : q <= 0 → leb (round q) (Fin 0) = true.
Proof.
  intros Hq. destruct (Qlt_le_dec q 0) as [Hneg|Hzero].
  - rewrite round_neg_eq by done. destruct (Qle_bool _ _); [done|].
    apply leb_Fin. rewrite Qred_correct.
    assert (0 <= round_pos (- q)) by (apply round_pos_nonneg; lra). lra.
  - rewrite round_zero by lra. by apply leb_Fin.
Qed.

(** Rounding is monotone. *)
Lemma round_leb x y : x <= y → leb (round x) (round y) = true.
Proof.
  intros Hxy.
  destruct (Qlt_le_dec 0 x) as [Hx|Hx].
  - assert (Hy : 0 < y) by lra.
    pose proof (round_pos_mono x y Hx Hxy) as Hr.
    rewrite (round_pos_eq x), (round_pos_eq y) by done.
    destruct (Qle_bool _ (round_pos x)) eqn:Ex;
      destruct (Qle_bool _ (round_pos y)) eqn:Ey; try done.
    + apply Qle_bool_iff in Ex. apply Qle_bool_false in Ey. lra.
    + apply leb_Fin. by rewrite !Qred_correct.
  - destruct (Qlt_le_dec y 0) as [Hy|Hy].
    + assert (Hr : round_pos (- y) <= round_pos (- x))
        by (apply round_pos_mono; lra).
      rewrite (round_neg_eq x), (round_neg_eq y) by lra.
      destruct (Qle_bool _ (round_pos (- x))) eqn:Ex;
        destruct (Qle_bool _ (round_pos (- y))) eqn:Ey; try done.
      * apply Qle_bool_iff in Ey. apply Qle_bool_false in Ex. lra.
      * apply leb_Fin. rewrite !Qred_correct. lra.
    + apply leb_trans with (Fin 0);
        [by apply round_nonpos | by apply round_nonneg].
Qed.

(** Integers of magnitude below [2 ^ 53] are converted exactly. *)
Lemma of_Z_exact (z : Z) :
  (0 <= z < 2 ^ 53)%Z → of_Z z = Fin (Qred (inject_Z z)).
Proof.
  intros Hz. unfold of_Z.
  destruct (Z.eq_dec z 0%Z) as [->|Hnz]; [done|].
  assert (Hpos : 0 < inject_Z z).
  { change 0 with (inject_Z 0). rewrite <- Zlt_Qlt. lia. }
  pose proof (round_pos_Z z ltac:(lia)) as Hr.
  rewrite round_pos_eq by done.
  destruct (Qle_bool _ _) eqn:E.
  - apply Qle_bool_iff in E. rewrite Hr in E.
    assert (Hlt : inject_Z z < 2 ^ 1024).
    { apply Qlt_le_trans with (2 ^ 53).
      - rewrite <- pow2_Z by lia. rewrite <- Zlt_Qlt. lia.
      - apply pow2_le. lia. }
    lra.
  - f_equal. by apply Qred_complete.
Qed.

Lemma of_N_exact (n : N) :
  (n < 2 ^ 53)%N → of_N n = Fin (Qred (inject_Z (Z.of_N n))).
Proof. intros Hn. apply of_Z_exact. lia. Qed.

Lemma of_Z_leb (x y : Z) : (x <= y)%Z → leb (of_Z x) (of_Z y) = true.
Proof. intros H. apply round_leb. by rewrite <- Zle_Qle. Qed.

(** Multiplication and division by a positive finite value are
    monotone, and never NaN on values that are not NaN. *)

Lemma Qsign_inf_pos c : 0 < c → Qsign_inf c = PInf.
Proof. intros Hc. unfold Qsign_inf. by rewrite (proj1 (Qgt_alt c 0) Hc). Qed.

Lemma Qeq_bool_pos c : 0 < c → Qeq_bool c 0 = false.
Proof.
  intros Hc. destruct (Qeq_bool c 0) eqn:E; [|done].
  apply Qeq_bool_iff in E. lra.
Qed.

Lemma Qltb_pos c : 0 <= c → Qltb c 0 = false.
Proof. intros Hc. by apply Qltb_ge. Qed.

Lemma mul_leb_r a b c :
  0 < c → leb a b = true → leb (mul a (Fin c)) (mul b (Fin c)) = true.
Proof.
  intros Hc. destruct a as [x| | |], b as [y| | |]; try done;
    cbn [mul opp]; rewrite ?Qsign_inf_pos by done; try done.
  - rewrite leb_Fin. intros Hxy. apply round_leb.
    by apply Qmult_le_compat_r; [|lra].
  - intros _. pose proof (is_nan_round (x * c)). by destruct (round _).
  - intros _. pose proof (is_nan_round (y * c)). by destruct (round _).
Qed.

Lemma div_leb_r a b c :
  0 < c → leb a b = true → leb (div a (Fin c)) (div b (Fin c)) = true.
Proof.
  intros Hc. destruct a as [x| | |], b as [y| | |]; try done;
    cbn [div]; rewrite ?Qeq_bool_pos, ?Qltb_pos by lra; try done.
  - rewrite leb_Fin. intros Hxy. apply round_leb.
    apply Qmult_le_compat_r; [done|]. apply Qlt_le_weak, Qinv_lt_0_compat, Hc.
  - intros _. pose proof (is_nan_round (x / c)). by destruct (round _).
  - intros _. pose proof (is_nan_round (y / c)). by destruct (round _).
Qed.

Lemma is_nan_mul_pos a c :
  0 < c → is_nan a = false → is_nan (mul a (Fin c)) = false.
Proof.
  intros Hc. destruct a as [x| | |]; try done; cbn [mul opp];
    rewrite ?Qsign_inf_pos by done; try done.
  intros _. apply is_nan_round.
Qed.

Lemma is_nan_div_pos x b :
  0 < x → is_nan b = false → is_nan (div (Fin x) b) = false.
Proof.
  intros Hx. destruct b as [y| | |]; try done; cbn [div]. intros _.
  destruct (Qeq_bool y 0); [by rewrite Qsign_inf_pos|apply is_nan_round].
Qed.

Lemma is_nan_div_nonneg a y :
  leb (Fin 1) a = true → 0 <= y → is_nan (div a (Fin y)) = false.
Proof.
  destruct a as [x| | |]; try done; cbn [div].
  - rewrite leb_Fin. intros Hx Hy.
    destruct (Qeq_bool y 0); [rewrite Qsign_inf_pos by lra; done|].
    apply is_nan_round.
  - intros _ Hy. by rewrite Qltb_pos.
Qed.

End DoubleFacts.

Import RoundFacts DoubleFacts.

(** ** [getScale] *)

(** Unfolds the state passing of a function body. *)
Ltac run :=
  unfold SOFT_ASSERT, mbind, M_bind, mret, M_ret, getFreeMemory, emit;
  cbn beta iota zeta delta
    [non_null obj addr pix_w pix_h pix_d pix_xres pix_yres].

(** A buffer that exists leaves the world as it is. *)
Lemma getScale_world (src : PixRef) (w : World) :
  (getScale (Some src) w).2 = w.
Proof.
  unfold getScale. run.
  repeat match goal with |- context [if ?b then _ else _] => destruct b end;
    done.
Qed.

Lemma getScale_eq (src : PixRef) (w : World) :
  getScale (Some src) w = ((getScale (Some src) w).1, w).
Proof.
  rewrite <- (getScale_world src w) at 3. apply surjective_pairing.
Qed.

(** The value [getScale] returns depends on the header of the buffer and
    on the reading of the probe only. *)
Lemma getScale_value (src src' : PixRef) (w w' : World) :
  obj src = obj src' → freeMemory w = freeMemory w' →
  (getScale (Some src) w).1 = (getScale (Some src') w').1.
Proof.
  intros Ho Hf. unfold getScale. run. rewrite Ho.
  destruct (wrap_int32 _ =? 0); [done|].
  destruct (leb _ (Fin 1)); [done|].
  cbn beta. rewrite Hf. by destruct (ltb _ (Fin 1)).
Qed.

(** The quotient 500.0 / d is at most 1.0 when d is at least 500.0, and
    when d is negative. *)
Lemma div_500_le_1 (d : double) :
  leb (Fin 500) d = true ∨ leb d (Fin (-1)) = true →
  leb (div (Fin 500) d) (Fin 1) = true.
Proof.
  change (Fin 1) with (round 1).
  intros [H|H]; destruct d as [y| | |]; try done; cbn [div].
  - apply leb_Fin in H. rewrite Qeq_bool_pos by lra.
    apply round_leb. apply Qle_shift_div_r; lra.
  - apply leb_Fin in H.
    destruct (Qeq_bool y 0) eqn:E; [apply Qeq_bool_iff in E; lra|].
    apply round_leb. apply Qle_trans with 0%Q; [|done].
    assert (Hneg : (500 / y == - (500 / - y))%Q) by (field; lra).
    rewrite Hneg. apply (Qopp_le_compat 0). apply Qle_shift_div_l; lra.
Qed.

Lemma preferred_scale_le_1 (m : Z) :
  m < 0 ∨ 500 ≤ m →
  leb (std_max (div (Fin 500) (of_Z m)) (Fin 1)) (Fin 1) = true.
Proof.
  intros Hm.
  assert (Hq : leb (div (Fin 500) (of_Z m)) (Fin 1) = true).
  { apply div_500_le_1. destruct Hm as [Hm|Hm]; [right|left].
    - change (Fin (-1)) with (of_Z (-1)). apply of_Z_leb. lia.
    - change (Fin 500) with (of_Z 500). by apply of_Z_leb. }
  unfold std_max. by destruct (ltb _ _).
Qed.

(** C6: a buffer whose minimum density is 500 or more gets the sentinel
    -1.0 from [getScale], whatever its dimensions and whatever memory is
    free. The densities are then both known; the statement also covers the
    densities whose 32-bit product wraps to zero. *)
Theorem getScale_high_density (src : PixRef) (w : World) :
  500 ≤ Z.min (pix_xres (obj src)) (pix_yres (obj src)) →
  getScale (Some src) w = (Fin (-1), w).
Proof.
  intros Hd. unfold getScale. run.
  destruct (wrap_int32 _ =? 0); [done|].
  rewrite preferred_scale_le_1 by lia. done.
Qed.

(** The witness of C6: a buffer of density 600 by 500. *)
Lemma getScale_high_density_witness :
  getScale (Some (mkRef 0 (mkPix 1000 800 8 600 500))) (Reference.world 1000000)
  = (Fin (-1), Reference.world 1000000).
Proof. apply getScale_high_density. simpl. lia. Defined.

Lemma wrap_int32_product_nonzero (x y : Z) :
  (wrap_int32 (x * y) =? 0) = false → Z.min x y ≠ 0.
Proof.
  intros H. apply Z.eqb_neq in H. intros Hm. apply H.
  assert (Hxy : x * y = 0) by nia. rewrite Hxy. done.
Qed.

Lemma wrap_uint32_bound (n : N) : (wrap_uint32 n < 2 ^ 32)%N.
Proof. unfold wrap_uint32. apply N.mod_upper_bound. done. Qed.

(** The clamp of an axis: a scale below it takes the dimension of the
    axis to less than one pixel above the largest [int]. The quotient
    INT_MAX / n is rounded, to the nearest double, and the product with
    [n] can exceed INT_MAX by the rounding error. *)
Lemma clamp_dimension (s : Q) (n : N) :
  (n < 2 ^ 32)%N → (0 < s)%Q →
  leb (Fin s) (div (of_Z INT_MAX) (of_N n)) = true →
  (inject_Z (Z.of_N n) * s < inject_Z INT_MAX + (1 # 4194304))%Q.
Proof.
  intros Hn Hs. change (of_Z INT_MAX) with (Fin 2147483647).
  change (inject_Z INT_MAX) with 2147483647%Q.
  rewrite of_N_exact by lia.
  set (n' := Qred (inject_Z (Z.of_N n))).
  assert (Hn' : (n' == inject_Z (Z.of_N n))%Q) by apply Qred_correct.
  destruct (N.eq_dec n 0%N) as [->|Hnz].
  { intros _. change (inject_Z (Z.of_N 0)) with 0%Q. lra. }
  assert (Hpos : (0 < inject_Z (Z.of_N n))%Q).
  { change 0%Q with (inject_Z 0). rewrite <- Zlt_Qlt. lia. }
  assert (Hup : (inject_Z (Z.of_N n) < 4294967296)%Q).
  { change 4294967296%Q with (inject_Z (2 ^ 32)). rewrite <- Zlt_Qlt. lia. }
  cbn [div]. rewrite Qeq_bool_pos by lra.
  set (x := (2147483647 / n')%Q).
  assert (Hnx : (inject_Z (Z.of_N n) * x == 2147483647)%Q).
  { subst x. rewrite Hn'. field. lra. }
  assert (Hx : (1 # 4 <= x)%Q).
  { subst x. apply Qle_shift_div_l; lra. }
  assert (He : -1074 < ulp_exponent x).
  { unfold ulp_exponent.
    pose proof (Qlog2_mono (1 # 4) x eq_refl Hx) as Hl.
    change (Qlog2 (1 # 4)) with (-2) in Hl. lia. }
  pose proof (round_pos_error x ltac:(lra) He) as Herr.
  assert (H53 : (2 ^ (-53) == 1 # 9007199254740992)%Q) by reflexivity.
  rewrite H53 in Herr.
  assert (Hbound : (inject_Z (Z.of_N n) * round_pos x
                    < 2147483647 + (1 # 4194304))%Q).
  { apply Qle_lt_trans
      with (inject_Z (Z.of_N n) * (x * (1 + (1 # 9007199254740992))))%Q.
    - apply Qmult_le_l; done.
    - rewrite Qmult_assoc, Hnx. lra. }
  rewrite round_pos_eq by lra.
  destruct (Qle_bool _ _) eqn:E.
  - apply Qle_bool_iff in E. intros _. exfalso.
    assert (Hbig : (2147483647 + 1 <= 2 ^ 1024)%Q) by (by vm_compute).
    assert (Hone : (1 <= inject_Z (Z.of_N n))%Q).
    { change 1%Q with (inject_Z 1). rewrite <- Zle_Qle. lia. }
    assert (Hr : (0 <= round_pos x)%Q) by (apply round_pos_nonneg; lra).
    assert (Hle : (round_pos x <= inject_Z (Z.of_N n) * round_pos x)%Q).
    { rewrite <- (Qmult_1_l (round_pos x)) at 1.
      apply Qmult_le_compat_r; done. }
    lra.
  - intros Hle. apply leb_Fin in Hle. rewrite Qred_correct in Hle.
    apply Qle_lt_trans with (inject_Z (Z.of_N n) * round_pos x)%Q; [|done].
    apply Qmult_le_l; done.
Qed.

(** The constants of [getScale] as doubles. *)

Lemma of_Z_INT_MAX : of_Z INT_MAX = Fin 2147483647.
Proof. vm_compute. reflexivity. Qed.

Lemma literal_0_95 :
  literal 0.95 = Fin (4278419646001971 # 4503599627370496).
Proof. vm_compute. reflexivity. Qed.

Lemma round_1 : round 1 = Fin 1.
Proof. vm_compute. reflexivity. Qed.

Lemma round_500 : round 500 = Fin 500.
Proof. vm_compute. reflexivity. Qed.

Lemma leb_sandwich (a b : Q) (d : double) :
  leb (Fin a) d = true → leb d (Fin b) = true → ∃ x : Q, d = Fin x.
Proof. destruct d as [x| | |]; try done. by exists x. Qed.

(** The quotient 500.0 / d is finite for the conversion d of an integer
    that is not zero. *)
Lemma div_500_finite (m : Z) :
  m ≠ 0 → ∃ x : Q, div (Fin 500) (of_Z m) = Fin x.
Proof.
  intros Hm. destruct (Z_lt_le_dec m 0) as [Hneg|Hpos].
  - assert (Hle : leb (of_Z m) (Fin (-1)) = true).
    { change (Fin (-1)) with (of_Z (-1)). apply of_Z_leb. lia. }
    destruct (of_Z m) as [y| | |]; try done; [|by exists 0%Q].
    apply leb_Fin in Hle. cbn [div].
    destruct (Qeq_bool y 0) eqn:E; [apply Qeq_bool_iff in E; lra|].
    assert (Hq : (-500 <= 500 / y)%Q ∧ (500 / y <= 0)%Q).
    { assert (Hneg' : (500 / y == - (500 / - y))%Q) by (field; lra).
      rewrite Hneg'. split.
      - apply (Qopp_le_compat (500 / - y) 500). apply Qle_shift_div_r; lra.
      - apply (Qopp_le_compat 0). apply Qle_shift_div_l; lra. }
    apply (leb_sandwich (-500) 0).
    + change (Fin (-500)) with (round (-500)). apply round_leb, Hq.
    + apply round_nonpos, Hq.
  - assert (Hle : leb (Fin 1) (of_Z m) = true).
    { rewrite <- round_1. apply of_Z_leb. lia. }
    destruct (of_Z m) as [y| | |]; try done; [|by exists 0%Q].
    apply leb_Fin in Hle. cbn [div]. rewrite Qeq_bool_pos by lra.
    apply (leb_sandwich 0 500).
    + apply round_nonneg. apply Qle_shift_div_l; lra.
    + rewrite <- round_500. apply round_leb. apply Qle_shift_div_r; lra.
Qed.

(** A product below INT_MAX + 2^-22 gives a pixel count of at most
    INT_MAX, whether the product is truncated or rounded to the nearest
    pixel. *)
Lemma pixel_count_bound (n : Z) (s : Q) :
  (inject_Z n * s < inject_Z INT_MAX + (1 # 4194304))%Q →
  Qfloor (inject_Z n * s) ≤ INT_MAX ∧ scaled_dimension n s ≤ INT_MAX.
Proof.
  intros Hb. unfold scaled_dimension. split.
  - apply Z.lt_succ_r. rewrite Zlt_Qlt.
    apply Qle_lt_trans with (inject_Z n * s)%Q; [apply Qfloor_le|].
    unfold Z.succ. rewrite inject_Z_plus. change (inject_Z 1) with 1%Q. lra.
  - apply Z.lt_succ_r. rewrite Zlt_Qlt.
    apply Qle_lt_trans with (s * inject_Z n + (1 # 2))%Q; [apply Qfloor_le|].
    unfold Z.succ. rewrite inject_Z_plus. change (inject_Z 1) with 1%Q. lra.
Qed.

(** C7: when [getScale] returns a scale above 1.0 for a buffer (of
    dimensions that fit [l_uint32]), the scale is a finite number [s];
    the scaled dimensions, as pixel counts, do not exceed the largest
    [int]: neither the width and the height that Leptonica gives the
    scaled buffer (the products rounded to the nearest pixel) nor the
    integer parts of the products, the products themselves staying below
    INT_MAX + 2^-22; and [s] exceeds neither the clamps INT_MAX / w and
    INT_MAX / h nor the preferred scale 500.0 / min(xRes, yRes), each as
    the code computes it. A result above 1.0 is returned only when the
    density is known. *)
Theorem getScale_bounds (src : PixRef) (w : World) :
  (pix_w (obj src) < 2 ^ 32)%N →
  (pix_h (obj src) < 2 ^ 32)%N →
  ltb (Fin 1) (getScale (Some src) w).1 = true →
  ∃ s : Q,
    (getScale (Some src) w).1 = Fin s ∧
    scaled_dimension (Z.of_N (pix_w (obj src))) s ≤ INT_MAX ∧
    scaled_dimension (Z.of_N (pix_h (obj src))) s ≤ INT_MAX ∧
    Qfloor (inject_Z (Z.of_N (pix_w (obj src))) * s) ≤ INT_MAX ∧
    Qfloor (inject_Z (Z.of_N (pix_h (obj src))) * s) ≤ INT_MAX ∧
    (inject_Z (Z.of_N (pix_w (obj src))) * s
       < inject_Z INT_MAX + (1 # 4194304))%Q ∧
    (inject_Z (Z.of_N (pix_h (obj src))) * s
       < inject_Z INT_MAX + (1 # 4194304))%Q ∧
    leb (Fin s) (div (of_Z INT_MAX) (of_N (pix_w (obj src)))) = true ∧
    leb (Fin s) (div (of_Z INT_MAX) (of_N (pix_h (obj src)))) = true ∧
    leb (Fin s)
      (div (Fin 500)
         (of_Z (Z.min (pix_xres (obj src)) (pix_yres (obj src))))) = true.
Proof.
  intros Hw Hh. unfold getScale. run.
  destruct (wrap_int32 _ =? 0) eqn:Hprod; [done|].
  apply wrap_int32_product_nonzero in Hprod.
  set (m := Z.min (pix_xres (obj src)) (pix_yres (obj src))) in *.
  destruct (div_500_finite m Hprod) as [q Hq]. rewrite Hq.
  destruct (leb _ (Fin 1)) eqn:Hpref; [done|].
  assert (HP : std_max (Fin q) (Fin 1) = Fin q).
  { unfold std_max in *. destruct (ltb (Fin q) (Fin 1)); [|done].
    by rewrite (leb_refl (Fin 1)) in Hpref. }
  rewrite HP in *. clear HP Hpref.
  rewrite literal_0_95, of_Z_INT_MAX.
  set (c := (4278419646001971 # 4503599627370496)%Q).
  set (avail := mul (of_Z (freeMemory w)) (Fin c)).
  assert (Havail : is_nan avail = false).
  { apply is_nan_mul_pos; [done|apply is_nan_round]. }
  destruct (ltb avail (Fin 1)) eqn:Hmem; [done|].
  cbn [fst].
  set (MX := div (Fin 2147483647) (of_N (pix_w (obj src)))).
  set (MY := div (Fin 2147483647) (of_N (pix_h (obj src)))).
  set (size := (wrap_uint32 _ / 8)%N).
  set (MEM := div avail (of_N size)).
  assert (HMX : is_nan MX = false).
  { apply is_nan_div_pos; [done|apply is_nan_round]. }
  assert (HMY : is_nan MY = false).
  { apply is_nan_div_pos; [done|apply is_nan_round]. }
  assert (HMEM : is_nan MEM = false).
  { subst MEM. rewrite of_N_exact.
    - apply is_nan_div_nonneg; [by apply not_ltb_leb|].
      rewrite Qred_correct. change 0%Q with (inject_Z 0).
      rewrite <- Zle_Qle. lia.
    - subst size. pose proof (wrap_uint32_bound
        (wrap_uint32 (pix_w (obj src) * pix_h (obj src)) * pix_d (obj src))).
      apply N.le_lt_trans with (wrap_uint32
        (wrap_uint32 (pix_w (obj src) * pix_h (obj src)) * pix_d (obj src))).
      + apply N.Div0.div_le_upper_bound. lia.
      + lia. }
  set (SX := std_min (Fin q) MX).
  set (SY := std_min (Fin q) MY).
  assert (HSX : is_nan SX = false) by (by apply std_min_nan).
  assert (HSY : is_nan SY = false) by (by apply std_min_nan).
  assert (HS : is_nan (std_min SX SY) = false) by (by apply std_min_nan).
  set (r := std_min (std_min SX SY) MEM).
  assert (Hr : leb r (std_min SX SY) = true) by (by apply std_min_leb_l).
  assert (HrX : leb r SX = true).
  { eapply leb_trans; [exact Hr|]. by apply std_min_leb_l. }
  assert (HrY : leb r SY = true).
  { eapply leb_trans; [exact Hr|]. by apply std_min_leb_r. }
  assert (Hrq : leb r (Fin q) = true).
  { eapply leb_trans; [exact HrX|]. by apply std_min_leb_l. }
  assert (HrMX : leb r MX = true).
  { eapply leb_trans; [exact HrX|]. by apply std_min_leb_r. }
  assert (HrMY : leb r MY = true).
  { eapply leb_trans; [exact HrY|]. by apply std_min_leb_r. }
  intros H1. destruct r as [s| | |]; try done.
  apply ltb_Fin in H1.
  pose proof (clamp_dimension s _ Hw ltac:(lra)) as HbX.
  pose proof (clamp_dimension s _ Hh ltac:(lra)) as HbY.
  rewrite of_Z_INT_MAX in HbX, HbY.
  specialize (HbX HrMX). specialize (HbY HrMY).
  destruct (pixel_count_bound _ s HbX) as [HfX HsX].
  destruct (pixel_count_bound _ s HbY) as [HfY HsY].
  exists s. repeat split; done.
Qed.

(** The witness of C7: a buffer 4,295,053 pixels wide and one pixel
    high, of density 1 on both axes, with 2^50 bytes free. The preferred
    scale is 500 and the clamp of the horizontal axis binds: [getScale]
    returns the double nearest to 2147483647 / 4295053. *)
Lemma getScale_bounds_witness :
  ∃ s : Q,
    (getScale (Some (mkRef 0 (mkPix 4295053 1 8 1 1)))
       (Reference.world (2 ^ 50))).1 = Fin s ∧
    scaled_dimension 4295053 s ≤ INT_MAX ∧
    scaled_dimension 1 s ≤ INT_MAX.
Proof.
  destruct (getScale_bounds (mkRef 0 (mkPix 4295053 1 8 1 1))
              (Reference.world (2 ^ 50)) eq_refl eq_refl
              ltac:(vm_compute; reflexivity))
    as (s & Hs & HX & HY & _).
  exists s. split; [exact Hs|]. split; [exact HX | exact HY].
Defined.

(** The bound is one on pixel counts, not on the product as a real
    number: for the buffer of the witness the double nearest to
    2147483647 / 4295053 lies above the quotient, and the product of the
    width and the scale exceeds 2147483647, by less than 2^-22 of a
    pixel. *)
Lemma getScale_exact_product (s : Q) :
  (getScale (Some (mkRef 0 (mkPix 4295053 1 8 1 1)))
     (Reference.world (2 ^ 50))).1 = Fin s →
  (1 < s)%Q ∧
  (inject_Z INT_MAX < inject_Z 4295053 * s)%Q ∧
  scaled_dimension 4295053 s = INT_MAX.
Proof.
  intros Hs. vm_compute in Hs. injection Hs as <-. by vm_compute.
Qed.

(** ** [prepareImage], path by path *)

Arguments getScale : simpl never.
Arguments ltb : simpl never.
Arguments leb : simpl never.

Section Paths.

Context {QImage : Type} (lib : Library QImage).
Variables (image : QImage) (w : World).

Let ap : nat := fresh (live w).
Let L1 : gset nat := {[ap]} ∪ live w.
Let ag : nat := fresh L1.
Let L2 : gset nat := ({[ag]} ∪ L1) ∖ {[ap]}.

(** The conversion of the source fails: nothing was created. *)
Lemma prepareImage_no_pix :
  lib_readBmp lib image = None →
  prepareImage lib image w =
    (nullptr,
     mkWorld (live w) (freeMemory w)
       (trace w ++ [CallPixReadMemBmp; SoftAssertFailed "pix"])).
Proof.
  intros Hp. unfold prepareImage, convertImage, new_pix. run.
  rewrite Hp. cbn. by rewrite <- app_assoc.
Qed.

(** The grayscale conversion fails: the function returns before the
    converted buffer is destroyed. *)
Lemma prepareImage_no_gray (p : Pix) :
  lib_readBmp lib image = Some p →
  lib_rgbToGray lib p = None →
  prepareImage lib image w =
    (nullptr,
     mkWorld L1 (freeMemory w)
       (trace w ++ [CallPixReadMemBmp; CallPixConvertRGBToGray ap;
                    SoftAssertFailed "gray"])).
Proof.
  intros Hp Hg.
  unfold prepareImage, convertImage, pixConvertRGBToGray, new_pix. run.
  rewrite Hp. cbn. run. rewrite Hg. cbn. by rewrite <- !app_assoc.
Qed.

(** Both conversions succeed. *)
Lemma prepareImage_gray (p g : Pix) :
  lib_readBmp lib image = Some p →
  lib_rgbToGray lib p = Some g →
  let t2 := trace w ++ [CallPixReadMemBmp; CallPixConvertRGBToGray ap;
                        CallPixDestroy ap] in
  let gray := mkRef ag g in
  let scale := (getScale (Some gray) (mkWorld L2 (freeMemory w) t2)).1 in
  prepareImage lib image w =
    if ltb (Fin 1) scale then
      match lib_scale lib g scale scale with
      | Some r =>
          let ar := fresh L2 in
          (Some (mkRef ar r),
           mkWorld (({[ar]} ∪ L2) ∖ {[ag]}) (freeMemory w)
             (t2 ++ [CallPixScale ag scale scale; CallPixDestroy ag]))
      | None =>
          (Some gray,
           mkWorld L2 (freeMemory w) (t2 ++ [CallPixScale ag scale scale]))
      end
    else (Some gray, mkWorld L2 (freeMemory w) t2).
Proof.
  intros Hp Hg t2 gray scale.
  unfold prepareImage, convertImage, pixConvertRGBToGray, pixScale,
    pixDestroy, release, new_pix.
  run. rewrite Hp. cbn. run. rewrite Hg. cbn.
  fold ap L1 ag L2 gray. rewrite <- !app_assoc. cbn [app]. fold t2.
  rewrite getScale_eq. fold scale.
  destruct (ltb (Fin 1) scale); cbn.
  - destruct (lib_scale lib g scale scale) as [r|]; cbn.
    + assert (Hne : fresh L2 ≠ ag).
      { intros Heq. apply (is_fresh L2). rewrite Heq.
        assert (ag ≠ ap).
        { intros Heq'. apply (is_fresh L1). fold ag. rewrite Heq'.
          subst L1. set_solver. }
        subst L2. set_solver. }
      unfold ptr_neq. cbn. rewrite bool_decide_eq_false_2 by congruence.
      cbn. by rewrite <- !app_assoc.
    + unfold ptr_neq. cbn. rewrite bool_decide_eq_true_2 by done. done.
  - unfold ptr_neq. cbn. rewrite bool_decide_eq_true_2 by done. done.
Qed.

End Paths.

(** ** Unknown density (scenario B) *)

Lemma getScale_unknown_density (src : PixRef) (w : World) :
  pix_xres (obj src) * pix_yres (obj src) = 0 →
  getScale (Some src) w = (Fin (-1), w).
Proof. intros H. unfold getScale. run. by rewrite H. Qed.

(** C8: when the horizontal and vertical resolution of a buffer multiply
    to zero, [getScale] returns the sentinel -1.0 wherever the buffer lies
    and whatever memory is free; and [prepareImage], when that buffer is
    the grayscale buffer of the image, returns it as it is: the calls it
    makes are the reading, the grayscale conversion and the release of the
    converted buffer, and no call of [pixScale]. *)
Theorem unknown_density_not_scaled (g : Pix) :
  pix_xres g * pix_yres g = 0 →
  (∀ (a : nat) (w : World), getScale (Some (mkRef a g)) w = (Fin (-1), w)) ∧
  (∀ (QImage : Type) (lib : Library QImage) (image : QImage) (p : Pix)
     (w : World),
     lib_readBmp lib image = Some p →
     lib_rgbToGray lib p = Some g →
     let ap := fresh (live w) in
     let ag := fresh ({[ap]} ∪ live w) in
     prepareImage lib image w =
       (Some (mkRef ag g),
        mkWorld (({[ag]} ∪ ({[ap]} ∪ live w)) ∖ {[ap]}) (freeMemory w)
          (trace w ++ [CallPixReadMemBmp; CallPixConvertRGBToGray ap;
                       CallPixDestroy ap]))).
Proof.
  intros Hres. split.
  - intros a w. by apply getScale_unknown_density.
  - intros QImage lib image p w Hp Hg ap ag.
    rewrite (prepareImage_gray lib image w p g Hp Hg).
    rewrite getScale_unknown_density by done. done.
Qed.

(** The witness of C8: scenario B in the reference environment. *)
Lemma unknown_density_not_scaled_witness :
  getScale (Some (mkRef 1 (mkPix 1000 800 8 0 100)))
    (Reference.world (8 * Reference.GiB))
  = (Fin (-1), Reference.world (8 * Reference.GiB)) ∧
  (prepareImage (Reference.library []) Reference.imageB
     (Reference.world (8 * Reference.GiB))).1
  = Some (mkRef 1 (mkPix 1000 800 8 0 100)).
Proof.
  destruct (unknown_density_not_scaled (mkPix 1000 800 8 0 100) eq_refl)
    as [Hscale Hprepare].
  split; [apply Hscale|].
  rewrite (Hprepare Pix (Reference.library []) Reference.imageB
             Reference.imageB (Reference.world (8 * Reference.GiB))
             eq_refl eq_refl).
  vm_compute. reflexivity.
Defined.

(** ** Scenario A *)

Lemma getScale_scenario_A (a : nat) (w : World) :
  4210527 ≤ freeMemory w →
  getScale (Some (mkRef a (mkPix 1000 800 8 100 100))) w = (Fin 5, w).
Proof.
  intros Hfree. unfold getScale. run.
  change (wrap_int32 (100 * 100) =? 0) with false. cbv iota.
  replace (std_max (div (Fin 500) (of_Z (100 `min` 100))) (Fin 1))
    with (Fin 5) by (by vm_compute).
  change (leb (Fin 5) (Fin 1)) with false. cbv beta iota.
  replace (std_min (std_min (Fin 5) (div (of_Z INT_MAX) (of_N 1000)))
             (std_min (Fin 5) (div (of_Z INT_MAX) (of_N 800))))
    with (Fin 5) by (by vm_compute).
  change (wrap_uint32 (wrap_uint32 (1000 * 800) * 8) `div` 8)%N
    with 800000%N.
  replace (of_N 800000) with (Fin 800000) by (by vm_compute).
  rewrite literal_0_95.
  set (c := (4278419646001971 # 4503599627370496)%Q).
  set (avail := mul (of_Z (freeMemory w)) (Fin c)).
  (* 95% of 4,210,527 bytes, as a double, is above 4,000,000 *)
  assert (Havail : leb (Fin 4000000) avail = true).
  { apply leb_trans with (mul (of_Z 4210527) (Fin c)); [by vm_compute|].
    apply mul_leb_r; [done|]. by apply of_Z_leb. }
  rewrite (leb_not_ltb (Fin 1) avail)
    by (apply leb_trans with (Fin 4000000); done).
  assert (Hmem : leb (Fin 5) (div avail (Fin 800000)) = true).
  { apply leb_trans with (div (Fin 4000000) (Fin 800000)); [by vm_compute|].
    by apply div_leb_r. }
  unfold std_min. by rewrite (leb_not_ltb _ _ Hmem).
Qed.

(** The threshold is sharp: with one byte less, 95% of the free memory
    is below 4,000,000 bytes and the memory bound binds. *)
Example getScale_scenario_A_sharp :
  (getScale (Some (mkRef 0 (mkPix 1000 800 8 100 100)))
     (Reference.world 4210526)).1
  = Fin (5629499112000655 # 1125899906842624).
Proof. vm_compute. reflexivity. Qed.

(** C1: for an image that decodes to 1000 x 800 pixels of density 100 on
    both axes, with free memory of at least 4,210,527 bytes (95% of it,
    as a double, is then at least five times the 800,000 bytes of the
    grayscale buffer, so the memory bound does not bind) and library calls
    that succeed,
    [getScale] returns exactly 5.0 on the grayscale buffer and
    [prepareImage] returns a buffer of 5000 x 4000 pixels of depth 8,
    obtained by [pixScale] at (5.0, 5.0). *)
Theorem scenario_A {QImage : Type} (lib : Library QImage) (image : QImage)
    (w : World) (p : Pix) :
  Leptonica lib →
  lib_readBmp lib image = Some p →
  pix_w p = 1000%N → pix_h p = 800%N →
  pix_xres p = 100 → pix_yres p = 100 →
  is_Some (lib_rgbToGray lib p) →
  is_Some (lib_scale lib (mkPix 1000 800 8 100 100) (Fin 5) (Fin 5)) →
  4210527 ≤ freeMemory w →
  (∀ (a : nat) (w' : World),
     freeMemory w' = freeMemory w →
     getScale (Some (mkRef a (mkPix 1000 800 8 100 100))) w' = (Fin 5, w')) ∧
  ∃ (r : PixRef) (gray : nat),
    (prepareImage lib image w).1 = Some r ∧
    CallPixScale gray (Fin 5) (Fin 5) ∈ trace (prepareImage lib image w).2 ∧
    pix_w (obj r) = 5000%N ∧ pix_h (obj r) = 4000%N ∧ pix_d (obj r) = 8%N.
Proof.
  intros Hlib Hp Hw Hh Hx Hy [g Hg] [r Hr] Hfree. split.
  { intros a w' Hw'. apply getScale_scenario_A. by rewrite Hw'. }
  assert (Hgray : g = mkPix 1000 800 8 100 100).
  { rewrite (gray_header lib Hlib p g Hg). by rewrite Hw, Hh, Hx, Hy. }
  subst g. rewrite (prepareImage_gray lib image w p _ Hp Hg).
  rewrite getScale_scenario_A by done. cbn [fst].
  change (ltb (Fin 1) (Fin 5)) with true. cbv iota. rewrite Hr. cbn.
  eexists _, _. split; [done|]. split.
  { rewrite !elem_of_app. right. apply list_elem_of_here. }
  destruct (scale_header lib Hlib (mkPix 1000 800 8 100 100) r 5 5
              eq_refl Hr) as (Hrw & Hrh & Hrd).
  cbn [obj]. rewrite Hrw, Hrh, Hrd. done.
Qed.

Lemma reference_Leptonica (text : QString) :
  Leptonica (Reference.library text).
Proof.
  split.
  - intros p g. cbn. unfold Reference.rgbToGray.
    destruct (pix_d p =? 32)%N; congruence.
  - intros p r sx sy Hd. cbn. unfold Reference.scale.
    destruct (Qltb 0 sx && Qltb 0 sy); [|done].
    intros [= <-]. done.
Qed.

(** The witness of C1: scenario A in the reference environment, with
    eight gibibytes free. *)
Lemma scenario_A_witness :
  ∃ (r : PixRef) (gray : nat),
    (prepareImage (Reference.library []) Reference.imageA
       (Reference.world (8 * Reference.GiB))).1 = Some r ∧
    CallPixScale gray (Fin 5) (Fin 5)
      ∈ trace (prepareImage (Reference.library []) Reference.imageA
                 (Reference.world (8 * Reference.GiB))).2 ∧
    pix_w (obj r) = 5000%N ∧ pix_h (obj r) = 4000%N ∧ pix_d (obj r) = 8%N.
Proof.
  refine (proj2 (scenario_A (Reference.library []) Reference.imageA
                   (Reference.world (8 * Reference.GiB)) Reference.imageA
                   (reference_Leptonica []) eq_refl eq_refl eq_refl eq_refl
                   eq_refl _ _ _)).
  - by eexists.
  - by eexists.
  - by vm_compute.
Defined.

(** ** Buffers left behind *)

(** C3, on the path where the claim fails: when the source converts and
    the grayscale conversion returns NULL, [prepareImage] returns NULL
    through the soft assertion on [gray], which stands before
    [pixDestroy(&pix)]: the converted buffer, created by this call, is
    still live when the function returns and no call of [pixDestroy] was
    made. *)
Theorem prepareImage_leaks_converted_buffer {QImage : Type}
    (lib : Library QImage) (image : QImage) (w : World) (p : Pix) :
  lib_readBmp lib image = Some p →
  lib_rgbToGray lib p = None →
  let pix := fresh (live w) in
  (prepareImage lib image w).1 = nullptr ∧
  (pix ∉ live w) ∧
  (pix ∈ live (prepareImage lib image w).2) ∧
  trace (prepareImage lib image w).2 =
    trace w ++ [CallPixReadMemBmp; CallPixConvertRGBToGray pix;
                SoftAssertFailed "gray"].
Proof.
  intros Hp Hg pix. rewrite (prepareImage_no_gray lib image w p Hp Hg).
  cbn. split; [done|]. split; [apply is_fresh|]. split; [|done].
  fold pix. set_solver.
Qed.

(** The witness of C3: an 8-bit indexed bitmap, which the grayscale
    conversion of the reference environment rejects. *)
Lemma prepareImage_leaks_converted_buffer_witness :
  (prepareImage (Reference.library []) Reference.imageIndexed
     (Reference.world (8 * Reference.GiB))).1 = nullptr ∧
  0%nat ∈ live (prepareImage (Reference.library []) Reference.imageIndexed
                  (Reference.world (8 * Reference.GiB))).2.
Proof.
  destruct (prepareImage_leaks_converted_buffer (Reference.library [])
              Reference.imageIndexed (Reference.world (8 * Reference.GiB))
              Reference.imageIndexed eq_refl eq_refl) as (Hnull & _ & Hlive & _).
  split; [exact Hnull | exact Hlive].
Defined.

(** On every other path the buffers created by the call and still live
    when it returns are at most the buffer returned. *)
Lemma prepareImage_releases_otherwise {QImage : Type}
    (lib : Library QImage) (image : QImage) (w : World) :
  (∀ p, lib_readBmp lib image = Some p → is_Some (lib_rgbToGray lib p)) →
  ∀ a : nat,
    a ∈ live (prepareImage lib image w).2 → a ∉ live w →
    ptr_addr (prepareImage lib image w).1 = Some a.
Proof.
  intros Hgray a.
  destruct (lib_readBmp lib image) as [p|] eqn:Hp.
  - destruct (Hgray p eq_refl) as [g Hg].
    rewrite (prepareImage_gray lib image w p g Hp Hg).
    destruct (ltb _ _); [destruct (lib_scale _ _ _ _)|]; cbn;
      repeat first [ rewrite elem_of_difference | rewrite elem_of_union
                   | rewrite elem_of_singleton ];
      unfold not; intros Hin Hout; f_equal; intuition congruence.
  - rewrite (prepareImage_no_pix lib image w Hp). cbn.
    intros Hin Hout. by destruct Hout.
Qed.

(** ** Two calls on one image *)

Lemma prepareImage_freeMemory {QImage : Type} (lib : Library QImage)
    (image : QImage) (w : World) :
  freeMemory (prepareImage lib image w).2 = freeMemory w.
Proof.
  destruct (lib_readBmp lib image) as [p|] eqn:Hp.
  - destruct (lib_rgbToGray lib p) as [g|] eqn:Hg.
    + rewrite (prepareImage_gray lib image w p g Hp Hg).
      by destruct (ltb _ _); [destruct (lib_scale _ _ _ _)|].
    + by rewrite (prepareImage_no_gray lib image w p Hp Hg).
  - by rewrite (prepareImage_no_pix lib image w Hp).
Qed.

(** The header of the result depends on the image and on the reading of
    the probe, not on the buffers and the calls of the past. *)
Lemma prepareImage_header {QImage : Type} (lib : Library QImage)
    (image : QImage) (w w' : World) :
  freeMemory w = freeMemory w' →
  final_header (prepareImage lib image w).1 =
  final_header (prepareImage lib image w').1.
Proof.
  intros Hfree.
  destruct (lib_readBmp lib image) as [p|] eqn:Hp.
  - destruct (lib_rgbToGray lib p) as [g|] eqn:Hg.
    + rewrite (prepareImage_gray lib image w p g Hp Hg).
      rewrite (prepareImage_gray lib image w' p g Hp Hg).
      match goal with
      | |- context [ltb (Fin 1) ?s] =>
          match goal with
          | |- final_header (if ltb (Fin 1) s then _ else _).1 =
               final_header (if ltb (Fin 1) ?s' then _ else _).1 =>
              replace s' with s by (by apply getScale_value)
          end
      end.
      by destruct (ltb _ _); [destruct (lib_scale _ _ _ _)|].
    + rewrite (prepareImage_no_gray lib image w p Hp Hg).
      by rewrite (prepareImage_no_gray lib image w' p Hp Hg).
  - rewrite (prepareImage_no_pix lib image w Hp).
    by rewrite (prepareImage_no_pix lib image w' Hp).
Qed.

(** C9, as amended: two calls of [prepareImage] on one image, the second
    in the world the first has left, return buffers of the same width,
    height and depth when the probe reads the same free memory during
    both. *)
Theorem prepare_twice_same_header {QImage : Type} (lib : Library QImage)
    (image : QImage) (w : World) (free : Z) :
  free = freeMemory w →
  final_header (prepare_twice lib image free w).1.1 =
  final_header (prepare_twice lib image free w).1.2.
Proof.
  intros ->. unfold prepare_twice, probe_reads. run.
  destruct (prepareImage lib image w) as [first w1] eqn:H1.
  destruct (prepareImage lib image (mkWorld _ _ _)) as [second w2] eqn:H2.
  cbn. change first with (first, w1).1. rewrite <- H1.
  change second with (second, w2).1. rewrite <- H2.
  by apply prepareImage_header.
Qed.

(** The witness of C9 as amended: scenario A twice, eight gibibytes free
    during both calls. *)
Lemma prepare_twice_same_header_witness :
  final_header (prepare_twice (Reference.library []) Reference.imageA
                  (8 * Reference.GiB)
                  (Reference.world (8 * Reference.GiB))).1.1 =
  final_header (prepare_twice (Reference.library []) Reference.imageA
                  (8 * Reference.GiB)
                  (Reference.world (8 * Reference.GiB))).1.2.
Proof.
  apply (prepare_twice_same_header (Reference.library []) Reference.imageA
           (Reference.world (8 * Reference.GiB)) (8 * Reference.GiB)).
  reflexivity.
Defined.

(** C9, as stated, fails: scenario A with eight gibibytes free during the
    first call and 2,000,000 bytes free during the second, where the memory
    bound binds at 1,900,000 / 800,000 = 2.375. The first result is the
    buffer scaled to 5000 x 4000, the second the buffer scaled to
    2375 x 1900. *)
Lemma prepare_twice_counterexample :
  final_header (prepare_twice (Reference.library []) Reference.imageA 2000000
                  (Reference.world (8 * Reference.GiB))).1.1
  = Some (5000%N, 4000%N, 8%N) ∧
  final_header (prepare_twice (Reference.library []) Reference.imageA 2000000
                  (Reference.world (8 * Reference.GiB))).1.2
  = Some (2375%N, 1900%N, 8%N) ∧
  final_header (prepare_twice (Reference.library []) Reference.imageA 2000000
                  (Reference.world (8 * Reference.GiB))).1.1
  ≠ final_header (prepare_twice (Reference.library []) Reference.imageA
                    2000000 (Reference.world (8 * Reference.GiB))).1.2.
Proof. vm_compute. repeat split; congruence. Qed.

(** ** [QString::trimmed] *)

Lemma drop_space_split (s : QString) :
  ∃ pre : QString, s = pre ++ drop_space s ∧ forallb isSpace pre = true.
Proof.
  induction s as [|c s IH]; [by exists []|].
  cbn. destruct (isSpace c) eqn:Hc.
  - destruct IH as (pre & Hs & Hpre). exists (c :: pre). cbn.
    rewrite Hc, Hpre. split; [|done]. by rewrite <- Hs.
  - by exists [].
Qed.

Lemma drop_space_head (s : QString) (c : N) :
  head (drop_space s) = Some c → isSpace c = false.
Proof.
  induction s as [|c' s IH]; [done|].
  cbn. destruct (isSpace c') eqn:Hc; [done|]. cbn. congruence.
Qed.

Lemma drop_space_all (s : QString) :
  forallb isSpace s = true → drop_space s = [].
Proof.
  induction s as [|c s IH]; [done|].
  cbn. destruct (isSpace c); [exact IH|done].
Qed.

Lemma forallb_reverse (s : QString) :
  forallb isSpace (reverse s) = forallb isSpace s.
Proof.
  induction s as [|c s IH]; [done|].
  rewrite reverse_cons, forallb_app, IH. cbn. rewrite andb_true_r.
  apply andb_comm.
Qed.

Lemma trimmed_prefix (s : QString) :
  ∃ post : QString,
    drop_space s = trimmed s ++ post ∧ forallb isSpace post = true.
Proof.
  destruct (drop_space_split (reverse (drop_space s))) as (post & Hr & Hpost).
  exists (reverse post). split; [|by rewrite forallb_reverse].
  unfold trimmed. rewrite <- reverse_app, <- Hr, reverse_involutive. done.
Qed.

(** The text is the trimmed text between a run of whitespace and a run
    of whitespace. *)
Lemma trimmed_split (s : QString) :
  ∃ pre post : QString,
    s = pre ++ trimmed s ++ post ∧
    forallb isSpace pre = true ∧ forallb isSpace post = true.
Proof.
  destruct (drop_space_split s) as (pre & Hs & Hpre).
  destruct (trimmed_prefix s) as (post & Ht & Hpost).
  exists pre, post. by rewrite <- Ht.
Qed.

(** The trimmed text neither starts nor ends with whitespace. *)
Lemma trimmed_ends (s : QString) (c : N) :
  head (trimmed s) = Some c ∨ last (trimmed s) = Some c → isSpace c = false.
Proof.
  intros [Hhead|Hlast].
  - destruct (trimmed_prefix s) as (post & Ht & _).
    apply (drop_space_head s). rewrite Ht.
    destruct (trimmed s); [done|]. exact Hhead.
  - unfold trimmed in Hlast. rewrite last_reverse in Hlast.
    by apply drop_space_head in Hlast.
Qed.

Lemma trimmed_all_space (s : QString) :
  forallb isSpace s = true → trimmed s = [].
Proof. intros Hs. unfold trimmed. by rewrite (drop_space_all s Hs). Qed.

(** ** The session *)

Arguments prepareImage : simpl never.

Section Session.

Context {QImage : Type} (lib : Library QImage).

(** [recognize] in a valid session on a pixmap that is not null, as a
    function of what [prepareImage] returns. *)
Lemma recognize_run (self : Tesseract) (source : QPixmap QImage)
    (w : World) :
  isValid self = true →
  isNull source = false →
  recognize lib self source w =
    let '(image, w1) := prepareImage lib (toImage source) w in
    match image with
    | None =>
        (([], mkTesseract (engine_ self) []),
         mkWorld (live w1) (freeMemory w1)
           (trace w1 ++ [SoftAssertFailed "image"]))
    | Some img =>
        let text := trimmed (lib_text lib (obj img)) in
        ((text,
          if isEmpty text
          then mkTesseract (engine_ self)
                 (lib_tr lib "Failed to recognize text or no text selected")
          else mkTesseract (engine_ self) []),
         mkWorld (live w1 ∖ {[addr img]}) (freeMemory w1)
           (trace w1 ++ [CallSetImage (addr img); CallGetUTF8Text;
                         CallClear; CallPixDestroy (addr img)]))
    end.
Proof.
  intros Hvalid Hnull. unfold recognize, cleanupImage, pixDestroy, release.
  run. rewrite Hvalid, Hnull. cbn [negb].
  destruct (prepareImage lib (toImage source) w) as [[img|] w1]; cbn.
  - by rewrite <- !app_assoc.
  - done.
Qed.

End Session.

(** C2, as amended: when [prepareImage] returns NULL in a call of
    [recognize] (valid session, pixmap not null), [recognize] returns the
    empty text and the error field is empty, as [error_.clear()] left it;
    the failure is reported by the soft assertion on [image] alone, the
    one event after those of [prepareImage], and no call reaches the
    engine. *)
Theorem recognize_prepare_null {QImage : Type} (lib : Library QImage)
    (self : Tesseract) (source : QPixmap QImage) (w : World) :
  isValid self = true →
  isNull source = false →
  (prepareImage lib (toImage source) w).1 = nullptr →
  (recognize lib self source w).1.1 = [] ∧
  error (recognize lib self source w).1.2 = [] ∧
  trace (recognize lib self source w).2 =
    trace (prepareImage lib (toImage source) w).2 ++ [SoftAssertFailed "image"].
Proof.
  intros Hvalid Hnull Himage. rewrite (recognize_run lib) by done.
  destruct (prepareImage lib (toImage source) w) as [image w1].
  cbn in Himage. subst image. done.
Qed.

(** The witness of C2 as amended: an 8-bit indexed bitmap, for which the
    grayscale conversion of the reference environment fails. *)
Lemma recognize_prepare_null_witness :
  (recognize (Reference.library (qstr "text")) (mkTesseract (Some TessApi) [])
     (mkPixmap false Reference.imageIndexed)
     (Reference.world (8 * Reference.GiB))).1.1 = [] ∧
  error (recognize (Reference.library (qstr "text"))
           (mkTesseract (Some TessApi) [])
           (mkPixmap false Reference.imageIndexed)
           (Reference.world (8 * Reference.GiB))).1.2 = [].
Proof.
  destruct (recognize_prepare_null (Reference.library (qstr "text"))
              (mkTesseract (Some TessApi) [])
              (mkPixmap false Reference.imageIndexed)
              (Reference.world (8 * Reference.GiB))
              eq_refl eq_refl eq_refl) as (Htext & Herror & _).
  split; [exact Htext | exact Herror].
Defined.

(** C2, as stated, fails: in the reference environment [prepareImage]
    returns NULL for the 8-bit indexed bitmap, and after [recognize] the
    error field is not a non-empty error: it is empty. *)
Lemma recognize_prepare_null_counterexample :
  let lib := Reference.library (qstr "text") in
  let self := mkTesseract (Some TessApi) [] in
  let source := mkPixmap false Reference.imageIndexed in
  let w := Reference.world (8 * Reference.GiB) in
  (prepareImage lib (toImage source) w).1 = nullptr ∧
  ¬ ((recognize lib self source w).1.1 = [] ∧
     error (recognize lib self source w).1.2 ≠ []).
Proof. vm_compute. split; [done|]. intros [_ H]. by apply H. Qed.

(** C4, as amended: a call of [recognize] with a null pixmap returns the
    empty text, creates no buffer and makes no call of Leptonica or of the
    engine, the one event being the failed soft assertion; the session is
    left as it was, so the error field after the call is the error field
    before the call (empty when it was empty, as after a successful
    construction). *)
Theorem recognize_null_source {QImage : Type} (lib : Library QImage)
    (self : Tesseract) (source : QPixmap QImage) (w : World) :
  isNull source = true →
  recognize lib self source w =
    (([], self),
     mkWorld (live w) (freeMemory w)
       (trace w ++ [SoftAssertFailed
                      (if isValid self then "!source.isNull()"
                       else "engine_")])).
Proof.
  intros Hnull. unfold recognize. run. rewrite Hnull.
  by destruct (isValid self).
Qed.

(** The witness of C4 as amended: a fresh valid session. *)
Lemma recognize_null_source_witness :
  recognize (Reference.library (qstr "text")) (mkTesseract (Some TessApi) [])
    (mkPixmap true Reference.imageA) (Reference.world (8 * Reference.GiB)) =
  (([], mkTesseract (Some TessApi) []),
   mkWorld ∅ (8 * Reference.GiB) [SoftAssertFailed "!source.isNull()"]).
Proof.
  apply (recognize_null_source (Reference.library (qstr "text"))
           (mkTesseract (Some TessApi) []) (mkPixmap true Reference.imageA)
           (Reference.world (8 * Reference.GiB))).
  reflexivity.
Defined.

(** C4, as stated, fails: a session constructed for [eng] recognises
    scenario A, from which the engine extracts whitespace only, and is
    then called with a null pixmap. The second call returns the empty
    text and the error field still holds the message of the first. *)
Lemma recognize_null_source_counterexample :
  let lib := Reference.library (qstr "  ") in
  let w := Reference.world (8 * Reference.GiB) in
  let self := (Tesseract_new lib (qstr "eng") (qstr "tessdata") w).1 in
  let after :=
    recognize_twice lib self (mkPixmap false Reference.imageA)
      (mkPixmap true Reference.imageA) w in
  isValid self = true ∧ error self = [] ∧
  after.1.1 = [] ∧
  error after.1.2 = qstr "Failed to recognize text or no text selected" ∧
  error after.1.2 ≠ [].
Proof. vm_compute. repeat split; congruence. Qed.

(** C5: in a valid session, for a pixmap that is not null and whose
    preprocessing returns a buffer, [recognize] returns the text of the
    engine with the whitespace at both ends removed; the error field after
    the call is the (translated) message "Failed to recognize text or no
    text selected" if and only if that text is empty; and whitespace
    alone from the engine gives the empty text and that message. The
    translation of the message is taken not to be empty. *)
Theorem recognize_trims_and_reports {QImage : Type} (lib : Library QImage)
    (self : Tesseract) (source : QPixmap QImage) (w : World)
    (image : PixRef) :
  isValid self = true →
  isNull source = false →
  (prepareImage lib (toImage source) w).1 = Some image →
  lib_tr lib "Failed to recognize text or no text selected" ≠ [] →
  let outText := lib_text lib (obj image) in
  let text := (recognize lib self source w).1.1 in
  let self' := (recognize lib self source w).1.2 in
  text = trimmed outText ∧
  (∃ pre post : QString,
     outText = pre ++ text ++ post ∧
     forallb isSpace pre = true ∧ forallb isSpace post = true) ∧
  (∀ c : N, head text = Some c ∨ last text = Some c → isSpace c = false) ∧
  (error self' = lib_tr lib "Failed to recognize text or no text selected"
   ↔ text = []) ∧
  (forallb isSpace outText = true →
   text = [] ∧
   error self' = lib_tr lib "Failed to recognize text or no text selected") ∧
  isValid self' = true.
Proof.
  intros Hvalid Hnull Himage Htr. cbv zeta.
  rewrite (recognize_run lib) by done.
  destruct (prepareImage lib (toImage source) w) as [image' w1].
  cbn in Himage. subst image'. cbn [fst snd].
  set (text := trimmed (lib_text lib (obj image))).
  split; [done|]. split; [apply trimmed_split|].
  split; [apply trimmed_ends|].
  assert (Herr : error (if isEmpty text
                        then mkTesseract (engine_ self)
                               (lib_tr lib
                                  "Failed to recognize text or no text selected")
                        else mkTesseract (engine_ self) []) =
                 lib_tr lib "Failed to recognize text or no text selected"
                 ↔ text = []).
  { destruct text; cbn; [done|]. split; [|done]. intros E. by destruct Htr. }
  split; [exact Herr|]. split.
  - intros Hspace. assert (Ht : text = []) by (by apply trimmed_all_space).
    split; [done|]. by apply Herr.
  - by destruct (isEmpty text).
Qed.

(** The witness of C5: scenario D, whitespace alone from the engine. *)
Lemma recognize_trims_and_reports_witness :
  (recognize (Reference.library (qstr "  ")) (mkTesseract (Some TessApi) [])
     (mkPixmap false Reference.imageA)
     (Reference.world (8 * Reference.GiB))).1.1 = [] ∧
  error (recognize (Reference.library (qstr "  "))
           (mkTesseract (Some TessApi) [])
           (mkPixmap false Reference.imageA)
           (Reference.world (8 * Reference.GiB))).1.2
  = qstr "Failed to recognize text or no text selected".
Proof.
  assert (Htr : qstr "Failed to recognize text or no text selected" ≠ [])
    by done.
  destruct (recognize_trims_and_reports (Reference.library (qstr "  "))
              (mkTesseract (Some TessApi) [])
              (mkPixmap false Reference.imageA)
              (Reference.world (8 * Reference.GiB))
              (mkRef 2 (mkPix 5000 4000 8 500 500))
              eq_refl eq_refl ltac:(vm_compute; reflexivity) Htr)
    as (_ & _ & _ & _ & Hspace & _).
  exact (Hspace eq_refl).
Defined.

(** C10: a construction with an empty language or an empty data path
    returns through a soft assertion: the engine is never created
    ([isValid] is false), no call of [Init] is made and the error field
    is the empty string. A construction with both arguments present whose
    [Init] fails also leaves the session invalid, and sets the error to
    the (translated) message "init failed". *)
Theorem constructor_guard {QImage : Type} (lib : Library QImage)
    (language tessdataPath : QString) (w : World) :
  isEmpty language = true ∨ isEmpty tessdataPath = true →
  isValid (Tesseract_new lib language tessdataPath w).1 = false ∧
  error (Tesseract_new lib language tessdataPath w).1 = [] ∧
  trace (Tesseract_new lib language tessdataPath w).2 =
    trace w ++ [SoftAssertFailed
                  (if isEmpty tessdataPath then "!tessdataPath.isEmpty()"
                   else "!language.isEmpty()")] ∧
  (∀ language' tessdataPath' : QString,
     isEmpty language' = false →
     isEmpty tessdataPath' = false →
     lib_init lib tessdataPath' (lib_tesseractName lib language') ≠ 0 →
     isValid (Tesseract_new lib language' tessdataPath' w).1 = false ∧
     error (Tesseract_new lib language' tessdataPath' w).1 =
       lib_tr lib "init failed" ∧
     trace (Tesseract_new lib language' tessdataPath' w).2 =
       trace w ++ [CallInit tessdataPath' (lib_tesseractName lib language')]).
Proof.
  intros Hempty. unfold Tesseract_new, init. run.
  assert (Hguard : isEmpty tessdataPath = true ∨
                   isEmpty tessdataPath = false ∧ isEmpty language = true).
  { destruct (isEmpty tessdataPath); [by left|]. right.
    by destruct Hempty. }
  split; [|split; [|split]].
  - by destruct Hguard as [->|[-> ->]].
  - by destruct Hguard as [->|[-> ->]].
  - by destruct Hguard as [->|[-> ->]].
  - intros language' tessdataPath' Hlanguage Hpath Hinit.
    rewrite Hpath, Hlanguage. cbn. apply Z.eqb_neq in Hinit.
    by rewrite Hinit.
Qed.

(** The witness of C10: no language, and a language the reference engine
    has no data for. *)
Lemma constructor_guard_witness :
  isValid (Tesseract_new (Reference.library []) [] (qstr "tessdata")
             (Reference.world 0)).1 = false ∧
  error (Tesseract_new (Reference.library []) [] (qstr "tessdata")
           (Reference.world 0)).1 = [] ∧
  error (Tesseract_new (Reference.library []) (qstr "xx") (qstr "tessdata")
           (Reference.world 0)).1 = qstr "init failed".
Proof.
  destruct (constructor_guard (Reference.library []) [] (qstr "tessdata")
              (Reference.world 0) (or_introl eq_refl))
    as (Hvalid & Herror & _ & Hinit).
  split; [exact Hvalid|]. split; [exact Herror|].
  destruct (Hinit (qstr "xx") (qstr "tessdata") eq_refl eq_refl) as (_ & H & _).
  - vm_compute. discriminate.
  - exact H.
Defined.

(** * Further properties of the wrapper *)

(** ** [getScale]: the free-memory probe *)

Lemma leb_below_1 (a : double) (x : Q) :
  leb a (Fin x) = true → (x < 1)%Q → ltb a (Fin 1) = true.
Proof.
  destruct a as [y| | |]; try done. rewrite leb_Fin. intros Hy Hx.
  apply ltb_Fin. lra.
Qed.

Lemma available_below_1 (free : Z) :
  free ≤ 1 → ltb (mul (of_Z free) (literal 0.95)) (Fin 1) = true.
Proof.
  intros Hfree. rewrite literal_0_95.
  set (c := (4278419646001971 # 4503599627370496)%Q).
  assert (Havail : leb (mul (of_Z free) (Fin c)) (Fin c) = true).
  { apply leb_trans with (mul (of_Z 1) (Fin c)); [|by vm_compute].
    apply mul_leb_r; [done|]. by apply of_Z_leb. }
  by apply (leb_below_1 _ c Havail).
Qed.

(** X1: when the probe reports one byte or less (zero when
    /proc/meminfo cannot be read, -1 when the query of the memory status
    fails), [getScale] returns the sentinel -1.0 for every buffer. *)
Theorem getScale_no_memory (src : PixRef) (w : World) :
  freeMemory w ≤ 1 →
  getScale (Some src) w = (Fin (-1), w).
Proof.
  intros Hfree. unfold getScale. run.
  destruct (wrap_int32 _ =? 0); [done|].
  destruct (leb _ (Fin 1)); [done|].
  by rewrite (available_below_1 _ Hfree).
Qed.

(** The witness of X1: the probe reports -1. *)
Lemma getScale_no_memory_witness :
  getScale (Some (mkRef 0 (mkPix 1000 800 8 100 100))) (Reference.world (-1))
  = (Fin (-1), Reference.world (-1)).
Proof. apply getScale_no_memory. simpl. lia. Defined.

(** ** [getScale]: the range of the result *)

Lemma std_min_glb (l a b : double) :
  leb l a = true → leb l b = true → leb l (std_min a b) = true.
Proof. intros Ha Hb. unfold std_min. by destruct (ltb b a). Qed.

Lemma footprint_bound (p : Pix) : (footprint p < 2 ^ 29)%N.
Proof.
  unfold footprint.
  pose proof (wrap_uint32_bound (wrap_uint32 (pix_w p * pix_h p) * pix_d p)).
  apply N.Div0.div_lt_upper_bound. lia.
Qed.

(** The quotient 500.0 / d is at most 500.0 for the conversion d of an
    integer that is at least 1. *)
Lemma div_500_le_500 (m : Z) :
  1 ≤ m → leb (div (Fin 500) (of_Z m)) (Fin 500) = true.
Proof.
  intros Hm.
  assert (Hle : leb (Fin 1) (of_Z m) = true).
  { rewrite <- round_1. by apply of_Z_leb. }
  destruct (of_Z m) as [y| | |]; try done.
  apply leb_Fin in Hle. cbn [div]. rewrite Qeq_bool_pos by lra.
  rewrite <- round_500. apply round_leb. apply Qle_shift_div_r; lra.
Qed.

(** What [getScale] computes when it does not return the sentinel. *)
Lemma getScale_cases (src : PixRef) (w : World) :
  (getScale (Some src) w).1 = Fin (-1) ∨
  ∃ (q : Q) (avail : double),
    1 ≤ Z.min (pix_xres (obj src)) (pix_yres (obj src)) ∧
    div (Fin 500) (of_Z (Z.min (pix_xres (obj src)) (pix_yres (obj src))))
      = Fin q ∧
    (1 < q)%Q ∧ (q <= 500)%Q ∧
    avail = mul (of_Z (freeMemory w)) (literal 0.95) ∧
    leb (Fin 1) avail = true ∧
    (getScale (Some src) w).1 =
      std_min
        (std_min
           (std_min (Fin q) (div (of_Z INT_MAX) (of_N (pix_w (obj src)))))
           (std_min (Fin q) (div (of_Z INT_MAX) (of_N (pix_h (obj src))))))
        (div avail (of_N (footprint (obj src)))).
Proof.
  unfold getScale. run.
  destruct (wrap_int32 _ =? 0) eqn:Hprod; [by left|].
  apply wrap_int32_product_nonzero in Hprod.
  set (m := Z.min (pix_xres (obj src)) (pix_yres (obj src))) in *.
  destruct (leb _ (Fin 1)) eqn:Hpref; [by left|].
  assert (Hm : 1 ≤ m).
  { destruct (Z_lt_le_dec m 0) as [Hneg|Hpos]; [|lia].
    rewrite preferred_scale_le_1 in Hpref by lia. done. }
  destruct (div_500_finite m Hprod) as [q Hq].
  pose proof (div_500_le_500 m Hm) as Hq500.
  rewrite Hq in *. apply leb_Fin in Hq500.
  assert (Hq1 : (1 < q)%Q).
  { unfold std_max in Hpref. destruct (ltb (Fin q) (Fin 1)) eqn:E.
    - by rewrite (leb_refl (Fin 1)) in Hpref.
    - apply Qle_bool_false. exact Hpref. }
  assert (HP : std_max (Fin q) (Fin 1) = Fin q).
  { unfold std_max. by rewrite (leb_not_ltb (Fin 1) (Fin q))
      by (apply leb_Fin; lra). }
  rewrite HP.
  set (avail := mul (of_Z (freeMemory w)) (literal 0.95)).
  assert (Havail : is_nan avail = false).
  { subst avail. rewrite literal_0_95.
    apply is_nan_mul_pos; [done|apply is_nan_round]. }
  destruct (ltb avail (Fin 1)) eqn:Hmem; [by left|].
  right. exists q, avail. cbn [fst].
  repeat split; try done. by apply not_ltb_leb.
Qed.

Lemma axis_clamp_lower (n : N) :
  (n < 2 ^ 32)%N → leb (Fin (1 # 4)) (div (of_Z INT_MAX) (of_N n)) = true.
Proof.
  intros Hn. rewrite of_Z_INT_MAX, of_N_exact by lia.
  set (n' := Qred (inject_Z (Z.of_N n))).
  assert (Hn' : (n' == inject_Z (Z.of_N n))%Q) by apply Qred_correct.
  cbn [div]. destruct (Qeq_bool n' 0) eqn:E; [done|].
  assert (Hnz : ¬ (n' == 0)%Q).
  { intros H. apply Qeq_bool_iff in H. congruence. }
  assert (Hpos : (0 < n')%Q).
  { rewrite Hn' in *. change 0%Q with (inject_Z 0) in *.
    rewrite <- Zlt_Qlt. rewrite inject_Z_injective in Hnz. lia. }
  assert (Hup : (n' < 4294967296)%Q).
  { rewrite Hn'. change 4294967296%Q with (inject_Z (2 ^ 32)).
    rewrite <- Zlt_Qlt. lia. }
  change (Fin (1 # 4)) with (round (1 # 4)). apply round_leb.
  apply Qle_shift_div_l; lra.
Qed.

Lemma memory_bound_lower (avail : double) (n : N) :
  leb (Fin 1) avail = true → (n < 2 ^ 29)%N →
  leb (Fin (1 # 536870912)) (div avail (of_N n)) = true.
Proof.
  intros Havail Hn. rewrite of_N_exact by lia.
  set (n' := Qred (inject_Z (Z.of_N n))).
  assert (Hn' : (n' == inject_Z (Z.of_N n))%Q) by apply Qred_correct.
  assert (Hnn : (0 <= n')%Q).
  { rewrite Hn'. change 0%Q with (inject_Z 0). rewrite <- Zle_Qle. lia. }
  destruct avail as [a| | |]; try done; cbn [div].
  - apply leb_Fin in Havail.
    destruct (Qeq_bool n' 0) eqn:E; [by rewrite Qsign_inf_pos by lra|].
    assert (Hnz : ¬ (n' == 0)%Q).
    { intros H. apply Qeq_bool_iff in H. congruence. }
    assert (Hup : (n' < 536870912)%Q).
    { rewrite Hn'. change 536870912%Q with (inject_Z (2 ^ 29)).
      rewrite <- Zlt_Qlt. lia. }
    change (Fin (1 # 536870912)) with (round (1 # 536870912)).
    apply round_leb. apply Qle_shift_div_l; lra.
  - by rewrite Qltb_pos.
Qed.

(** X2: for a buffer whose dimensions fit [l_uint32], [getScale]
    returns either the sentinel -1.0 or a finite scale that is positive
    and at most 500.0; it never returns NaN or an infinity, also when the
    width, the height or the 32-bit footprint is zero and a quotient is
    infinite. *)
Theorem getScale_range (src : PixRef) (w : World) :
  (pix_w (obj src) < 2 ^ 32)%N →
  (pix_h (obj src) < 2 ^ 32)%N →
  (getScale (Some src) w).1 = Fin (-1) ∨
  ∃ s : Q, (getScale (Some src) w).1 = Fin s ∧ (0 < s)%Q ∧ (s <= 500)%Q.
Proof.
  intros Hw Hh.
  destruct (getScale_cases src w)
    as [Hs|(q & avail & Hm & Hq & Hq1 & Hq500 & _ & Havail & ->)];
    [by left|right].
  set (MX := div (of_Z INT_MAX) (of_N (pix_w (obj src)))).
  set (MY := div (of_Z INT_MAX) (of_N (pix_h (obj src)))).
  set (MEM := div avail (of_N (footprint (obj src)))).
  set (l := Fin (1 # 536870912)).
  assert (Hlq : leb l (Fin q) = true) by (apply leb_Fin; lra).
  assert (HlX : leb l MX = true).
  { apply leb_trans with (Fin (1 # 4)); [done|by apply axis_clamp_lower]. }
  assert (HlY : leb l MY = true).
  { apply leb_trans with (Fin (1 # 4)); [done|by apply axis_clamp_lower]. }
  assert (HlM : leb l MEM = true).
  { apply memory_bound_lower; [done|apply footprint_bound]. }
  set (r := std_min (std_min (std_min (Fin q) MX) (std_min (Fin q) MY)) MEM).
  assert (Hlr : leb l r = true).
  { subst r. apply std_min_glb; [apply std_min_glb|exact HlM];
      apply std_min_glb; assumption. }
  destruct (leb_nan _ _ HlX) as [_ HMX].
  destruct (leb_nan _ _ HlY) as [_ HMY].
  assert (HSX : is_nan (std_min (Fin q) MX) = false).
  { apply std_min_nan; [reflexivity|exact HMX]. }
  assert (HSY : is_nan (std_min (Fin q) MY) = false).
  { apply std_min_nan; [reflexivity|exact HMY]. }
  assert (Hrq : leb r (Fin q) = true).
  { apply leb_trans with (std_min (std_min (Fin q) MX) (std_min (Fin q) MY)).
    - apply std_min_leb_l. apply std_min_nan; assumption.
    - apply leb_trans with (std_min (Fin q) MX).
      + apply std_min_leb_l. exact HSX.
      + apply std_min_leb_l. reflexivity. }
  destruct (leb_sandwich _ _ r Hlr Hrq) as [s Hs]. rewrite Hs in *.
  apply leb_Fin in Hlr, Hrq. exists s. split; [done|]. split; lra.
Qed.

(** The witness of X2: a buffer of width zero, for which the clamp of
    the horizontal axis is infinite. *)
Lemma getScale_range_witness :
  (getScale (Some (mkRef 0 (mkPix 0 800 8 1 1))) (Reference.world (2 ^ 50))).1
    = Fin (-1) ∨
  ∃ s : Q,
    (getScale (Some (mkRef 0 (mkPix 0 800 8 1 1)))
       (Reference.world (2 ^ 50))).1 = Fin s ∧ (0 < s)%Q ∧ (s <= 500)%Q.
Proof.
  apply (getScale_range (mkRef 0 (mkPix 0 800 8 1 1))
           (Reference.world (2 ^ 50))); reflexivity.
Defined.

(** ** [getScale]: the memory bound *)

(** When the free memory reported by the probe is no more than the
    footprint of the buffer, the result of [getScale] is not above 1.0. *)
Lemma getScale_memory_bound (src : PixRef) (w : World) :
  freeMemory w ≤ Z.of_N (footprint (obj src)) →
  ltb (Fin 1) (getScale (Some src) w).1 = false.
Proof.
  intros Hfree.
  destruct (getScale_cases src w)
    as [->|(q & avail & Hm & Hq & Hq1 & Hq500 & Hav & Havail & ->)]; [done|].
  destruct (Z_le_gt_dec (freeMemory w) 1) as [Hlow|Hhigh].
  { apply leb_not_ltb in Havail.
    rewrite Hav, (available_below_1 _ Hlow) in Havail. discriminate. }
  pose proof (footprint_bound (obj src)) as Hsize.
  set (size := footprint (obj src)) in *.
  set (MX := div (of_Z INT_MAX) (of_N (pix_w (obj src)))).
  set (MY := div (of_Z INT_MAX) (of_N (pix_h (obj src)))).
  assert (HMX : is_nan MX = false).
  { subst MX. rewrite of_Z_INT_MAX.
    apply is_nan_div_pos; [reflexivity|apply is_nan_round]. }
  assert (HMY : is_nan MY = false).
  { subst MY. rewrite of_Z_INT_MAX.
    apply is_nan_div_pos; [reflexivity|apply is_nan_round]. }
  assert (HS : is_nan (std_min (std_min (Fin q) MX) (std_min (Fin q) MY))
               = false).
  { apply std_min_nan; apply std_min_nan; (reflexivity || assumption). }
  (* the free memory, and 95% of it, are below the footprint *)
  assert (Hexact : of_Z (Z.of_N size) = Fin (Qred (inject_Z (Z.of_N size))))
    by (apply of_Z_exact; lia).
  set (n := Qred (inject_Z (Z.of_N size))) in *.
  assert (Hn : (n == inject_Z (Z.of_N size))%Q) by apply Qred_correct.
  assert (Hn2 : (2 <= n)%Q).
  { rewrite Hn. change 2%Q with (inject_Z 2). rewrite <- Zle_Qle. lia. }
  assert (Hle : leb avail (Fin n) = true).
  { rewrite Hav, literal_0_95.
    apply leb_trans
      with (mul (of_Z (Z.of_N size))
              (Fin (4278419646001971 # 4503599627370496))).
    - apply mul_leb_r; [reflexivity|]. by apply of_Z_leb.
    - rewrite Hexact. fold n. cbn [mul]. rewrite <- Hexact.
      apply round_leb. rewrite <- Hn.
      rewrite <- (Qmult_1_r n) at 2. apply Qmult_le_l; lra. }
  assert (HMEM : leb (div avail (of_N size)) (Fin 1) = true).
  { unfold of_N. rewrite Hexact.
    apply leb_trans with (div (Fin n) (Fin n)).
    - apply div_leb_r; [lra|exact Hle].
    - cbn [div]. rewrite Qeq_bool_pos by lra. rewrite <- round_1.
      apply round_leb. apply Qle_shift_div_r; lra. }
  apply leb_not_ltb.
  apply leb_trans with (div avail (of_N size)); [|exact HMEM].
  apply std_min_leb_r; [exact HS|].
  by destruct (leb_nan _ _ HMEM).
Qed.

(** X3: when both conversions succeed and the free memory reported by
    the probe is no more than the footprint of the grayscale buffer
    ([w * h * d / 8] bytes in 32-bit arithmetic), [prepareImage] returns
    the grayscale buffer as it is and makes no call of [pixScale]. *)
Theorem prepareImage_memory_bound {QImage : Type} (lib : Library QImage)
    (image : QImage) (w : World) (p g : Pix) :
  lib_readBmp lib image = Some p →
  lib_rgbToGray lib p = Some g →
  freeMemory w ≤ Z.of_N (footprint g) →
  let ap := fresh (live w) in
  let ag := fresh ({[ap]} ∪ live w) in
  prepareImage lib image w =
    (Some (mkRef ag g),
     mkWorld (({[ag]} ∪ ({[ap]} ∪ live w)) ∖ {[ap]}) (freeMemory w)
       (trace w ++ [CallPixReadMemBmp; CallPixConvertRGBToGray ap;
                    CallPixDestroy ap])).
Proof.
  intros Hp Hg Hfree ap ag.
  rewrite (prepareImage_gray lib image w p g Hp Hg).
  by rewrite getScale_memory_bound.
Qed.

(** The witness of X3: scenario A with 800,000 bytes free, the footprint
    of the grayscale buffer. *)
Lemma prepareImage_memory_bound_witness :
  (prepareImage (Reference.library []) Reference.imageA
     (Reference.world 800000)).1
  = Some (mkRef 1 (mkPix 1000 800 8 100 100)).
Proof.
  rewrite (prepareImage_memory_bound (Reference.library [])
             Reference.imageA (Reference.world 800000)
             Reference.imageA (mkPix 1000 800 8 100 100) eq_refl eq_refl).
  - vm_compute. reflexivity.
  - vm_compute. discriminate.
Defined.

(** ** [prepareImage]: when it fails and what it leaves *)

(** X4: [prepareImage] returns NULL exactly when the conversion of the
    source or the grayscale conversion returns NULL; a failure of
    [pixScale] is never a failure of [prepareImage]. *)
Theorem prepareImage_null_iff {QImage : Type} (lib : Library QImage)
    (image : QImage) (w : World) :
  (prepareImage lib image w).1 = nullptr ↔
  lib_readBmp lib image = None ∨
  ∃ p : Pix, lib_readBmp lib image = Some p ∧ lib_rgbToGray lib p = None.
Proof.
  destruct (lib_readBmp lib image) as [p|] eqn:Hp.
  - destruct (lib_rgbToGray lib p) as [g|] eqn:Hg.
    + rewrite (prepareImage_gray lib image w p g Hp Hg). split.
      * by destruct (ltb _ _); [destruct (lib_scale _ _ _ _)|].
      * intros [?|(p' & [= <-] & Hg')]; congruence.
    + rewrite (prepareImage_no_gray lib image w p Hp Hg). split; [|done].
      intros _. right. by exists p.
  - rewrite (prepareImage_no_pix lib image w Hp). split; [by left|done].
Qed.

Lemma prepareImage_gray_live {QImage : Type} (lib : Library QImage)
    (image : QImage) (w : World) (p g : Pix) :
  lib_readBmp lib image = Some p →
  lib_rgbToGray lib p = Some g →
  live (prepareImage lib image w).2 =
    from_option (λ r, {[addr r]}) ∅ (prepareImage lib image w).1 ∪ live w ∧
  ∀ r, (prepareImage lib image w).1 = Some r → addr r ∉ live w.
Proof.
  intros Hp Hg.
  - rewrite (prepareImage_gray lib image w p g Hp Hg).
    set (ap := fresh (live w)).
    set (L1 := {[ap]} ∪ live w).
    set (ag := fresh L1).
    set (L2 := ({[ag]} ∪ L1) ∖ {[ap]}).
    set (ar := fresh L2).
    assert (Hap : ap ∉ live w) by apply is_fresh.
    assert (Hag : ag ≠ ap ∧ ag ∉ live w).
    { pose proof (is_fresh L1) as H. fold ag in H. subst L1.
      rewrite elem_of_union, elem_of_singleton in H. tauto. }
    assert (HL2 : L2 = {[ag]} ∪ live w).
    { subst L2 L1. apply set_eq. intros x.
      rewrite elem_of_difference, !elem_of_union, !elem_of_singleton.
      split; [intros [[?|[?|?]] ?]; tauto|].
      intros [->|Hx]; [tauto|]. split; [tauto|]. intros ->. tauto. }
    assert (Har : ar ≠ ag ∧ ar ∉ live w).
    { pose proof (is_fresh L2) as H. fold ar in H. rewrite HL2 in H.
      rewrite elem_of_union, elem_of_singleton in H. tauto. }
    clearbody ap ag ar L2. subst L2. clear L1.
    destruct (ltb _ _); [destruct (lib_scale _ _ _ _) as [r|]|]; cbn.
    + split; [|intros r' [= <-]; cbn; tauto].
      apply set_eq. intros x.
      rewrite elem_of_difference, !elem_of_union, !elem_of_singleton.
      split; [intros [[?|[?|?]] ?]; tauto|].
      intros [->|Hx]; [tauto|]. split; [tauto|]. intros ->. tauto.
    + split; [done|]. intros r' [= <-]. cbn. tauto.
    + split; [done|]. intros r' [= <-]. cbn. tauto.
Qed.

(** X5: when the grayscale conversion does not fail, the buffers live
    after [prepareImage] are those live before and the buffer returned,
    which is a new one: no buffer of the caller is destroyed and no
    intermediate buffer is left. *)
Theorem prepareImage_owns_result {QImage : Type} (lib : Library QImage)
    (image : QImage) (w : World) :
  (∀ p, lib_readBmp lib image = Some p → is_Some (lib_rgbToGray lib p)) →
  live (prepareImage lib image w).2 =
    from_option (λ r, {[addr r]}) ∅ (prepareImage lib image w).1 ∪ live w ∧
  ∀ r, (prepareImage lib image w).1 = Some r → addr r ∉ live w.
Proof.
  intros Hgray.
  destruct (lib_readBmp lib image) as [p|] eqn:Hp.
  - destruct (Hgray p eq_refl) as [g Hg].
    by apply (prepareImage_gray_live lib image w p g).
  - rewrite (prepareImage_no_pix lib image w Hp). cbn.
    split; [|done]. apply set_eq. intros x.
    rewrite elem_of_union, elem_of_empty. tauto.
Qed.

(** The witness of X5: scenario A in the reference environment, with a
    buffer of the caller at address 0. *)
Lemma prepareImage_owns_result_witness :
  live (prepareImage (Reference.library []) Reference.imageA
          (mkWorld {[0%nat]} (8 * Reference.GiB) [])).2 =
    from_option (λ r, {[addr r]}) ∅
      (prepareImage (Reference.library []) Reference.imageA
         (mkWorld {[0%nat]} (8 * Reference.GiB) [])).1 ∪ {[0%nat]}.
Proof.
  refine (proj1 (prepareImage_owns_result (Reference.library [])
                   Reference.imageA
                   (mkWorld {[0%nat]} (8 * Reference.GiB) []) _)).
  intros p [= <-]. by eexists.
Defined.

(** ** [recognize]: buffers, text and error *)

(** X6: a call of [recognize] in a valid session on a pixmap that is not
    null, for which the grayscale conversion does not fail, leaves
    exactly the buffers that were live before the call: the prepared
    buffer is destroyed after the engine has read it, and when the
    conversion of the source fails nothing was created. *)
Theorem recognize_releases {QImage : Type} (lib : Library QImage)
    (self : Tesseract) (source : QPixmap QImage) (w : World) :
  isValid self = true →
  isNull source = false →
  (∀ p, lib_readBmp lib (toImage source) = Some p →
        is_Some (lib_rgbToGray lib p)) →
  live (recognize lib self source w).2 = live w.
Proof.
  intros Hvalid Hnull Hgray. rewrite (recognize_run lib) by done.
  destruct (lib_readBmp lib (toImage source)) as [p|] eqn:Hp.
  - destruct (Hgray p eq_refl) as [g Hg].
    destruct (prepareImage_gray_live lib (toImage source) w p g Hp Hg)
      as [Hlive Hnew].
    destruct (prepareImage lib (toImage source) w) as [[img|] w1]; cbn in *.
    + rewrite Hlive. specialize (Hnew img eq_refl).
      apply set_eq. intros x.
      rewrite elem_of_difference, elem_of_union, elem_of_singleton.
      split; [tauto|]. intros Hx. split; [tauto|]. by intros ->.
    + rewrite Hlive. apply set_eq. intros x.
      rewrite elem_of_union, elem_of_empty. tauto.
  - by rewrite (prepareImage_no_pix lib (toImage source) w Hp).
Qed.

(** The witness of X6: scenario A in the reference environment. *)
Lemma recognize_releases_witness :
  live (recognize (Reference.library (qstr "text"))
          (mkTesseract (Some TessApi) []) (mkPixmap false Reference.imageA)
          (Reference.world (8 * Reference.GiB))).2 = ∅.
Proof.
  apply (recognize_releases (Reference.library (qstr "text"))
           (mkTesseract (Some TessApi) []) (mkPixmap false Reference.imageA)
           (Reference.world (8 * Reference.GiB)) eq_refl eq_refl).
  intros p [= <-]. by eexists.
Defined.

(** X7: whatever the session and the pixmap, a text that is not empty is
    returned by a valid session only, and the error field is empty after
    the call that returns it. *)
Theorem recognize_text_no_error {QImage : Type} (lib : Library QImage)
    (self : Tesseract) (source : QPixmap QImage) (w : World) :
  (recognize lib self source w).1.1 ≠ [] →
  isValid self = true ∧ isNull source = false ∧
  error (recognize lib self source w).1.2 = [].
Proof.
  destruct (isValid self) eqn:Hvalid.
  - destruct (isNull source) eqn:Hnull.
    + unfold recognize. run. by rewrite Hvalid, Hnull.
    + rewrite (recognize_run lib) by done.
      destruct (prepareImage lib (toImage source) w) as [[img|] w1];
        cbn; [|done].
      by destruct (trimmed _).
  - unfold recognize. run. by rewrite Hvalid.
Qed.

(** The witness of X7: scenario A, from which the engine extracts the
    text "text". *)
Lemma recognize_text_no_error_witness :
  error (recognize (Reference.library (qstr "text"))
           (mkTesseract (Some TessApi) (qstr "old"))
           (mkPixmap false Reference.imageA)
           (Reference.world (8 * Reference.GiB))).1.2 = [].
Proof.
  refine (proj2 (proj2 (recognize_text_no_error
                          (Reference.library (qstr "text"))
                          (mkTesseract (Some TessApi) (qstr "old"))
                          (mkPixmap false Reference.imageA)
                          (Reference.world (8 * Reference.GiB)) _))).
  vm_compute. discriminate.
Defined.

(** ** The session over many calls *)

Lemma recognize_isValid {QImage : Type} (lib : Library QImage)
    (self : Tesseract) (source : QPixmap QImage) (w : World) :
  isValid (recognize lib self source w).1.2 = isValid self.
Proof.
  destruct (isValid self) eqn:Hvalid.
  - destruct (isNull source) eqn:Hnull.
    + unfold recognize. run. by rewrite Hvalid, Hnull.
    + rewrite (recognize_run lib) by done.
      destruct (prepareImage lib (toImage source) w) as [[img|] w1];
        cbn; [|done].
      by destruct (isEmpty _).
  - unfold recognize. run. by rewrite Hvalid.
Qed.

(** X8: over any sequence of calls of [recognize] the session stays
    valid when it was valid and invalid when it was invalid: no call
    creates or resets the engine. *)
Theorem recognize_all_isValid {QImage : Type} (lib : Library QImage)
    (sources : list (QPixmap QImage)) (self : Tesseract) (w : World) :
  isValid (recognize_all lib self sources w).1.2 = isValid self.
Proof.
  revert self w. induction sources as [|source rest IH]; intros self w.
  - done.
  - cbn [recognize_all]. unfold mbind, M_bind, mret, M_ret.
    pose proof (recognize_isValid lib self source w) as Hstep.
    destruct (recognize lib self source w) as [r w1].
    pose proof (IH r.2 w1) as Hrest.
    destruct (recognize_all lib r.2 rest w1) as [rs w2].
    cbn in *. congruence.
Qed.

(** X9: a session without an engine (the construction was guarded out
    or [Init] failed) answers every call of a sequence with the empty
    text, whatever the pixmaps; it keeps its error field, creates and
    destroys no buffer, and each call adds the one failed soft assertion
    on [engine_] to the trace: no call reaches Leptonica or the
    engine. *)
Theorem recognize_all_invalid {QImage : Type} (lib : Library QImage)
    (sources : list (QPixmap QImage)) (self : Tesseract) (w : World) :
  isValid self = false →
  recognize_all lib self sources w =
    ((const [] <$> sources, self),
     mkWorld (live w) (freeMemory w)
       (trace w ++ (const (SoftAssertFailed "engine_") <$> sources))).
Proof.
  intros Hvalid. revert w. induction sources as [|source rest IH]; intros w.
  - cbn. rewrite app_nil_r. by destruct w.
  - cbn [recognize_all]. unfold mbind, M_bind, mret, M_ret.
    unfold recognize at 1. run. rewrite Hvalid. rewrite IH. cbn.
    by rewrite <- app_assoc.
Qed.

(** The witness of X9: the session constructed for a language the
    reference engine has no data for, called twice. *)
Lemma recognize_all_invalid_witness :
  (recognize_all (Reference.library (qstr "text"))
     (mkTesseract None (qstr "init failed"))
     [mkPixmap false Reference.imageA; mkPixmap true Reference.imageA]
     (Reference.world (8 * Reference.GiB))).1
  = ([[]; []], mkTesseract None (qstr "init failed")).
Proof.
  rewrite (recognize_all_invalid (Reference.library (qstr "text"))
             [mkPixmap false Reference.imageA; mkPixmap true Reference.imageA]
             (mkTesseract None (qstr "init failed"))
             (Reference.world (8 * Reference.GiB)) eq_refl).
  reflexivity.
Defined.

(** ** The construction of the session *)

(** X10: the session is valid after the construction exactly when the
    data path and the language are not empty and [Init] returns 0; the
    error field of a valid session is empty, and the error field after
    any construction is either empty or the message "init failed". *)
Theorem constructor_valid_iff {QImage : Type} (lib : Library QImage)
    (language tessdataPath : QString) (w : World) :
  (isValid (Tesseract_new lib language tessdataPath w).1 = true ↔
   isEmpty tessdataPath = false ∧ isEmpty language = false ∧
   lib_init lib tessdataPath (lib_tesseractName lib language) = 0) ∧
  (isValid (Tesseract_new lib language tessdataPath w).1 = true ∨
   error (Tesseract_new lib language tessdataPath w).1
     = lib_tr lib "init failed" ∨
   error (Tesseract_new lib language tessdataPath w).1 = []) ∧
  (isValid (Tesseract_new lib language tessdataPath w).1 = true →
   error (Tesseract_new lib language tessdataPath w).1 = []).
Proof.
  unfold Tesseract_new, init. run.
  destruct (isEmpty tessdataPath); cbn.
  { split; [split; [done|by intros [? _]]|]. split; [by right; right|done]. }
  destruct (isEmpty language); cbn.
  { split; [split; [done|by intros (_ & ? & _)]|].
    split; [by right; right|done]. }
  destruct (Z.eqb_spec
              (lib_init lib tessdataPath (lib_tesseractName lib language)) 0)
    as [Hinit|Hinit]; cbn.
  - split; [done|]. split; [by left|done].
  - split; [split; [done|by intros (_ & _ & ?)]|].
    split; [by right; left|done].
Qed.

(** ** The probe on Linux *)

Module LinuxFacts.
Import Linux.


Lemma skipws_spec (s : list ascii) :
  ∃ ws, s = ws ++ skipws s ∧ Forall (λ c, isspace c = true) ws.
Proof.
  induction s as [|c s (ws & Hs & Hws)]; [by exists []|].
  cbn. destruct (isspace c) eqn:Hc.
  - exists (c :: ws). split; [cbn; by f_equal|by constructor].
  - by exists [].
Qed.

Lemma skipws_app (ws s : list ascii) :
  Forall (λ c, isspace c = true) ws → skipws (ws ++ s) = skipws s.
Proof. induction 1 as [|c ws Hc _ IH]; [done|]. cbn. by rewrite Hc. Qed.

Lemma skipws_solid (c : ascii) (s : list ascii) :
  isspace c = false → skipws (c :: s) = c :: s.
Proof. intros Hc. cbn. by rewrite Hc. Qed.

Lemma span_spec (p : ascii → bool) (s : list ascii) :
  s = (span p s).1 ++ (span p s).2.
Proof.
  induction s as [|c s IH]; [done|]. cbn. destruct (p c); [|done].
  destruct (span p s) as [t r]. cbn in *. by rewrite IH at 1.
Qed.

Lemma span_app (p : ascii → bool) (t : list ascii) (c : ascii)
    (s : list ascii) :
  Forall (λ x, p x = true) t → p c = false →
  span p (t ++ c :: s) = (t, c :: s).
Proof.
  intros Ht Hc. induction Ht as [|x t Hx _ IH]; cbn.
  - by rewrite Hc.
  - by rewrite Hx, IH.
Qed.

Lemma span_all (p : ascii → bool) (t : list ascii) :
  Forall (λ x, p x = true) t → span p t = (t, []).
Proof. induction 1 as [|x t Hx _ IH]; cbn; [done|]. by rewrite Hx, IH. Qed.

(** What an extraction leaves in the stream is a suffix of what was
    there, and a successful extraction of a token has taken at least one
    character. *)
Lemma extract_string_chars (f f' : ifstream) (t : list ascii) :
  extract_string f = (Some t, f') →
  failbit f' = false ∧ t ≠ [] ∧ ∃ ws, chars f = ws ++ t ++ chars f'.
Proof.
  unfold extract_string. destruct (failbit f); [done|].
  destruct (skipws_spec (chars f)) as (ws & Hs & _).
  pose proof (span_spec (λ c, negb (isspace c)) (skipws (chars f))) as Hsp.
  destruct (span _ (skipws (chars f))) as [[|c t'] r]; [done|].
  intros [= <- <-]. cbn in *. split; [done|]. split; [done|].
  exists ws. by rewrite Hs at 1; rewrite Hsp.
Qed.

Lemma extract_ulong_chars (f : ifstream) :
  ∃ pre, chars f = pre ++ chars (extract_ulong f).2.
Proof.
  unfold extract_ulong. destruct (failbit f); [by exists []|].
  destruct (skipws_spec (chars f)) as (ws & Hs & _).
  set (s := skipws (chars f)) in *.
  assert (Hsign : ∃ sg, s = sg ++
    (match s with
     | c :: s' =>
         if Ascii.eqb c "-" then (true, s')
         else if Ascii.eqb c "+" then (false, s') else (false, s)
     | [] => (false, s)
     end).2).
  { destruct s as [|c s']; [by exists []|].
    destruct (Ascii.eqb c "-"); [by exists [c]|].
    destruct (Ascii.eqb c "+"); [by exists [c]|by exists []]. }
  destruct Hsign as (sg & Hsg).
  destruct (match s with [] => _ | _ => _ end) as [negative s1].
  cbn in Hsg. pose proof (span_spec isdigit s1) as Hsp.
  assert (Hall : chars f = (ws ++ sg ++ (span isdigit s1).1)
                             ++ (span isdigit s1).2).
  { rewrite Hs at 1. rewrite Hsg, Hsp at 1. by rewrite <- !app_assoc. }
  destruct (span isdigit s1) as [[|d ds] r]; cbn in *.
  - by eexists.
  - destruct (_ <? _)%N; cbn; by eexists.
Qed.

(** The loop ends on every file: each round extracts at least one
    character. *)
Lemma read_total (n : nat) : ∀ (f : ifstream) (z : Z),
  (length (chars f) < n)%nat → is_Some (read n f z).
Proof.
  induction n as [|n IH]; intros f z Hn; [lia|]. cbn.
  destruct (extract_string f) as [[t|] f1] eqn:E; [|done].
  destruct (extract_string_chars _ _ _ E) as (_ & Ht & ws & Hf).
  assert (length (chars f1) < length (chars f))%nat.
  { rewrite Hf, !length_app. destruct t; [done|]. cbn. lia. }
  destruct (is_key t).
  - destruct (extract_ulong_chars f1) as (pre & Hpre).
    destruct (extract_ulong f1) as [mem f2]. cbn in Hpre.
    apply IH. rewrite Hpre, length_app in *. lia.
  - apply IH. lia.
Qed.

Lemma read_mono (n : nat) : ∀ (m : nat) (f : ifstream) (z r : Z),
  read n f z = Some r → (n ≤ m)%nat → read m f z = Some r.
Proof.
  induction n as [|n IH]; intros m f z r Hr Hm; [done|].
  destruct m as [|m]; [lia|]. cbn in *.
  destruct (extract_string f) as [[t|] f1]; [|done].
  destruct (is_key t).
  - destruct (extract_ulong f1) as [mem f2]. apply IH; [done|lia].
  - apply IH; [done|lia].
Qed.

Lemma read_unique (n m : nat) (f : ifstream) (z r r' : Z) :
  read n f z = Some r → read m f z = Some r' → r = r'.
Proof.
  intros Hn Hm.
  apply (read_mono _ (n `max` m)) in Hn; [|lia].
  apply (read_mono _ (n `max` m)) in Hm; [|lia]. congruence.
Qed.

Lemma wrap_int64_small (z : Z) :
  - 2 ^ 63 ≤ z < 2 ^ 63 → wrap_int64 z = z.
Proof. intros Hz. unfold wrap_int64. rewrite Z.mod_small; lia. Qed.

Lemma wrap_int64_1024 (z : Z) : ∃ k, wrap_int64 (z * 1024) = 1024 * k.
Proof.
  exists ((z + 2 ^ 53) mod 2 ^ 54 - 2 ^ 53). unfold wrap_int64.
  replace (z * 1024 + 2 ^ 63) with (1024 * (z + 2 ^ 53)) by lia.
  replace (2 ^ 64) with (1024 * 2 ^ 54) by lia.
  rewrite Z.mul_mod_distr_l by lia. lia.
Qed.

(** *** Decimal numerals *)

Lemma decimal_snoc (ds : list ascii) (acc : N) :
  fold_left (λ acc c, 10 * acc + (N_of_ascii c - 48))%N ds acc
  = (acc * 10 ^ N.of_nat (length ds) + decimal ds)%N.
Proof.
  unfold decimal. revert acc.
  induction ds as [|c ds IH]; intros acc; cbn [fold_left length].
  - cbn. lia.
  - rewrite IH, (IH (10 * 0 + _)%N), Nat2N.inj_succ, N.pow_succ_r'. lia.
Qed.

Lemma decimal_cons (c : ascii) (ds : list ascii) :
  decimal (c :: ds)
  = ((N_of_ascii c - 48) * 10 ^ N.of_nat (length ds) + decimal ds)%N.
Proof. unfold decimal at 1. cbn [fold_left]. rewrite decimal_snoc. lia. Qed.

Ltac digit_value :=
  match goal with
  | |- context [N_of_ascii ?c] =>
      let v := eval vm_compute in (N_of_ascii c) in
      change (N_of_ascii c) with v
  end.

Ltac numeral_cons d :=
  unfold numeral;
  cbn [DecimalString.NilEmpty.string_of_uint list_ascii_of_string];
  fold (numeral d).

Lemma numeral_of_uint_acc (d : Decimal.uint) : ∀ acc : positive,
  N.pos (Pos.of_uint_acc d acc)
  = (N.pos acc * 10 ^ N.of_nat (length (numeral d)) + decimal (numeral d))%N.
Proof.
  induction d as [|d IH|d IH|d IH|d IH|d IH|d IH|d IH|d IH|d IH|d IH];
    intros acc; [cbn; lia|..];
    cbn [Pos.of_uint_acc]; rewrite IH;
    numeral_cons d;
    rewrite decimal_cons; cbn [length];
    rewrite Nat2N.inj_succ, N.pow_succ_r'; digit_value; lia.
Qed.

Lemma numeral_of_uint (d : Decimal.uint) :
  decimal (numeral d) = N.of_uint d.
Proof.
  unfold N.of_uint.
  induction d as [|d IH|d IH|d IH|d IH|d IH|d IH|d IH|d IH|d IH|d IH];
    [done|..];
    numeral_cons d;
    rewrite decimal_cons; cbn [Pos.of_uint];
    rewrite ?numeral_of_uint_acc; digit_value; lia.
Qed.

Lemma numeral_digits (d : Decimal.uint) :
  Forall (λ c, isdigit c = true) (numeral d).
Proof.
  induction d; [constructor|..];
    numeral_cons d; by constructor.
Qed.

Lemma decimal_string_spec (v : N) :
  decimal (decimal_string v) = v ∧
  Forall (λ c, isdigit c = true) (decimal_string v) ∧
  decimal_string v ≠ [].
Proof.
  unfold decimal_string.
  split; [|split].
  - by rewrite numeral_of_uint, DecimalN.Unsigned.of_to.
  - apply numeral_digits.
  - destruct v as [|p]; [done|]. cbn [N.to_uint].
    pose proof (DecimalPos.Unsigned.to_uint_nonnil p).
    by destruct (Pos.to_uint p).
Qed.

(** *** Extraction from a stream that starts as expected *)

Lemma isdigit_solid (c : ascii) :
  isdigit c = true →
  isspace c = false ∧ Ascii.eqb c "-" = false ∧ Ascii.eqb c "+" = false.
Proof.
  intros Hc. split; [|split].
  - unfold isdigit, isspace in *. cbv zeta in *.
    apply andb_true_iff in Hc as [H1%N.leb_le H2%N.leb_le].
    apply orb_false_iff. split; [apply N.eqb_neq; lia|].
    apply andb_false_iff. right. apply N.leb_gt. lia.
  - destruct (Ascii.eqb_spec c "-") as [->|]; [done|done].
  - destruct (Ascii.eqb_spec c "+") as [->|]; [done|done].
Qed.

Lemma extract_string_word (ws t s : list ascii) :
  Forall (λ c, isspace c = true) ws →
  Forall (λ c, isspace c = false) t → t ≠ [] →
  match s with [] => True | c :: _ => isspace c = true end →
  extract_string (mkStream (ws ++ t ++ s) false) = (Some t, mkStream s false).
Proof.
  intros Hws Ht Hne Hs. unfold extract_string. cbn [failbit chars].
  rewrite skipws_app by done.
  assert (Ht' : Forall (λ c, negb (isspace c) = true) t).
  { eapply Forall_impl; [exact Ht|]. by intros c ->. }
  destruct t as [|c t]; [done|].
  rewrite <- app_comm_cons, skipws_solid
    by (by inversion Ht). rewrite app_comm_cons.
  destruct s as [|c' s].
  - by rewrite app_nil_r, span_all.
  - rewrite span_app; [done|done|by rewrite Hs].
Qed.

Lemma extract_string_end (ws : list ascii) :
  Forall (λ c, isspace c = true) ws →
  extract_string (mkStream ws false) = (None, mkStream [] true).
Proof.
  intros Hws. unfold extract_string. cbn [failbit chars].
  rewrite <- (app_nil_r ws), skipws_app by done. done.
Qed.

Lemma extract_ulong_numeral (ws : list ascii) (v : N) (c : ascii)
    (s : list ascii) :
  Forall (λ c, isspace c = true) ws →
  (v ≤ ULONG_MAX)%N → isdigit c = false →
  extract_ulong (mkStream (ws ++ decimal_string v ++ c :: s) false)
  = (Some v, mkStream (c :: s) false).
Proof.
  intros Hws Hv Hc. unfold extract_ulong. cbn [failbit chars].
  rewrite skipws_app by done.
  destruct (decimal_string_spec v) as (Hval & Hdig & Hne).
  destruct (decimal_string v) as [|d ds] eqn:Hd; [done|].
  destruct (isdigit_solid d) as (Hsp & Hminus & Hplus); [by inversion Hdig|].
  rewrite <- app_comm_cons, skipws_solid by done.
  rewrite Hminus, Hplus, app_comm_cons, span_app by done.
  rewrite Hval. by rewrite (proj2 (N.ltb_ge _ _) Hv).
Qed.

Lemma extract_ulong_garbage (ws : list ascii) (c : ascii) (s : list ascii) :
  Forall (λ c, isspace c = true) ws →
  isspace c = false → isdigit c = false →
  Ascii.eqb c "-" = false → Ascii.eqb c "+" = false →
  extract_ulong (mkStream (ws ++ c :: s) false)
  = (None, mkStream (c :: s) true).
Proof.
  intros Hws Hsp Hdig Hminus Hplus. unfold extract_ulong. cbn [failbit chars].
  rewrite skipws_app, skipws_solid by done.
  rewrite Hminus, Hplus. cbn [span]. by rewrite Hdig.
Qed.

(** *** The three keys *)

Lemma is_key_name (name : string) :
  is_key (list_ascii_of_string name ++ [":"%char])
  = bool_decide (name ∈ ["MemFree"; "Buffers"; "Cached"]%string).
Proof.
  assert (Hinj : ∀ k : string,
    list_ascii_of_string name ++ [":"%char]
      = list_ascii_of_string k ++ [":"%char] ↔ name = k).
  { intros k. split; [|by intros ->]. intros [H _]%app_inj_tail.
    rewrite <- (string_of_list_ascii_of_string name), H.
    apply string_of_list_ascii_of_string. }
  unfold is_key.
  change (list_ascii_of_string "MemFree:")
    with (list_ascii_of_string "MemFree" ++ [":"%char]).
  change (list_ascii_of_string "Buffers:")
    with (list_ascii_of_string "Buffers" ++ [":"%char]).
  change (list_ascii_of_string "Cached:")
    with (list_ascii_of_string "Cached" ++ [":"%char]).
  rewrite !(bool_decide_ext _ _ (Hinj _)), <- !bool_decide_or.
  apply bool_decide_ext. rewrite !elem_of_cons, elem_of_nil. tauto.
Qed.

Lemma is_key_word (k : list ascii) :
  is_key k = true →
  k ≠ [] ∧ Forall (λ c, isspace c = false) k ∧
  ∃ c k', k = c :: k' ∧ isdigit c = false.
Proof.
  unfold is_key. rewrite !orb_true_iff, !bool_decide_eq_true.
  intros [[->| ->]| ->]; (split; [done|split; [by repeat constructor|]]);
    by eexists _, _.
Qed.

Lemma is_key_numeral (v : N) : is_key (decimal_string v) = false.
Proof.
  destruct (is_key (decimal_string v)) eqn:Hkey; [|done].
  destruct (is_key_word _ Hkey) as (_ & _ & c & k' & Hk & Hc).
  destruct (decimal_string_spec v) as (_ & Hdig & _).
  rewrite Hk in Hdig. inversion Hdig; congruence.
Qed.

(** *** The loop, line by line *)

Lemma read_S (n : nat) (f : ifstream) (z : Z) :
  read (S n) f z =
    match extract_string f with
    | (None, _) => Some z
    | (Some token, f1) =>
        if is_key token then
          let '(mem, f2) := extract_ulong f1 in
          read n f2 (wrap_int64 (z + from_option Z.of_N 0 mem))
        else read n f1 z
    end.
Proof. reflexivity. Qed.

Lemma counted_nonneg (e : string * nat * N) : 0 ≤ counted e.
Proof. destruct e as [[name pad] v]. cbn. destruct (bool_decide _); lia. Qed.

Lemma total_nonneg (entries : list (string * nat * N)) : 0 ≤ total entries.
Proof.
  induction entries as [|e es IH]; [done|].
  change (total (e :: es)) with (counted e + total es).
  pose proof (counted_nonneg e). lia.
Qed.

Lemma read_line (name : string) (pad : nat) (v : N) (ws rest : list ascii)
    (z r : Z) (n : nat) :
  Forall (λ c, isspace c = true) ws →
  Forall (λ c, isspace c = false) (list_ascii_of_string name) →
  0 ≤ z → z + counted (name, pad, v) < 2 ^ 63 →
  read n (mkStream ("010"%char :: rest) false) (z + counted (name, pad, v))
    = Some r →
  read (3 + n) (mkStream (ws ++ meminfo_line (name, pad, v) ++ rest) false) z
    = Some r.
Proof.
  intros Hws Hname Hz Hsum Hrest.
  set (s3 := "010"%char :: rest) in *.
  set (s2 := " "%char :: ["k"; "B"]%char ++ s3).
  set (blanks := replicate (S pad) " "%char).
  set (s1 := blanks ++ decimal_string v ++ s2).
  assert (Hblanks : Forall (λ c, isspace c = true) blanks).
  { by apply Forall_replicate. }
  replace (ws ++ meminfo_line (name, pad, v) ++ rest)
    with (ws ++ (list_ascii_of_string name ++ [":"%char]) ++ s1)
    by (unfold meminfo_line, s1, s2, s3, blanks; cbn [list_ascii_of_string];
        repeat first [rewrite <- app_assoc | rewrite <- app_comm_cons];
        reflexivity).
  change (3 + n)%nat with (S (S (S n))).
  rewrite read_S, extract_string_word;
    [|done|apply Forall_app; split; [done|by repeat constructor]
     |by destruct (list_ascii_of_string name)|done].
  rewrite is_key_name. unfold counted in *.
  assert (Hunit : extract_string (mkStream (" " :: "k" :: "B" :: s3)%char false)
                  = (Some ["k"; "B"]%char, mkStream s3 false)).
  { apply (extract_string_word [" "%char] ["k"; "B"]%char s3);
      by repeat constructor. }
  destruct (bool_decide _).
  - unfold s1, s2.
    rewrite extract_ulong_numeral; [|done|unfold ULONG_MAX; lia|done].
    cbn [from_option]. rewrite wrap_int64_small by lia.
    rewrite read_S. cbn [app]. rewrite Hunit.
    replace (is_key _) with false by done.
    apply (read_mono n); [done|lia].
  - rewrite Z.add_0_r in Hrest.
    rewrite read_S. unfold s1 at 1.
    destruct (decimal_string_spec v) as (_ & Hdig & Hne).
    rewrite extract_string_word;
      [|done
       |eapply Forall_impl; [exact Hdig|]; intros c Hc;
        by destruct (isdigit_solid c Hc)
       |done|done].
    rewrite is_key_numeral, read_S. unfold s2. cbn [app]. rewrite Hunit.
    by replace (is_key _) with false by done.
Qed.

Lemma read_lines (tail : list ascii) (entries : list (string * nat * N)) :
  ∀ (ws : list ascii) (z r : Z) (n : nat),
  Forall (λ c, isspace c = true) ws →
  Forall (λ e, Forall (λ c, isspace c = false) (list_ascii_of_string e.1.1))
    entries →
  0 ≤ z → z + total entries < 2 ^ 63 →
  (∀ ws', Forall (λ c, isspace c = true) ws' →
          read n (mkStream (ws' ++ tail) false) (z + total entries) = Some r) →
  ∃ m, read m (mkStream (ws ++ meminfo entries ++ tail) false) z = Some r.
Proof.
  induction entries as [|[[name pad] v] es IH];
    intros ws z r n Hws Hnames Hz Hsum Htail.
  - exists n. cbn in Htail. rewrite Z.add_0_r in Htail. by apply Htail.
  - inversion Hnames as [|e es' Hname Hnames']; subst.
    pose proof (counted_nonneg (name, pad, v)) as Hc.
    pose proof (total_nonneg es) as Ht.
    change (total ((name, pad, v) :: es))
      with (counted (name, pad, v) + total es) in *.
    destruct (IH ["010"%char] (z + counted (name, pad, v)) r n) as [m Hm];
      [by repeat constructor|done|lia|lia| |].
    { intros ws' Hws'. rewrite <- Z.add_assoc. by apply Htail. }
    exists (3 + m)%nat.
    change (meminfo ((name, pad, v) :: es))
      with (meminfo_line (name, pad, v) ++ meminfo es).
    rewrite <- (app_assoc (meminfo_line _)).
    apply read_line; [done|done|done|lia|done].
Qed.

Lemma getFreeMemory_tail (tail : list ascii)
    (entries : list (string * nat * N)) (n : nat) :
  Forall (λ e, Forall (λ c, isspace c = false) (list_ascii_of_string e.1.1))
    entries →
  total entries * 1024 < 2 ^ 63 →
  (∀ ws', Forall (λ c, isspace c = true) ws' →
          read n (mkStream (ws' ++ tail) false) (total entries)
          = Some (total entries)) →
  getFreeMemory (Some (meminfo entries ++ tail)) = Some (1024 * total entries).
Proof.
  intros Hnames Hsum Htail.
  pose proof (total_nonneg entries) as Ht.
  destruct (read_lines tail entries [] 0 (total entries) n) as [m Hm];
    [done|done|done|lia|done|].
  unfold getFreeMemory, open. cbn [chars app] in *.
  set (s := meminfo entries ++ tail) in *.
  destruct (read_total (S (length s)) (mkStream s false) 0) as [r Hr];
    [cbn; lia|].
  rewrite Hr. cbn [mbind option_bind].
  rewrite (read_unique _ _ _ _ _ _ Hr Hm).
  rewrite wrap_int64_small by lia. f_equal. lia.
Qed.

Lemma span_solid (s : list ascii) :
  Forall (λ c, isspace c = false) (span (λ c, negb (isspace c)) s).1 ∧
  match (span (λ c, negb (isspace c)) s).2 with
  | [] => True
  | c :: _ => isspace c = true
  end.
Proof.
  induction s as [|c s [IH1 IH2]]; [done|]. cbn.
  destruct (isspace c) eqn:Hc; cbn; [done|].
  destruct (span _ s) as [t r]. cbn in *. split; [by constructor|done].
Qed.

Lemma words_cons (c c' : ascii) (s : list ascii) :
  isspace c = false → isspace c' = false →
  words (c :: c' :: s) =
    match words (c' :: s) with
    | w :: ws => (c :: w) :: ws
    | [] => [[c]]
    end.
Proof.
  intros Hc Hc'.
  change (words (c :: c' :: s))
    with (if isspace c then words (c' :: s)
          else if isspace c' then [c] :: words (c' :: s)
          else match words (c' :: s) with
               | w :: ws => (c :: w) :: ws
               | [] => [[c]]
               end).
  by rewrite Hc, Hc'.
Qed.

Lemma words_word (t s : list ascii) :
  Forall (λ c, isspace c = false) t → t ≠ [] →
  match s with [] => True | c :: _ => isspace c = true end →
  words (t ++ s) = t :: words s.
Proof.
  intros Ht Hne Hs. induction Ht as [|c t Hc Ht IH]; [done|].
  destruct t as [|c' t].
  - cbn. rewrite Hc. destruct s as [|c' s]; [done|]. by rewrite Hs.
  - inversion Ht as [|? ? Hc' _]; subst.
    change ((c :: c' :: t) ++ s) with (c :: c' :: (t ++ s)).
    rewrite words_cons by done.
    change (c' :: (t ++ s)) with ((c' :: t) ++ s). by rewrite IH.
Qed.

Lemma words_spaces (ws s : list ascii) :
  Forall (λ c, isspace c = true) ws → words (ws ++ s) = words s.
Proof. induction 1 as [|c ws Hc _ IH]; [done|]. cbn. by rewrite Hc. Qed.

(** The tokens the loop extracts are the words of the file. *)
Lemma extract_string_words (f f' : ifstream) (t : list ascii) :
  extract_string f = (Some t, f') →
  failbit f' = false ∧ words (chars f) = t :: words (chars f').
Proof.
  unfold extract_string. destruct (failbit f); [done|].
  destruct (skipws_spec (chars f)) as (ws & Hs & Hws).
  pose proof (span_spec (λ c, negb (isspace c)) (skipws (chars f))) as Hsp.
  pose proof (span_solid (skipws (chars f))) as [Hsolid Hnext].
  destruct (span _ (skipws (chars f))) as [[|c t'] r]; [done|].
  intros [= <- <-]. cbn [fst snd chars] in *. split; [done|].
  rewrite Hs, Hsp, words_spaces by done. by apply words_word.
Qed.

Lemma read_no_key (n : nat) : ∀ (f : ifstream) (z : Z),
  Forall (λ t, is_key t = false) (words (chars f)) →
  (length (chars f) < n)%nat → read n f z = Some z.
Proof.
  induction n as [|n IH]; intros f z Hkey Hn; [lia|].
  rewrite read_S.
  destruct (extract_string f) as [[t|] f1] eqn:E; [|done].
  destruct (extract_string_chars _ _ _ E) as (_ & Ht & ws & Hf).
  destruct (extract_string_words _ _ _ E) as (_ & Hw).
  rewrite Hw in Hkey. inversion Hkey as [|? ? Hk Hkey']; subst.
  rewrite Hk. apply IH; [done|].
  rewrite Hf, !length_app in Hn. destruct t; [done|]. cbn in Hn. lia.
Qed.

End LinuxFacts.

(** X11: on Linux the probe returns on every file, readable or not (one
    round of the loop more than the file has characters is enough), and
    what it returns is a multiple of 1024. *)
Theorem getFreeMemory_returns (contents : option (list ascii)) :
  ∃ k, Linux.getFreeMemory contents = Some (1024 * k).
Proof.
  unfold Linux.getFreeMemory.
  destruct (LinuxFacts.read_total
              (S (length (Linux.chars (Linux.open contents))))
              (Linux.open contents) 0) as [r Hr]; [lia|].
  rewrite Hr. cbn [mbind option_bind].
  destruct (LinuxFacts.wrap_int64_1024 r) as [k Hk]. exists k. by rewrite Hk.
Qed.

(** X12: when /proc/meminfo cannot be opened, or none of its words is
    one of the keys "MemFree:", "Buffers:" and "Cached:", the probe
    returns 0. *)
Theorem getFreeMemory_no_key (contents : option (list ascii)) :
  (∀ s, contents = Some s →
        Forall (λ t, Linux.is_key t = false) (Linux.words s)) →
  Linux.getFreeMemory contents = Some 0.
Proof.
  intros Hkey. destruct contents as [s|]; [|done].
  unfold Linux.getFreeMemory, Linux.open. cbn [Linux.chars].
  rewrite LinuxFacts.read_no_key; [done|by apply Hkey|cbn; lia].
Qed.

(** The witness of X12: a file with the one line of the total memory. *)
Lemma getFreeMemory_no_key_witness :
  Linux.getFreeMemory (Some (list_ascii_of_string "MemTotal: 16307452 kB"))
  = Some 0.
Proof.
  apply getFreeMemory_no_key. intros s [= <-]. vm_compute.
  by repeat constructor.
Defined.

(** X13: for a file of lines "name: value kB" whose names have no
    whitespace, the probe returns 1024 times the sum of the values of
    the lines named MemFree, Buffers and Cached, wherever they stand and
    however often, provided the result fits a qint64; no other line
    counts, whatever its value. *)
Theorem getFreeMemory_meminfo (entries : list (string * nat * N)) :
  Forall (λ e, Forall (λ c, Linux.isspace c = false)
                 (list_ascii_of_string e.1.1)) entries →
  Linux.total entries * 1024 < 2 ^ 63 →
  Linux.getFreeMemory (Some (Linux.meminfo entries))
  = Some (1024 * Linux.total entries).
Proof.
  intros Hnames Hsum.
  rewrite <- (app_nil_r (Linux.meminfo entries)).
  apply (LinuxFacts.getFreeMemory_tail [] entries 1); [done|done|].
  intros ws' Hws'. rewrite app_nil_r, LinuxFacts.read_S.
  by rewrite LinuxFacts.extract_string_end.
Qed.

(** The witness of X13: five lines, three of which count. *)
Lemma getFreeMemory_meminfo_witness :
  Linux.getFreeMemory
    (Some (Linux.meminfo [("MemTotal", 7%nat, 16307452%N);
                          ("MemFree", 8%nat, 1234567%N);
                          ("Buffers", 11%nat, 1000%N);
                          ("Cached", 10%nat, 200000%N);
                          ("SwapCached", 12%nat, 77%N)]%string))
  = Some (1024 * 1435567).
Proof.
  apply (getFreeMemory_meminfo [("MemTotal", 7%nat, 16307452%N);
                                ("MemFree", 8%nat, 1234567%N);
                                ("Buffers", 11%nat, 1000%N);
                                ("Cached", 10%nat, 200000%N);
                                ("SwapCached", 12%nat, 77%N)]%string).
  - by repeat constructor.
  - by vm_compute.
Defined.

(** X14: a key that is followed by something that is not a number ends
    the parse: the lines before it count as in X13 and nothing after it
    does, whatever follows. *)
Theorem getFreeMemory_stops (entries : list (string * nat * N))
    (key : list ascii) (c : ascii) (rest : list ascii) :
  Forall (λ e, Forall (λ c, Linux.isspace c = false)
                 (list_ascii_of_string e.1.1)) entries →
  Linux.total entries * 1024 < 2 ^ 63 →
  Linux.is_key key = true →
  Linux.isspace c = false → Linux.isdigit c = false →
  c ≠ "-"%char → c ≠ "+"%char →
  Linux.getFreeMemory
    (Some (Linux.meminfo entries ++ key ++ " "%char :: c :: rest))
  = Some (1024 * Linux.total entries).
Proof.
  intros Hnames Hsum Hkey Hsp Hdig Hminus Hplus.
  pose proof (LinuxFacts.total_nonneg entries) as Ht.
  apply (LinuxFacts.getFreeMemory_tail _ entries 2); [done|done|].
  intros ws' Hws'. rewrite LinuxFacts.read_S.
  destruct (LinuxFacts.is_key_word key Hkey) as (Hne & Hsolid & _).
  rewrite LinuxFacts.extract_string_word; [|done..].
  rewrite Hkey.
  change (" "%char :: c :: rest) with ([" "%char] ++ c :: rest).
  rewrite (LinuxFacts.extract_ulong_garbage [" "%char] c rest);
    [|by repeat constructor|done|done
     |by apply Ascii.eqb_neq|by apply Ascii.eqb_neq].
  cbn [from_option]. rewrite Z.add_0_r, LinuxFacts.wrap_int64_small by lia.
  by rewrite LinuxFacts.read_S.
Qed.

(** The witness of X14: the value of Buffers is unreadable, and the
    line of Cached after it is not counted. *)
Lemma getFreeMemory_stops_witness :
  Linux.getFreeMemory
    (Some (Linux.meminfo [("MemFree", 8%nat, 1234567%N)]%string
           ++ list_ascii_of_string "Buffers:"
           ++ " "%char :: "?"%char
           :: list_ascii_of_string " kB Cached: 200000 kB"))
  = Some (1024 * 1234567).
Proof.
  apply (getFreeMemory_stops [("MemFree", 8%nat, 1234567%N)]%string
           (list_ascii_of_string "Buffers:") "?"%char
           (list_ascii_of_string " kB Cached: 200000 kB")).
  - by repeat constructor.
  - by vm_compute.
  - reflexivity.
  - reflexivity.
  - reflexivity.
  - discriminate.
  - discriminate.
Defined.

(** X15: on Linux, when /proc/meminfo cannot be opened or has none of
    the three keys, [getScale] returns the sentinel -1.0 for every
    buffer: in a world whose reading of the probe is what
    [getFreeMemory] returns on that file, nothing is scaled. *)
Theorem getScale_linux_no_key (contents : option (list ascii))
    (src : PixRef) (w : World) :
  (∀ s, contents = Some s →
        Forall (λ t, Linux.is_key t = false) (Linux.words s)) →
  Linux.getFreeMemory contents = Some (freeMemory w) →
  getScale (Some src) w = (Fin (-1), w).
Proof.
  intros Hkey Hfree.
  assert (Hzero : freeMemory w = 0).
  { destruct contents as [s|]; [|by injection Hfree].
    unfold Linux.getFreeMemory, Linux.open in Hfree.
    cbn [Linux.chars] in Hfree.
    rewrite LinuxFacts.read_no_key in Hfree; [|by apply Hkey|cbn; lia].
    by injection Hfree. }
  unfold getScale. run.
  destruct (wrap_int32 _ =? 0); [done|].
  destruct (leb _ (Fin 1)); [done|].
  by rewrite available_below_1 by lia.
Qed.

(** The witness of X15: a file with the one line of the total memory,
    and the grayscale buffer of scenario A. *)
Lemma getScale_linux_no_key_witness :
  getScale (Some (mkRef 0 (mkPix 1000 800 8 100 100))) (Reference.world 0)
  = (Fin (-1), Reference.world 0).
Proof.
  apply (getScale_linux_no_key
           (Some (list_ascii_of_string "MemTotal: 16307452 kB"))).
  - intros s [= <-]. vm_compute. by repeat constructor.
  - by vm_compute.
Defined.

(** ** [getScale]: the preferred scale *)

(** The quotient 500.0 / d is above 1.0 for the conversion d of a known
    density below 500. *)
Lemma div_500_above_1 (m : Z) :
  1 ≤ m < 500 → leb (Fin (513 # 512)) (div (Fin 500) (of_Z m)) = true.
Proof.
  intros Hm. rewrite of_Z_exact by lia.
  set (m' := Qred (inject_Z m)).
  assert (Hm' : (m' == inject_Z m)%Q) by apply Qred_correct.
  assert (Hlo : (1 <= m')%Q).
  { rewrite Hm'. change 1%Q with (inject_Z 1). rewrite <- Zle_Qle. lia. }
  assert (Hhi : (m' <= 499)%Q).
  { rewrite Hm'. change 499%Q with (inject_Z 499). rewrite <- Zle_Qle. lia. }
  cbn [div]. rewrite Qeq_bool_pos by lra.
  replace (Fin (513 # 512)) with (round (513 # 512)) by (by vm_compute).
  apply round_leb. apply Qle_shift_div_l; lra.
Qed.

(** The clamp of an axis is at least 500.0 for a dimension of at most
    4294967 pixels. *)
Lemma axis_clamp_500 (n : N) :
  (n ≤ 4294967)%N → leb (Fin 500) (div (of_Z INT_MAX) (of_N n)) = true.
Proof.
  intros Hn. rewrite of_Z_INT_MAX, of_N_exact by lia.
  set (n' := Qred (inject_Z (Z.of_N n))).
  assert (Hn' : (n' == inject_Z (Z.of_N n))%Q) by apply Qred_correct.
  cbn [div]. destruct (Qeq_bool n' 0) eqn:E; [done|].
  assert (Hnz : ¬ (n' == 0)%Q).
  { intros H. apply Qeq_bool_iff in H. congruence. }
  assert (Hpos : (0 < n')%Q).
  { rewrite Hn' in *. change 0%Q with (inject_Z 0) in *.
    rewrite <- Zlt_Qlt. rewrite inject_Z_injective in Hnz. lia. }
  assert (Hup : (n' <= 4294967)%Q).
  { rewrite Hn'. change 4294967%Q with (inject_Z 4294967).
    rewrite <- Zle_Qle. lia. }
  rewrite <- round_500. apply round_leb.
  apply Qle_shift_div_l; lra.
Qed.

(** With 527 times the footprint free, 95% of the free memory is at
    least 500 times the footprint. *)
Lemma memory_ample (free : Z) (size : N) :
  2 ≤ free → 527 * Z.of_N size ≤ free → (size < 2 ^ 29)%N →
  leb (Fin 1) (mul (of_Z free) (literal 0.95)) = true ∧
  leb (Fin 500) (div (mul (of_Z free) (literal 0.95)) (of_N size)) = true.
Proof.
  intros Hfree Hsize Hbound. rewrite literal_0_95.
  set (c := (4278419646001971 # 4503599627370496)%Q).
  set (avail := mul (of_Z free) (Fin c)).
  assert (H1 : leb (Fin 1) avail = true).
  { apply leb_trans with (mul (of_Z 2) (Fin c)); [by vm_compute|].
    apply mul_leb_r; [done|]. by apply of_Z_leb. }
  split; [exact H1|].
  assert (H2 : leb (of_Z (500 * Z.of_N size)) avail = true).
  { apply leb_trans with (mul (of_Z (527 * Z.of_N size)) (Fin c)).
    - rewrite (of_Z_exact (527 * Z.of_N size)) by lia. cbn [mul].
      unfold of_Z. apply round_leb.
      rewrite Qred_correct, !inject_Z_mult.
      assert (0 <= inject_Z (Z.of_N size))%Q.
      { change 0%Q with (inject_Z 0). rewrite <- Zle_Qle. lia. }
      change (inject_Z 500) with 500%Q. change (inject_Z 527) with 527%Q.
      unfold c. lra.
    - apply mul_leb_r; [done|]. by apply of_Z_leb. }
  rewrite (of_Z_exact (500 * Z.of_N size)) in H2 by lia.
  rewrite of_N_exact by lia.
  set (n' := Qred (inject_Z (Z.of_N size))).
  assert (Hn' : (n' == inject_Z (Z.of_N size))%Q) by apply Qred_correct.
  assert (Hnn : (0 <= n')%Q).
  { rewrite Hn'. change 0%Q with (inject_Z 0). rewrite <- Zle_Qle. lia. }
  destruct avail as [a| | |]; try done; cbn [div].
  - apply leb_Fin in H1, H2.
    rewrite Qred_correct, inject_Z_mult, <- Hn' in H2.
    change (inject_Z 500) with 500%Q in H2.
    destruct (Qeq_bool n' 0) eqn:E; [by rewrite Qsign_inf_pos by lra|].
    assert (Hnz : ¬ (n' == 0)%Q).
    { intros H. apply Qeq_bool_iff in H. congruence. }
    rewrite <- round_500. apply round_leb. apply Qle_shift_div_l; lra.
  - by rewrite Qltb_pos.
Qed.

Lemma std_min_left (a b : double) : leb a b = true → std_min a b = a.
Proof. intros Hab. unfold std_min. by rewrite leb_not_ltb. Qed.

(** The value of [getScale] when neither clamp binds. *)
Lemma getScale_preferred_value (src : PixRef) (w : World) :
  wrap_int32 (pix_xres (obj src) * pix_yres (obj src)) ≠ 0 →
  1 ≤ Z.min (pix_xres (obj src)) (pix_yres (obj src)) < 500 →
  (pix_w (obj src) ≤ 4294967)%N →
  (pix_h (obj src) ≤ 4294967)%N →
  2 ≤ freeMemory w →
  527 * Z.of_N (footprint (obj src)) ≤ freeMemory w →
  (getScale (Some src) w).1
    = div (Fin 500) (of_Z (Z.min (pix_xres (obj src)) (pix_yres (obj src)))) ∧
  ltb (Fin 1)
    (div (Fin 500) (of_Z (Z.min (pix_xres (obj src)) (pix_yres (obj src)))))
    = true.
Proof.
  intros Hprod Hm Hw Hh Hfree Hsize.
  destruct (memory_ample (freeMemory w) (footprint (obj src)))
    as [Havail Hmem]; [done|done|apply footprint_bound|].
  unfold footprint in Hmem.
  unfold getScale. run.
  rewrite (proj2 (Z.eqb_neq _ _) Hprod).
  set (m := Z.min (pix_xres (obj src)) (pix_yres (obj src))) in *.
  destruct (div_500_finite m) as [q Hq]; [lia|].
  pose proof (div_500_le_500 m ltac:(lia)) as Hq500.
  pose proof (div_500_above_1 m Hm) as Hq1.
  rewrite Hq in *. apply leb_Fin in Hq500, Hq1.
  assert (HP : std_max (Fin q) (Fin 1) = Fin q).
  { unfold std_max. by rewrite (leb_not_ltb (Fin 1) (Fin q))
      by (apply leb_Fin; lra). }
  rewrite HP.
  assert (Hgt : leb (Fin q) (Fin 1) = false) by (apply Qle_bool_false; lra).
  rewrite Hgt.
  assert (H500 : leb (Fin q) (Fin 500) = true) by (by apply leb_Fin).
  rewrite (std_min_left (Fin q) (div (of_Z INT_MAX) (of_N (pix_w (obj src)))))
    by (apply leb_trans with (Fin 500); [exact H500|by apply axis_clamp_500]).
  rewrite (std_min_left (Fin q) (div (of_Z INT_MAX) (of_N (pix_h (obj src)))))
    by (apply leb_trans with (Fin 500); [exact H500|by apply axis_clamp_500]).
  rewrite (std_min_left (Fin q) (Fin q)) by (apply leb_Fin; lra).
  rewrite (leb_not_ltb _ _ Havail).
  rewrite std_min_left
    by (apply leb_trans with (Fin 500); [exact H500|exact Hmem]).
  split; [reflexivity|]. apply ltb_Fin. lra.
Qed.

(** X16: for a buffer of known density whose smaller density D is
    below 500, of at most 4294967 pixels in width and in height, with
    527 times its footprint free (and two bytes at least), [getScale]
    returns the double nearest to 500 / D, which is above 1.0, and leaves
    the world as it is: neither the clamp of an axis nor the memory bound
    binds. *)
Theorem getScale_preferred (src : PixRef) (w : World) :
  wrap_int32 (pix_xres (obj src) * pix_yres (obj src)) ≠ 0 →
  1 ≤ Z.min (pix_xres (obj src)) (pix_yres (obj src)) < 500 →
  (pix_w (obj src) ≤ 4294967)%N →
  (pix_h (obj src) ≤ 4294967)%N →
  2 ≤ freeMemory w →
  527 * Z.of_N (footprint (obj src)) ≤ freeMemory w →
  getScale (Some src) w
    = (div (Fin 500)
         (of_Z (Z.min (pix_xres (obj src)) (pix_yres (obj src)))), w) ∧
  ltb (Fin 1) (getScale (Some src) w).1 = true.
Proof.
  intros Hprod Hm Hw Hh Hfree Hsize.
  destruct (getScale_preferred_value src w) as [Hvalue Hgt]; [done..|].
  split; [|by rewrite Hvalue].
  rewrite getScale_eq. by rewrite Hvalue.
Qed.

(** The witness of X16: densities 72 and 96, for which 500 / 72 is not a
    double. *)
Lemma getScale_preferred_witness :
  getScale (Some (mkRef 0 (mkPix 1000 800 8 72 96)))
    (Reference.world (8 * Reference.GiB))
  = (div (Fin 500) (of_Z 72), Reference.world (8 * Reference.GiB)).
Proof.
  refine (proj1 (getScale_preferred (mkRef 0 (mkPix 1000 800 8 72 96))
                   (Reference.world (8 * Reference.GiB)) _ _ _ _ _ _));
    by vm_compute.
Defined.

(** X17: when both conversions succeed and the grayscale buffer meets
    the conditions of X16, [prepareImage] calls [pixScale] once, with the
    double nearest to 500 / D on both axes; when that returns a buffer,
    the result is this buffer and the grayscale buffer is destroyed; when
    it returns NULL, the result is the grayscale buffer, which is not
    destroyed. *)
Theorem prepareImage_scales {QImage : Type} (lib : Library QImage)
    (image : QImage) (w : World) (p g : Pix) :
  lib_readBmp lib image = Some p →
  lib_rgbToGray lib p = Some g →
  wrap_int32 (pix_xres g * pix_yres g) ≠ 0 →
  1 ≤ Z.min (pix_xres g) (pix_yres g) < 500 →
  (pix_w g ≤ 4294967)%N →
  (pix_h g ≤ 4294967)%N →
  2 ≤ freeMemory w →
  527 * Z.of_N (footprint g) ≤ freeMemory w →
  let s := div (Fin 500) (of_Z (Z.min (pix_xres g) (pix_yres g))) in
  let ap := fresh (live w) in
  let ag := fresh ({[ap]} ∪ live w) in
  let L2 := ({[ag]} ∪ ({[ap]} ∪ live w)) ∖ {[ap]} in
  let t2 := trace w ++ [CallPixReadMemBmp; CallPixConvertRGBToGray ap;
                        CallPixDestroy ap; CallPixScale ag s s] in
  prepareImage lib image w =
    match lib_scale lib g s s with
    | Some r =>
        (Some (mkRef (fresh L2) r),
         mkWorld (({[fresh L2]} ∪ L2) ∖ {[ag]}) (freeMemory w)
           (t2 ++ [CallPixDestroy ag]))
    | None => (Some (mkRef ag g), mkWorld L2 (freeMemory w) t2)
    end.
Proof.
  intros Hp Hg Hprod Hm Hw Hh Hfree Hsize s ap ag L2 t2.
  rewrite (prepareImage_gray lib image w p g Hp Hg). cbv zeta.
  fold ap ag L2.
  destruct (getScale_preferred_value (mkRef ag g)
              (mkWorld L2 (freeMemory w)
                 (trace w ++ [CallPixReadMemBmp; CallPixConvertRGBToGray ap;
                              CallPixDestroy ap])))
    as [Hvalue Hgt]; [done..|].
  cbn [obj] in Hvalue, Hgt. fold s in Hvalue, Hgt.
  rewrite Hvalue, Hgt. unfold t2.
  destruct (lib_scale lib g s s) as [r|]; by rewrite <- !app_assoc.
Qed.

(** The witness of X17: scenario A in the reference environment. *)
Lemma prepareImage_scales_witness :
  (prepareImage (Reference.library []) Reference.imageA
     (Reference.world (8 * Reference.GiB))).1
  = Some (mkRef 2 (mkPix 5000 4000 8 500 500)).
Proof.
  rewrite (prepareImage_scales (Reference.library []) Reference.imageA
             (Reference.world (8 * Reference.GiB))
             Reference.imageA (mkPix 1000 800 8 100 100)
             eq_refl eq_refl); by vm_compute.
Defined.

(** ** The stem of a file name *)

Lemma indexOf_range (s : QString) (c : N) :
  Qt.indexOf s c = (-1) ∨ 0 ≤ Qt.indexOf s c < Z.of_nat (length s).
Proof.
  induction s as [|x s IH]; [by left|]. cbn [Qt.indexOf length].
  destruct (x =? c)%N; [right; lia|].
  destruct (Z.ltb_spec (Qt.indexOf s c) 0); [by left|right; lia].
Qed.

Lemma left_inside (s : QString) (n : Z) :
  0 ≤ n < Z.of_nat (length s) → Qt.left s n = take (Z.to_nat n) s.
Proof.
  intros Hn. unfold Qt.left.
  by rewrite (proj2 (Z.ltb_ge _ _)), (proj2 (Z.leb_gt _ _)) by lia.
Qed.

(** The stem of a file name is its longest prefix without the
    character. *)
Lemma left_indexOf (s : QString) (c : N) :
  ∃ rest, s = Qt.left s (Qt.indexOf s c) ++ rest ∧
          (c ∉ Qt.left s (Qt.indexOf s c)) ∧
          (rest = [] ∨ ∃ rest', rest = c :: rest').
Proof.
  induction s as [|x s (rest & Hs & Hc & Hrest)].
  - exists []. split; [done|]. split; [|by left]. cbn. apply not_elem_of_nil.
  - cbn [Qt.indexOf].
    destruct (N.eqb_spec x c) as [->|Hx].
    + exists (c :: s). cbn. split; [done|]. split; [apply not_elem_of_nil|].
      right. by eexists.
    + destruct (indexOf_range s c) as [Hi|Hi].
      * rewrite Hi in *. cbn in *. exists [].
        split; [by rewrite app_nil_r|]. split; [|by left].
        rewrite elem_of_cons. intros [?|?]; [done|]. by apply Hc.
      * rewrite left_inside in Hs, Hc by done.
        destruct (Z.ltb_spec (Qt.indexOf s c) 0) as [?|_]; [lia|].
        rewrite left_inside by (cbn [length]; lia).
        replace (Z.to_nat (Qt.indexOf s c + 1))
          with (S (Z.to_nat (Qt.indexOf s c))) by lia.
        cbn [take]. exists rest. split; [cbn; by f_equal|].
        split; [|done]. rewrite elem_of_cons. intros [?|?]; [done|].
        by apply Hc.
Qed.

(** A prefix without the character, followed by it, is the stem. *)
Lemma left_indexOf_app (lang ext : QString) (c : N) :
  c ∉ lang →
  Qt.left (lang ++ c :: ext) (Qt.indexOf (lang ++ c :: ext) c) = lang.
Proof.
  intros Hc.
  destruct (left_indexOf (lang ++ c :: ext) c) as (rest & Hs & Hstem & Hrest).
  set (stem := Qt.left (lang ++ c :: ext)
                 (Qt.indexOf (lang ++ c :: ext) c)) in *.
  clearbody stem. revert stem Hs Hstem.
  induction lang as [|x lang IH]; intros stem Hs Hstem.
  - destruct stem as [|y stem]; [done|]. cbn in Hs. injection Hs as <- _.
    destruct Hstem. by left.
  - apply not_elem_of_cons in Hc as [Hx Hc].
    destruct stem as [|y stem].
    + cbn in Hs. destruct Hrest as [->|(rest' & ->)]; [done|].
      by injection Hs as -> _.
    + cbn in Hs. injection Hs as <- Hs. f_equal.
      apply not_elem_of_cons in Hstem as [_ Hstem]. by apply IH.
Qed.

Lemma fold_left_append {A B : Type} (f : A → B) (l : list A) (acc : list B) :
  fold_left (λ names x, names ++ [f x]) l acc = acc ++ (f <$> l).
Proof.
  revert acc. induction l as [|x l IH]; intros acc; cbn.
  - by rewrite app_nil_r.
  - by rewrite IH, <- app_assoc.
Qed.

(** ** [Tesseract::availableLanguageNames] *)

(** X18: for an empty path and for a directory that does not exist the
    list of names is empty; otherwise there is one name per data file,
    in the order of the listing, and the name of a file is the one the
    table gives for the longest prefix of the file name that has no dot
    (the whole file name when it has no dot). *)
Theorem availableLanguageNames_names (host : Host) (path : QString) :
  if isEmpty path || negb (dir_exists host path)
  then availableLanguageNames host path = []
  else
    Forall2
      (λ file name,
         ∃ stem rest,
           file = stem ++ rest ∧ (46%N ∉ stem) ∧
           (rest = [] ∨ ∃ rest', rest = 46%N :: rest') ∧
           name = languageName host (idForTesseract host stem))
      (dir_entryList host path (qstr "*.traineddata"))
      (availableLanguageNames host path).
Proof.
  unfold availableLanguageNames.
  destruct (isEmpty path); [done|].
  destruct (dir_exists host path); [|done]. cbn [negb orb].
  rewrite (fold_left_append
             (λ file, languageName host
                        (idForTesseract host
                           (Qt.left file (Qt.indexOf file 46%N))))).
  cbn [app].
  assert (Heq : ∀ l : list QString, match l with [] => [] | _ => l end = l)
    by (by intros [|]).
  rewrite Heq. apply Forall2_fmap_r, Forall_Forall2_diag, Forall_forall.
  intros file _.
  destruct (left_indexOf file 46%N) as (rest & Hfile & Hstem & Hrest).
  by exists (Qt.left file (Qt.indexOf file 46%N)), rest.
Qed.

(** X19: for a directory whose data files are named
    "<language>.traineddata", with no dot in the language, the names
    returned are those the table gives for these languages, one per
    file and in the order of the listing. *)
Theorem availableLanguageNames_stems (host : Host) (path : QString)
    (langs : list QString) :
  isEmpty path = false →
  dir_exists host path = true →
  dir_entryList host path (qstr "*.traineddata")
    = (λ lang, lang ++ qstr ".traineddata") <$> langs →
  Forall (λ lang, 46%N ∉ lang) langs →
  availableLanguageNames host path
    = (λ lang, languageName host (idForTesseract host lang)) <$> langs.
Proof.
  intros Hpath Hdir Hfiles Hlangs. unfold availableLanguageNames.
  rewrite Hpath, Hdir, Hfiles. cbn [negb].
  rewrite (fold_left_append
             (λ file, languageName host
                        (idForTesseract host
                           (Qt.left file (Qt.indexOf file 46%N))))).
  cbn [app]. rewrite <- list_fmap_compose.
  assert (Heq : ∀ l : list QString, match l with [] => [] | _ => l end = l)
    by (by intros [|]).
  rewrite Heq. apply Forall_fmap_ext_1.
  eapply Forall_impl; [exact Hlangs|]. intros lang Hlang. cbn.
  change (qstr ".traineddata") with (46%N :: qstr "traineddata").
  by rewrite left_indexOf_app.
Qed.

(** The witness of X19: the directory of the reference host. *)
Lemma availableLanguageNames_stems_witness :
  availableLanguageNames ReferenceHost.host (qstr "/data")
  = [qstr "language chi_sim"; qstr "language eng"].
Proof.
  apply (availableLanguageNames_stems ReferenceHost.host (qstr "/data")
           [qstr "chi_sim"; qstr "eng"]).
  - reflexivity.
  - reflexivity.
  - reflexivity.
  - apply (bool_decide_unpack _). by vm_compute.
Defined.

(** ** The order of [QString] *)

Lemma QString_le_cons (x y : N) (a b : QString) :
  QString_le (x :: a) (y :: b) ↔ (x < y)%N ∨ x = y ∧ QString_le a b.
Proof.
  unfold QString_le. cbn [QString_lt].
  rewrite orb_false_iff, andb_false_iff, N.ltb_ge, N.eqb_neq.
  destruct (N.lt_trichotomy x y) as [?|[->|?]]; intuition lia.
Qed.

#[export] Instance QString_le_trans : Transitive QString_le.
Proof.
  intros a. induction a as [|x a IH]; intros [|y b] [|z c] Hab Hbc;
    try done.
  apply QString_le_cons in Hab, Hbc. apply QString_le_cons.
  destruct Hab as [?|[-> Hab]], Hbc as [?|[-> Hbc]];
    [left; lia|by left|by left|right]. split; [done|by apply (IH b)].
Qed.

#[export] Instance QString_le_total : Total QString_le.
Proof.
  intros a. induction a as [|x a IH]; intros [|y b];
    [left; reflexivity|left; reflexivity|right; reflexivity|].
  rewrite !QString_le_cons.
  destruct (N.lt_trichotomy x y) as [?|[->|?]];
    [by left; left| |by right; left].
  destruct (IH b); [left|right]; by right.
Qed.

Lemma std_sort_sorted (l : list QString) :
  StronglySorted QString_le (std_sort l).
Proof. apply (StronglySorted_merge_sort _). Qed.

Lemma std_sort_elem_of (l : list QString) (x : QString) :
  x ∈ std_sort l ↔ x ∈ l.
Proof. unfold std_sort. by rewrite merge_sort_Permutation. Qed.

Lemma StronglySorted_filter {A : Type} (R : relation A) (P : A → Prop)
    `{!∀ x, Decision (P x)} (l : list A) :
  StronglySorted R l → StronglySorted R (filter P l).
Proof.
  intros Hl. induction Hl as [|x l Hl IH Hx].
  - apply SSorted_nil.
  - rewrite filter_cons. destruct (decide (P x)); [|done].
    apply SSorted_cons; [done|]. apply Forall_forall.
    intros y [_ Hy]%list_elem_of_filter.
    rewrite Forall_forall in Hx. by apply Hx.
Qed.

#[export] Instance QString_le_antisymm : AntiSymm (=) QString_le.
Proof.
  intros a. induction a as [|x a IH]; intros [|y b] Hab Hba; try done.
  apply QString_le_cons in Hab, Hba.
  destruct Hab as [?|[Hxy Hab]], Hba as [?|[Hyx Hba]]; try lia.
  subst y. f_equal. by apply IH.
Qed.

(** The sorted list depends on the elements, not on their order. *)
Lemma std_sort_Permutation (l l' : list QString) :
  l ≡ₚ l' → std_sort l = std_sort l'.
Proof.
  intros Hl. apply (StronglySorted_unique QString_le);
    [apply std_sort_sorted..|].
  unfold std_sort. by rewrite !merge_sort_Permutation.
Qed.

(** ** The lists of the settings editor *)

Lemma fold_left_omap {A B : Type} (f : A → option B) (l : list A)
    (acc : list B) :
  fold_left
    (λ names x, match f x with Some y => names ++ [y] | None => names end)
    l acc
  = acc ++ omap f l.
Proof.
  revert acc. induction l as [|x l IH]; intros acc; cbn [fold_left omap].
  - by rewrite app_nil_r.
  - rewrite IH. cbn. destruct (f x); [|done].
    by rewrite <- app_assoc.
Qed.

Lemma fold_left_if {A B : Type} (p : A → bool) (f : A → B) (l : list A)
    (acc : list B) :
  fold_left (λ names x, if p x then names ++ [f x] else names) l acc
  = acc ++ (f <$> filter (λ x, p x = true) l).
Proof.
  revert acc. induction l as [|x l IH]; intros acc; cbn [fold_left].
  - by rewrite app_nil_r.
  - rewrite filter_cons. destruct (p x) eqn:Hp.
    + rewrite IH. rewrite decide_True by done. cbn.
      by rewrite <- app_assoc.
    + rewrite IH. by rewrite decide_False by done.
Qed.

Lemma settings_updateTranslators (host : Host) (path : QString)
    (enabled : list QString) (ui : Ui) :
  settings_translators (updateTranslators host path enabled ui)
  = if dir_exists host path
    then filter (λ f, f ∈ enabled)
           (std_sort (dir_entryList host path (qstr "*.js")))
    else [].
Proof.
  unfold settings_translators, updateTranslators.
  destruct (dir_exists host path); [|done]. cbn [negb translatorList app].
  rewrite (fold_left_if item_checked item_text). cbn [app].
  induction (std_sort _) as [|f l IH]; [done|].
  cbn [fmap list_fmap]. rewrite !filter_cons. cbn [item_checked item_text].
  destruct (decide (f ∈ enabled)) as [Hf|Hf].
  - rewrite bool_decide_eq_true_2 by done. rewrite decide_True by done.
    cbn. by rewrite IH.
  - rewrite bool_decide_eq_false_2 by done. by rewrite decide_False by done.
Qed.

(** X20: the translators that [settings] reads back after
    [updateTranslators] are the script files of the directory that are in
    the list of the enabled ones, each as often as the listing has it,
    in ascending order of [operator<] (none when the directory does not
    exist): the items of the list before the call, the order of the
    enabled list and its entries that are no file of the directory leave
    no trace. The other widgets are as before. *)
Theorem translators_of_directory (host : Host) (path : QString)
    (enabled : list QString) (ui : Ui) :
  let ui' := updateTranslators host path enabled ui in
  (if dir_exists host path
   then settings_translators ui'
          ≡ₚ filter (λ f, f ∈ enabled)
               (dir_entryList host path (qstr "*.js"))
   else settings_translators ui' = []) ∧
  StronglySorted QString_le (settings_translators ui') ∧
  tessdataEdit ui' = tessdataEdit ui ∧
  tesseractLangCombo ui' = tesseractLangCombo ui ∧
  correctLangCombo ui' = correctLangCombo ui ∧
  translateLangCombo ui' = translateLangCombo ui.
Proof.
  cbv zeta. rewrite settings_updateTranslators.
  split; [|split].
  - destruct (dir_exists host path); [|done].
    apply filter_Permutation. apply merge_sort_Permutation.
  - destruct (dir_exists host path); [|constructor].
    apply StronglySorted_filter, std_sort_sorted.
  - unfold updateTranslators. by destruct (dir_exists host path).
Qed.

(** X21: reading the translators of the form and setting them again,
    for the same directory, gives the list widget the same items with
    the same check states, whatever the form held before. *)
Theorem translators_round_trip (host : Host) (path : QString)
    (enabled : list QString) (ui ui' : Ui) :
  translatorList
    (updateTranslators host path
       (settings_translators (updateTranslators host path enabled ui)) ui')
  = translatorList (updateTranslators host path enabled ui).
Proof.
  rewrite settings_updateTranslators. unfold updateTranslators.
  destruct (dir_exists host path); [|done]. cbn [negb translatorList app].
  rewrite <- !list_fmap_compose. apply list_fmap_ext.
  intros i f Hf. cbn. f_equal. apply bool_decide_ext.
  rewrite list_elem_of_filter. apply list_elem_of_lookup_2 in Hf. tauto.
Qed.

(** X22: after [updateTesseractLanguages] the two combo boxes of the
    languages hold the same items: the names of the bundles that the
    table finds for the stems of the data files of the directory named
    in the line edit, one per file that has a bundle, in ascending
    order; none when the directory does not exist. The line edit, the
    third combo box and the list of translators are as before. *)
Theorem updateTesseractLanguages_combos (host : Host) (ui : Ui) :
  let ui' := updateTesseractLanguages host ui in
  correctLangCombo ui' = tesseractLangCombo ui' ∧
  (if dir_exists host (tessdataEdit ui)
   then tesseractLangCombo ui'
          ≡ₚ omap (λ file, findByTesseract host
                             (Qt.left file (Qt.indexOf file 46%N)))
               (dir_entryList host (tessdataEdit ui)
                  (qstr "*.traineddata"))
   else tesseractLangCombo ui' = []) ∧
  StronglySorted QString_le (tesseractLangCombo ui') ∧
  tessdataEdit ui' = tessdataEdit ui ∧
  translateLangCombo ui' = translateLangCombo ui ∧
  translatorList ui' = translatorList ui.
Proof.
  cbv zeta. unfold updateTesseractLanguages. cbn [tessdataEdit].
  destruct (dir_exists host (tessdataEdit ui)); cbn [negb];
    [|by repeat split; try constructor].
  rewrite (fold_left_omap
             (λ file, findByTesseract host
                        (Qt.left file (Qt.indexOf file 46%N)))).
  cbn [app].
  destruct (omap _ _) as [|name names] eqn:Hnames;
    [by repeat split; try constructor|].
  cbn [isEmpty tesseractLangCombo correctLangCombo app tessdataEdit
       translateLangCombo translatorList].
  split; [done|]. split; [apply merge_sort_Permutation|].
  split; [apply std_sort_sorted|done].
Qed.

(** X23: what the three functions put into the form does not depend on
    the order in which the directory is listed or the table of languages
    is iterated: two hosts that differ in these orders only give the
    same form. *)
Theorem form_independent_of_order (host host' : Host) (path : QString)
    (enabled : list QString) (ui : Ui) :
  (∀ p, dir_exists host p = dir_exists host' p) →
  (∀ p f, dir_entryList host p f ≡ₚ dir_entryList host' p f) →
  (∀ lang, findByTesseract host lang = findByTesseract host' lang) →
  all_languages host ≡ₚ all_languages host' →
  updateTesseractLanguages host ui = updateTesseractLanguages host' ui ∧
  updateTranslators host path enabled ui
    = updateTranslators host' path enabled ui ∧
  updateTranslationLanguages host ui = updateTranslationLanguages host' ui.
Proof.
  intros Hdir Hlist Hfind Hall. split; [|split].
  - unfold updateTesseractLanguages. cbn [tessdataEdit].
    rewrite <- Hdir. destruct (dir_exists host (tessdataEdit ui)); [|done].
    cbn [negb].
    rewrite !(fold_left_omap
                (λ file, findByTesseract _
                           (Qt.left file (Qt.indexOf file 46%N)))).
    cbn [app].
    assert (Hnames :
      omap (λ file, findByTesseract host
                      (Qt.left file (Qt.indexOf file 46%N)))
        (dir_entryList host (tessdataEdit ui) (qstr "*.traineddata"))
      ≡ₚ omap (λ file, findByTesseract host'
                         (Qt.left file (Qt.indexOf file 46%N)))
           (dir_entryList host' (tessdataEdit ui) (qstr "*.traineddata"))).
    { rewrite <- (Hlist (tessdataEdit ui)).
      induction (dir_entryList host _ _) as [|file l IH]; [done|].
      cbn [omap list_omap]. rewrite <- Hfind.
      destruct (findByTesseract host _); [apply perm_skip|]; exact IH. }
    rewrite <- (std_sort_Permutation _ _ Hnames).
    destruct (omap _ (dir_entryList host _ _)) as [|n ns] eqn:E.
    + apply Permutation_nil_l in Hnames. by rewrite <- Hnames.
    + destruct (omap _ (dir_entryList host' _ _)) as [|n' ns'] eqn:E';
        [by apply Permutation_nil_r in Hnames|done].
  - unfold updateTranslators. rewrite <- Hdir.
    destruct (dir_exists host path); [|done]. cbn [negb].
    by rewrite (std_sort_Permutation _ _ (Hlist path (qstr "*.js"))).
  - unfold updateTranslationLanguages.
    rewrite !(fold_left_if (λ bundle : QString * QString,
                              negb (isEmpty bundle.1)) snd).
    cbn [app]. erewrite std_sort_Permutation; [done|].
    by apply fmap_Permutation, filter_Permutation.
Qed.

(** The witness of X23: the reference host and the host that lists the
    files and the languages in the opposite order. *)
Lemma form_independent_of_order_witness :
  updateTranslators ReferenceHost.host (qstr "/data")
    [qstr "google.js"; qstr "yandex.js"] (mkUi (qstr "/data") [] [] [] [])
  = updateTranslators ReferenceHost.host_reversed (qstr "/data")
      [qstr "google.js"; qstr "yandex.js"] (mkUi (qstr "/data") [] [] [] []).
Proof.
  refine (proj1 (proj2 (form_independent_of_order
                          ReferenceHost.host ReferenceHost.host_reversed
                          (qstr "/data") [qstr "google.js"; qstr "yandex.js"]
                          (mkUi (qstr "/data") [] [] [] []) _ _ _ _))).
  - reflexivity.
  - intros p f. symmetry. apply reverse_Permutation.
  - reflexivity.
  - symmetry. apply reverse_Permutation.
Defined.

(** X24: after [updateTranslationLanguages] the third combo box holds
    the names of the bundles of the table whose two-letter code is not
    empty, each as often as the table has it, in ascending order; the
    other widgets are as before, and a second call changes nothing. *)
Theorem updateTranslationLanguages_combo (host : Host) (ui : Ui) :
  let ui' := updateTranslationLanguages host ui in
  translateLangCombo ui'
    ≡ₚ snd <$> filter (λ bundle, isEmpty bundle.1 = false)
                 (all_languages host) ∧
  StronglySorted QString_le (translateLangCombo ui') ∧
  tessdataEdit ui' = tessdataEdit ui ∧
  tesseractLangCombo ui' = tesseractLangCombo ui ∧
  correctLangCombo ui' = correctLangCombo ui ∧
  translatorList ui' = translatorList ui ∧
  updateTranslationLanguages host ui' = ui'.
Proof.
  cbv zeta. unfold updateTranslationLanguages.
  rewrite !(fold_left_if (λ bundle : QString * QString,
                            negb (isEmpty bundle.1)) snd).
  cbn [app tessdataEdit tesseractLangCombo correctLangCombo
       translateLangCombo translatorList].
  split; [|split; [apply std_sort_sorted|done]].
  unfold std_sort. rewrite merge_sort_Permutation.
  apply fmap_Permutation. induction (all_languages host) as [|b l IH];
    [done|].
  rewrite !filter_cons. destruct (isEmpty b.1); cbn.
  - by rewrite !decide_False by done.
  - rewrite !decide_True by done. by constructor.
Qed.

(** ** [recognize]: the text is trimmed *)

Lemma drop_space_fixed (s : QString) :
  (∀ c, head s = Some c → isSpace c = false) → drop_space s = s.
Proof.
  destruct s as [|c s]; [done|]. intros Hhead. cbn.
  by rewrite (Hhead c eq_refl).
Qed.

Lemma trimmed_idempotent (s : QString) : trimmed (trimmed s) = trimmed s.
Proof.
  pose proof (trimmed_ends s) as Hends.
  unfold trimmed at 1.
  rewrite (drop_space_fixed (trimmed s)) by (intros c Hc; apply Hends; by left).
  rewrite drop_space_fixed; [apply reverse_involutive|].
  intros c Hc. apply Hends. right. by rewrite <- head_reverse.
Qed.

(** X25: whatever the session, the pixmap and the world, the text that
    [recognize] returns is its own trimmed form: it neither starts nor
    ends with whitespace, on every path. *)
Theorem recognize_text_trimmed {QImage : Type} (lib : Library QImage)
    (self : Tesseract) (source : QPixmap QImage) (w : World) :
  trimmed (recognize lib self source w).1.1 = (recognize lib self source w).1.1.
Proof.
  destruct (isValid self) eqn:Hvalid.
  - destruct (isNull source) eqn:Hnull.
    + unfold recognize. run. by rewrite Hvalid, Hnull.
    + rewrite (recognize_run lib) by done.
      destruct (prepareImage lib (toImage source) w) as [[img|] w1];
        cbn; [|done].
      apply trimmed_idempotent.
  - unfold recognize. run. by rewrite Hvalid.
Qed.

(** ** [getScale]: more free memory, no smaller scale *)

Lemma std_min_mono_r (a b b' : double) :
  is_nan a = false → leb b b' = true →
  leb (std_min a b) (std_min a b') = true.
Proof.
  intros Ha Hb. destruct (leb_nan _ _ Hb) as [Hnb Hnb'].
  apply std_min_glb.
  - by apply std_min_leb_l.
  - apply leb_trans with b; [by apply std_min_leb_r|exact Hb].
Qed.

Lemma div_leb_nonneg (a b : double) (y : Q) :
  leb (Fin 1) a = true → leb a b = true → (0 <= y)%Q →
  leb (div a (Fin y)) (div b (Fin y)) = true.
Proof.
  intros H1 Hab Hy.
  destruct (Qeq_bool y 0) eqn:E.
  - assert (H1b : leb (Fin 1) b = true) by (by apply leb_trans with a).
    assert (Hinf : ∀ x, leb (Fin 1) (Fin x) = true → Qsign_inf x = PInf).
    { intros x Hx%leb_Fin. apply Qsign_inf_pos. lra. }
    destruct a as [x| | |], b as [x'| | |]; try done; cbn [div];
      rewrite ?E, ?Qltb_pos, ?Hinf by done; done.
  - apply div_leb_r; [|done].
    assert (¬ (y == 0)%Q).
    { intros H. apply Qeq_bool_iff in H. congruence. }
    lra.
Qed.

Lemma std_max_ge_r (a b : double) :
  is_nan a = false → is_nan b = false → leb b (std_max a b) = true.
Proof.
  intros Ha Hb. unfold std_max. destruct (ltb a b) eqn:E.
  - by apply leb_refl.
  - by apply not_ltb_leb.
Qed.

(** X26: for a buffer whose dimensions fit [l_uint32], the result of
    [getScale] does not decrease when the probe reports more free
    memory: with less memory it is the sentinel or a smaller scale. *)
Theorem getScale_monotone_memory (src : PixRef) (w w' : World) :
  (pix_w (obj src) < 2 ^ 32)%N →
  (pix_h (obj src) < 2 ^ 32)%N →
  freeMemory w ≤ freeMemory w' →
  leb (getScale (Some src) w).1 (getScale (Some src) w').1 = true.
Proof.
  intros Hw Hh Hfree. unfold getScale. run.
  destruct (wrap_int32 _ =? 0); [reflexivity|].
  set (d := div (Fin 500) (of_Z _)).
  assert (Hnd : is_nan d = false)
    by (apply is_nan_div_pos; [reflexivity|apply is_nan_round]).
  set (pref := std_max d (Fin 1)).
  assert (Hnp : is_nan pref = false).
  { subst pref. unfold std_max. by destruct (ltb _ _). }
  assert (H1p : leb (Fin 1) pref = true)
    by (apply std_max_ge_r; [exact Hnd|reflexivity]).
  destruct (leb pref (Fin 1)); [reflexivity|].
  rewrite literal_0_95.
  set (c := (4278419646001971 # 4503599627370496)%Q).
  set (avail := mul (of_Z (freeMemory w)) (Fin c)).
  set (avail' := mul (of_Z (freeMemory w')) (Fin c)).
  assert (Hle : leb avail avail' = true).
  { apply mul_leb_r; [reflexivity|]. by apply of_Z_leb. }
  destruct (leb_nan _ _ Hle) as [Hna Hna'].
  set (MX := div (of_Z INT_MAX) (of_N (pix_w (obj src)))).
  set (MY := div (of_Z INT_MAX) (of_N (pix_h (obj src)))).
  pose proof (axis_clamp_lower _ Hw) as HX. fold MX in HX.
  pose proof (axis_clamp_lower _ Hh) as HY. fold MY in HY.
  destruct (leb_nan _ _ HX) as [_ HnX].
  destruct (leb_nan _ _ HY) as [_ HnY].
  set (G := std_min (std_min pref MX) (std_min pref MY)).
  assert (HnG : is_nan G = false).
  { subst G. apply std_min_nan; apply std_min_nan; assumption. }
  set (l := Fin (1 # 536870912)).
  assert (HlG : leb l G = true).
  { subst G. apply std_min_glb; apply std_min_glb;
      first [ apply leb_trans with (Fin 1); [reflexivity|exact H1p]
            | apply leb_trans with (Fin (1 # 4)); [reflexivity|assumption] ]. }
  change (wrap_uint32 (wrap_uint32 (pix_w (obj src) * pix_h (obj src))
                       * pix_d (obj src)) / 8)%N
    with (footprint (obj src)).
  pose proof (footprint_bound (obj src)) as Hsize.
  destruct (ltb avail (Fin 1)) eqn:Ha; destruct (ltb avail' (Fin 1)) eqn:Ha';
    cbn [fst].
  - reflexivity.
  - apply leb_trans with l; [reflexivity|].
    apply std_min_glb; [exact HlG|].
    apply memory_bound_lower; [|exact Hsize].
    apply not_ltb_leb; [reflexivity|exact Hna'|exact Ha'].
  - assert (H1 : leb (Fin 1) avail' = true).
    { apply leb_trans with avail; [|exact Hle].
      apply not_ltb_leb; [reflexivity|exact Hna|exact Ha]. }
    apply leb_not_ltb in H1. congruence.
  - apply std_min_mono_r; [exact HnG|].
    rewrite of_N_exact by lia.
    apply div_leb_nonneg; [|exact Hle|].
    + apply not_ltb_leb; [reflexivity|exact Hna|exact Ha].
    + rewrite Qred_correct. change 0%Q with (inject_Z 0).
      rewrite <- Zle_Qle. lia.
Qed.

(** The witness of X26: scenario A with 2 MB and with 8 GiB free. *)
Lemma getScale_monotone_memory_witness :
  leb (getScale (Some (mkRef 0 (mkPix 1000 800 8 100 100)))
         (Reference.world 2000000)).1
      (getScale (Some (mkRef 0 (mkPix 1000 800 8 100 100)))
         (Reference.world (8 * Reference.GiB))).1 = true.
Proof.
  apply (getScale_monotone_memory (mkRef 0 (mkPix 1000 800 8 100 100))
           (Reference.world 2000000) (Reference.world (8 * Reference.GiB)));
    by vm_compute.
Defined.
